(** * ServiceNow MCP server: session transport manager and bearer middleware

    A shallow embedding of the HTTP entry point of the ServiceNow MCP server
    (the Express application with its [/mcp] routes, session maps and eviction
    sweep) and of [src/ServiceNow/src/auth.ts] (bearer middleware, route
    mounting).

    The two session maps are JavaScript [Map]s.  A [Map] iterates in insertion
    order and the sweep and shutdown loops delete entries while they iterate,
    so a map is an insertion-ordered association list with the [Map]
    operations written out.  The Express handlers run on one event loop; a
    handler is a computation over the module state that also records the map
    accesses and SDK calls it performs.  Everything the MCP SDK, better-auth
    and the platform decide (whether a constructor throws, which session id
    [randomUUID] returns, what [Date.now] reads) is an input of the
    computation.

    The same holds for the helpers around them: the demo user and the
    sign-in page of [auth.ts], the credentials check, the OAuth token cache,
    [snowRequest] and the [execute_flow] tool of [server.ts], and the tracing
    wrapper of [observability.ts].  What better-auth, [fetch] and the tool
    handlers answer or throw is an input there too. *)

From Stdlib Require Import String Ascii List ZArith Lia Bool DecimalString.
Import ListNotations.

Open Scope string_scope.
Open Scope Z_scope.

(** ** JavaScript values used by the handlers *)

(** Truthiness of a [string | undefined]: [undefined] and the empty string are
    falsy. *)
Definition truthy (s : option string) : bool :=
  match s with
  | None => false
  | Some EmptyString => false
  | Some (String _ _) => true
  end.

(** [Array.prototype.join]. *)
Definition join (sep : string) (l : list string) : string := String.concat sep l.

(** [String.prototype.split] with a one-character separator. *)
Fixpoint split_on (sep : ascii) (s : string) : list string :=
  match s with
  | EmptyString => [EmptyString]
  | String c rest =>
      if Ascii.eqb c sep then EmptyString :: split_on sep rest
      else match split_on sep rest with
           | [] => [String c EmptyString]
           | w :: ws => String c w :: ws
           end
  end.

(** [Array.prototype.includes] on strings. *)
Definition includes (l : list string) (s : string) : bool :=
  existsb (String.eqb s) l.

(** [String.prototype.startsWith]. *)
Definition startsWith (s pre : string) : bool := String.prefix pre s.

(** [String.prototype.slice(n)] for [n] within the string. *)
Fixpoint slice (n : nat) (s : string) : string :=
  match n, s with
  | O, _ => s
  | S n', String _ rest => slice n' rest
  | S _, EmptyString => EmptyString
  end.

(** The double quote character of the template literals. *)
Definition dq : string := String (ascii_of_nat 34) EmptyString.

(** ** The JavaScript [Map], insertion ordered *)

Module JsMap.
Section Ops.
Context {V : Type}.

Definition t := list (string * V).

Definition empty : t := [].

Fixpoint get (k : string) (m : t) : option V :=
match m with
| [] => None
| (k', v) :: m' => if String.eqb k' k then Some v else get k m'
end.

Definition has (k : string) (m : t) : bool :=
match get k m with Some _ => true | None => false end.

(** [set] keeps the position of a key that is present and appends a new
one. *)
Fixpoint set (k : string) (v : V) (m : t) : t :=
match m with
| [] => [(k, v)]
| (k', v') :: m' =>
  if String.eqb k' k then (k, v) :: m' else (k', v') :: set k v m'
end.

Fixpoint delete (k : string) (m : t) : t :=
match m with
| [] => []
| (k', v') :: m' =>
  if String.eqb k' k then delete k m' else (k', v') :: delete k m'
end.

Definition size (m : t) : Z := Z.of_nat (length m).

Definition keys (m : t) : list string := map fst m.
End Ops.
Arguments t : clear implicits.
End JsMap.

(** ** Session identifiers *)

(** The character classes of [UUID_RE]; the [i] flag makes the letters match
    in both cases. *)
Inductive CharClass :=
| Hex      (* [0-9a-f] *)
| Dash     (* - *)
| Four     (* 4 *)
| Variant. (* [89ab] *)

Definition code (c : ascii) : nat := nat_of_ascii c.

Definition between (lo hi : nat) (c : ascii) : bool :=
  (Nat.leb lo (code c) && Nat.leb (code c) hi)%bool.

Definition is_hex (c : ascii) : bool :=
  (between 48 57 c || between 97 102 c || between 65 70 c)%bool.

Definition class_matches (cl : CharClass) (c : ascii) : bool :=
  match cl with
  | Hex => is_hex c
  | Dash => Nat.eqb (code c) 45
  | Four => Nat.eqb (code c) 52
  | Variant =>
      (between 56 57 c || between 97 98 c || between 65 66 c)%bool
  end.

(** [/^[0-9a-f]{8}-[0-9a-f]{4}-4[0-9a-f]{3}-[89ab][0-9a-f]{3}-[0-9a-f]{12}$/i] *)
Definition UUID_RE : list CharClass :=
  repeat Hex 8 ++ [Dash] ++ repeat Hex 4 ++ [Dash] ++
  [Four] ++ repeat Hex 3 ++ [Dash] ++
  [Variant] ++ repeat Hex 3 ++ [Dash] ++ repeat Hex 12.

(** [RegExp.prototype.test] for an anchored sequence of single-character
    classes: the whole string, class by class. *)
Fixpoint regex_test (re : list CharClass) (s : string) : bool :=
  match re, s with
  | [], EmptyString => true
  | cl :: re', String c s' => (class_matches cl c && regex_test re' s')%bool
  | _, _ => false
  end.

Definition isValidSessionId (id : string) : bool := regex_test UUID_RE id.

(** ** Data model *)

(** The auth context returned by [verifyAccessToken]. *)
Record AuthInfo := mkAuthInfo {
  token : string;
  clientId : string;
  scopes : list string;
  expiresAt : Z
}.

(** A [StreamableHTTPServerTransport]; [sessionId] is the SDK's field, read by
    the [onclose] callback. *)
Record Transport := mkTransport {
  sessionId : option string
}.

(** The module state of the HTTP entry point, with the application-wide
    [app.locals] object that every request reaches through [req.app]. *)
Record State := mkState {
  transports : JsMap.t Transport;
  sessionLastAccess : JsMap.t Z;
  locals_auth : option AuthInfo
}.

Definition initial : State :=
  {| transports := JsMap.empty; sessionLastAccess := JsMap.empty;
     locals_auth := None |}.

Definition MAX_SESSIONS : Z := 1000.
Definition SESSION_TTL_MS : Z := 30 * 60 * 1000.

(** Response bodies. [Opaque] is a payload written by the SDK transport,
    by better-auth or by Express itself. *)
Inductive ResBody :=
| JsonRpcError (code : Z) (message : string)
| OAuthError (error : string) (error_description : string)
| PlainText (text : string)
| Opaque (payload : string).

Record Response := mkResponse {
  res_status : Z;
  res_www_authenticate : option string;
  res_body : ResBody
}.

Definition respond (status : Z) (b : ResBody) : Response :=
  {| res_status := status; res_www_authenticate := None; res_body := b |}.

(** ** Effects: state passing with a trace of map accesses and SDK calls *)

Inductive MapName := Transports | SessionLastAccess.

Inductive MapOp :=
| OpHas (k : string)
| OpGet (k : string)
| OpSet (k : string)
| OpDelete (k : string)
| OpSize
| OpEntries.

Inductive Event :=
| Access (m : MapName) (op : MapOp)
| Sweep
| Close (t : Transport)
| HandleRequest (t : Transport).

Definition is_sweep (e : Event) : bool :=
  match e with Sweep => true | _ => false end.

Record Run (A : Type) := mkRun {
  value : A;
  final : State;
  trace : list Event
}.
Arguments mkRun {A}.
Arguments value {A}.
Arguments final {A}.
Arguments trace {A}.

Definition M (A : Type) : Type := State -> Run A.

Definition ret {A} (a : A) : M A := fun st => mkRun a st [].

Definition bind {A B} (m : M A) (k : A -> M B) : M B :=
  fun st =>
    let r1 := m st in
    let r2 := k (value r1) (final r1) in
    mkRun (value r2) (final r2) (trace r1 ++ trace r2).

Declare Scope handler_scope.
Delimit Scope handler_scope with handler.
Notation "x <- m ;; k" := (bind m (fun x => k))
  (at level 61, m at next level, right associativity) : handler_scope.
Notation "m ;; k" := (bind m (fun _ => k))
  (at level 61, right associativity) : handler_scope.
Open Scope handler_scope.

Definition emit (e : Event) : M unit := fun st => mkRun tt st [e].

Definition transports_has (k : string) : M bool :=
  fun st => mkRun (JsMap.has k (transports st)) st [Access Transports (OpHas k)].

Definition transports_get (k : string) : M (option Transport) :=
  fun st => mkRun (JsMap.get k (transports st)) st [Access Transports (OpGet k)].

Definition transports_size : M Z :=
  fun st => mkRun (JsMap.size (transports st)) st [Access Transports OpSize].

Definition transports_set (k : string) (t : Transport) : M unit :=
  fun st =>
    mkRun tt
      {| transports := JsMap.set k t (transports st);
         sessionLastAccess := sessionLastAccess st;
         locals_auth := locals_auth st |}
      [Access Transports (OpSet k)].

Definition transports_delete (k : string) : M unit :=
  fun st =>
    mkRun tt
      {| transports := JsMap.delete k (transports st);
         sessionLastAccess := sessionLastAccess st;
         locals_auth := locals_auth st |}
      [Access Transports (OpDelete k)].

Definition sessionLastAccess_set (k : string) (now : Z) : M unit :=
  fun st =>
    mkRun tt
      {| transports := transports st;
         sessionLastAccess := JsMap.set k now (sessionLastAccess st);
         locals_auth := locals_auth st |}
      [Access SessionLastAccess (OpSet k)].

Definition sessionLastAccess_delete (k : string) : M unit :=
  fun st =>
    mkRun tt
      {| transports := transports st;
         sessionLastAccess := JsMap.delete k (sessionLastAccess st);
         locals_auth := locals_auth st |}
      [Access SessionLastAccess (OpDelete k)].

(** [req.app.locals.auth = authInfo] *)
Definition set_locals_auth (a : AuthInfo) : M unit :=
  fun st =>
    mkRun tt
      {| transports := transports st;
         sessionLastAccess := sessionLastAccess st;
         locals_auth := Some a |}
      [].

(** [for (const [k, v] of map)]: the iterator walks the entries in insertion
    order and skips an entry deleted before it is reached.  The loops below
    only delete, so the entries present when the loop starts bound the
    walk. *)
Fixpoint for_of {V} (live : State -> JsMap.t V) (entries : list (string * V))
    (body : string -> V -> M unit) : M unit :=
  match entries with
  | [] => ret tt
  | (k, _) :: rest =>
      fun st =>
        match JsMap.get k (live st) with
        | Some v => (body k v ;; for_of live rest body) st
        | None => for_of live rest body st
        end
  end.

(** ** Session lifecycle *)

(** The [transport.onclose] callback installed by the POST handler. *)
Definition onclose (t : Transport) : M unit :=
  match sessionId t with
  | Some sid =>
      if truthy (Some sid) then
        transports_delete sid ;; sessionLastAccess_delete sid
      else ret tt
  | None => ret tt
  end.

(** [transport.close()]: the SDK transport shuts its streams and runs its
    [onclose] callback. *)
Definition close (t : Transport) : M unit :=
  emit (Close t) ;; onclose t.

Definition evict_entry (cutoff : Z) (sid : string) (lastAccess : Z) : M unit :=
  if lastAccess <? cutoff then
    transport <- transports_get sid ;;
    match transport with
    | Some t => close t ;; transports_delete sid
    | None => ret tt
    end ;;
    sessionLastAccess_delete sid
  else ret tt.

(** [evictStaleSessions], with the value [Date.now()] reads as [now]. *)
Definition evictStaleSessions (now : Z) : M unit :=
  emit Sweep ;;
  let cutoff := now - SESSION_TTL_MS in
  fun st =>
    (emit (Access SessionLastAccess OpEntries) ;;
     for_of sessionLastAccess (sessionLastAccess st) (evict_entry cutoff)) st.

(** The body of the loop of [gracefulShutdown]. *)
Definition shutdown_entry (sid : string) (transport : Transport) : M unit :=
  close transport ;;
  transports_delete sid ;;
  sessionLastAccess_delete sid.

(** [gracefulShutdown], up to the point where the process exits. *)
Definition gracefulShutdown : M unit :=
  fun st =>
    (emit (Access Transports OpEntries) ;;
     for_of transports (transports st) shutdown_entry) st.

(** The [onsessioninitialized] callback of a new transport. *)
Definition onsessioninitialized (now : Z) (transport : Transport)
    (newSessionId : string) : M unit :=
  transports_set newSessionId transport ;;
  sessionLastAccess_set newSessionId now.

(** ** Token verification and the bearer middleware (auth.ts) *)

(** What [getMcpSession] of better-auth yields for a bearer value. Only the
    fields [verifyAccessToken] reads are kept: [ms_scopes] is present when
    [typeof session.scopes === 'string'], [ms_accessTokenExpiresAt] holds the
    epoch milliseconds of a truthy [session.accessTokenExpiresAt]. *)
Record McpSession := mkMcpSession {
  ms_clientId : string;
  ms_scopes : option string;
  ms_accessTokenExpiresAt : option Z
}.

(** A thrown value: the [message] of an [Error], or nothing for a value that
    is not an [Error]. *)
Inductive Result (A : Type) :=
| Ok (a : A)
| Throw (message : option string).
Arguments Ok {A}.
Arguments Throw {A}.

(** The better-auth instance, as far as this server calls into it. *)
Record Auth := mkAuth {
  getMcpSession : string -> Result (option McpSession);
  getMCPProtectedResource : string;
  getOAuthServerConfig : string
}.

Definition getAuth (auth : option Auth) : Result Auth :=
  match auth with
  | Some a => Ok a
  | None => Throw (Some "Auth not initialized. Call mountAuthRoutes first.")
  end.

Definition verifyAccessToken (auth : option Auth) (now : Z) (tok : string)
    : Result AuthInfo :=
  match getAuth auth with
  | Throw m => Throw m
  | Ok a =>
      match getMcpSession a tok with
      | Throw m => Throw m
      | Ok None => Throw (Some "Invalid token")
      | Ok (Some session) =>
          let scopes :=
            match ms_scopes session with
            | Some s => split_on (ascii_of_nat 32) s
            | None => ["openid"]
            end in
          let expiresAt :=
            match ms_accessTokenExpiresAt session with
            | Some ms => ms / 1000
            | None => now / 1000 + 3600
            end in
          Ok {| token := tok; clientId := ms_clientId session;
                scopes := scopes; expiresAt := expiresAt |}
      end
  end.

(** A WHATWG [URL] object; [href] is what [toString()] returns. *)
Record URL := mkURL { href : string }.

Record BearerOptions := mkBearerOptions {
  requiredScopes : list string;
  resourceMetadataUrl : option URL
}.

Definition buildWwwAuth (options : BearerOptions) (code message : string)
    : string :=
  let header :=
    "Bearer error=" ++ dq ++ code ++ dq ++
    ", error_description=" ++ dq ++ message ++ dq in
  let header :=
    if (0 <? Z.of_nat (length (requiredScopes options))) then
      header ++ ", scope=" ++ dq ++ join " " (requiredScopes options) ++ dq
    else header in
  match resourceMetadataUrl options with
  | Some u => header ++ ", resource_metadata=" ++ dq ++ href u ++ dq
  | None => header
  end.

(** An incoming request: the two headers the routes read and the parsed
    body. *)
Record Request (Body : Type) := mkRequest {
  authorization : option string;
  mcp_session_id : option string;
  req_body : Body
}.
Arguments mkRequest {Body}.
Arguments authorization {Body}.
Arguments mcp_session_id {Body}.
Arguments req_body {Body}.

(** What a middleware did: ended the response or called [next()]. *)
Inductive MiddlewareResult :=
| Responded (r : Response)
| Next.

Definition requireBearerAuth {Body} (options : BearerOptions)
    (auth : option Auth) (now : Z) (req : Request Body) : M MiddlewareResult :=
  let bearer :=
    match authorization req with
    | Some h => if startsWith h "Bearer " then Some h else None
    | None => None
    end in
  match bearer with
  | None =>
      ret (Responded
        {| res_status := 401;
           res_www_authenticate :=
             Some (buildWwwAuth options "invalid_token"
                     "Missing Authorization header");
           res_body := OAuthError "invalid_token"
                         "Missing Authorization header" |})
  | Some authHeader =>
      match verifyAccessToken auth now (slice 7 authHeader) with
      | Ok authInfo =>
          if ((0 <? Z.of_nat (length (requiredScopes options))) &&
              negb (forallb (includes (scopes authInfo))
                      (requiredScopes options)))%bool
          then
            ret (Responded
              {| res_status := 403;
                 res_www_authenticate :=
                   Some (buildWwwAuth options "insufficient_scope"
                           ("Required: " ++
                            join ", " (requiredScopes options)));
                 res_body := OAuthError "insufficient_scope"
                               ("Required scopes: " ++
                                join ", " (requiredScopes options)) |})
          else
            set_locals_auth authInfo ;; ret Next
      | Throw m =>
          let msg := match m with Some s => s | None => "Invalid token" end in
          ret (Responded
            {| res_status := 401;
               res_www_authenticate :=
                 Some (buildWwwAuth options "invalid_token" msg);
               res_body := OAuthError "invalid_token" msg |})
      end
  end.

(** ** Route mounting (auth.ts, [mountAuthRoutes]) *)

Inductive Method :=
| GET | POST | DELETE | OPTIONS | HEAD
| OtherMethod (name : string).

Definition method_eqb (a b : Method) : bool :=
  match a, b with
  | GET, GET | POST, POST | DELETE, DELETE | OPTIONS, OPTIONS
  | HEAD, HEAD => true
  | OtherMethod x, OtherMethod y => String.eqb x y
  | _, _ => false
  end.

(** The handlers [mountAuthRoutes] registers. [PrmHandler] is the one value
    [prmHandler] that the loop over the two paths passes to [app.get]. *)
Inductive Handler :=
| RateLimit (windowMs limit : Z)
| BetterAuthApi
| Cors
| DiscoveryMetadataHandler
| PrmHandler
| SignInPage.

Inductive PathPattern :=
| Exact (p : string)
| Splat (base : string).   (* '/api/auth/{*splat}': below the base *)

Record Route := mkRoute {
  route_method : option Method;   (* [None] for [app.all] *)
  route_path : PathPattern;
  route_handlers : list Handler
}.

Definition prmPaths : list string :=
  ["/.well-known/oauth-protected-resource/mcp";
   "/.well-known/oauth-protected-resource"].

Definition mountAuthRoutes : list Route :=
  [ mkRoute None (Splat "/api/auth") [RateLimit 60000 30; BetterAuthApi];
    mkRoute (Some OPTIONS) (Exact "/.well-known/oauth-authorization-server")
      [Cors];
    mkRoute (Some GET) (Exact "/.well-known/oauth-authorization-server")
      [Cors; DiscoveryMetadataHandler] ]
  ++ flat_map
       (fun prmPath =>
          [ mkRoute (Some OPTIONS) (Exact prmPath) [Cors];
            mkRoute (Some GET) (Exact prmPath) [Cors; PrmHandler] ])
       prmPaths
  ++ [ mkRoute (Some GET) (Exact "/sign-in") [RateLimit 60000 10; SignInPage] ].

(** Lower case of an ASCII letter; the [i] flag of a pattern made of ASCII
    characters folds nothing else. *)
Definition lower (c : ascii) : ascii :=
  let n := nat_of_ascii c in
  if (Nat.leb 65 n && Nat.leb n 90)%bool then ascii_of_nat (n + 32) else c.

Fixpoint lowercase (s : string) : string :=
  match s with
  | EmptyString => EmptyString
  | String c rest => String (lower c) (lowercase rest)
  end.

(** Express compiles a route path with path-to-regexp, neither case
    sensitive nor strict, and tests the pathname of the request: a path
    without parameters matches itself in any letter case, with or without
    one trailing slash; the splat pattern matches every pathname that starts
    with its base and a slash, and not the bare base. *)
Definition path_matches (pat : PathPattern) (path : string) : bool :=
  match pat with
  | Exact p =>
      (String.eqb (lowercase p) (lowercase path) ||
       String.eqb (lowercase p ++ "/") (lowercase path))%bool
  | Splat base => String.prefix (lowercase base ++ "/") (lowercase path)
  end.

(** A route serves the method it was registered for, [app.all] serves every
    method, and a route registered for GET also serves HEAD. *)
Definition route_matches (m : Method) (path : string) (r : Route) : bool :=
  (match route_method r with
   | Some m' =>
       (method_eqb m' m || (method_eqb m HEAD && method_eqb m' GET))%bool
   | None => true
   end && path_matches (route_path r) path)%bool.

(** What a handler of the table does with a request. The better-auth API
    and the sign-in page are outside this development. *)
Inductive Served :=
| Ends (r : Response)
| CallsNext
| Elsewhere.

(** What both rate limiters answer to a client that is over the limit:
    their [message] with HTTP 429. *)
Definition too_many_requests : Response :=
  respond 429
    (OAuthError "too_many_requests" "Rate limit exceeded. Try again later.").

(** The two metadata handlers wrap better-auth's
    [oAuthProtectedResourceMetadata] and [oAuthDiscoveryMetadata], which
    answer with the JSON text of a document computed from the auth instance
    and take nothing from the request. A rate limiter counts the request in
    its store and lets it pass while the count is within the limit;
    [totalHits] is the count of the limiter on the request's route for this
    client in the current window, this request included. *)
Definition run_handler (a : Auth) (totalHits : Z) (m : Method) (h : Handler)
    : Served :=
  match h with
  | RateLimit _ limit =>
      if totalHits >? limit then Ends too_many_requests else CallsNext
  | Cors => if method_eqb m OPTIONS then Ends (respond 204 (Opaque EmptyString))
            else CallsNext
  | DiscoveryMetadataHandler =>
      Ends (respond 200 (Opaque (getOAuthServerConfig a)))
  | PrmHandler => Ends (respond 200 (Opaque (getMCPProtectedResource a)))
  | BetterAuthApi => Elsewhere
  | SignInPage => Elsewhere
  end.

Fixpoint run_chain (a : Auth) (totalHits : Z) (m : Method)
    (hs : list Handler) : Served :=
  match hs with
  | [] => CallsNext
  | h :: rest =>
      match run_handler a totalHits m h with
      | CallsNext => run_chain a totalHits m rest
      | s => s
      end
  end.

(** Express walks the routes in mounting order; a chain that calls [next()]
    to its end falls through to the next matching route. *)
Fixpoint dispatch (a : Auth) (totalHits : Z) (m : Method) (path : string)
    (rs : list Route) : Served :=
  match rs with
  | [] => CallsNext
  | r :: rest =>
      if route_matches m path r then
        match run_chain a totalHits m (route_handlers r) with
        | CallsNext => dispatch a totalHits m path rest
        | s => s
        end
      else dispatch a totalHits m path rest
  end.

(** ** The /mcp routes *)

(** What [transport.handleRequest] did, as far as the handlers can tell:
    whether the transport closed (running [onclose]), what it wrote to the
    response, and whether the returned promise rejected. *)
Record HandleOutcome := mkHandleOutcome {
  closes : bool;
  written : option Response;
  throws : bool
}.

(** The SDK and platform side of creating a session. [generated] is the id
    [sessionIdGenerator] (that is [randomUUID()]) returned when the transport
    accepted the initialize message and ran [onsessioninitialized]. *)
Record InitOutcome := mkInitOutcome {
  construct_throws : bool;      (* new StreamableHTTPServerTransport(...) *)
  createServer_throws : bool;   (* createServer() *)
  connect_throws : bool;        (* server.connect(transport) *)
  generated : option string;
  now_init : Z;                 (* Date.now() in onsessioninitialized *)
  handled : HandleOutcome
}.

Record PostEnv := mkPostEnv {
  now_access : Z;               (* Date.now() on the existing-session path *)
  now_sweep : Z;                (* Date.now() in evictStaleSessions *)
  delegated : HandleOutcome;    (* the existing transport's handleRequest *)
  fresh : InitOutcome
}.

Record DelegateEnv := mkDelegateEnv {
  now_touch : Z;
  outcome : HandleOutcome
}.

(** How a [try] block or an awaited call ended, with the response written
    so far ([None]: headers not sent). *)
Inductive Completion := Returned | Threw.

Definition finish (o : HandleOutcome) : Completion * option Response :=
  (if throws o then Threw else Returned, written o).

(** [transport.handleRequest] on a transport taken from the map. A transport
    in the map has run [onsessioninitialized] already; the SDK runs it once
    per transport. *)
Definition handleRequest (t : Transport) (o : HandleOutcome)
    : M (Completion * option Response) :=
  emit (HandleRequest t) ;;
  (if closes o then close t else ret tt) ;;
  ret (finish o).

(** [transport.handleRequest] on the transport the POST handler has just
    built. *)
Definition handleRequest_new (i : InitOutcome)
    : M (Completion * option Response) :=
  match generated i with
  | Some newSessionId =>
      let transport := {| sessionId := Some newSessionId |} in
      emit (HandleRequest {| sessionId := None |}) ;;
      onsessioninitialized (now_init i) transport newSessionId ;;
      (if closes (handled i) then close transport else ret tt) ;;
      ret (finish (handled i))
  | None =>
      let transport := {| sessionId := None |} in
      emit (HandleRequest transport) ;;
      (if closes (handled i) then close transport else ret tt) ;;
      ret (finish (handled i))
  end.

Definition jsonrpc_error (status code : Z) (message : string) : Response :=
  respond status (JsonRpcError code message).

(** The four JSON-RPC error responses of the POST handler. *)
Definition invalid_format_error : Response :=
  jsonrpc_error 400 (-32000) "Bad Request: Invalid session ID format".

Definition no_session_error : Response :=
  jsonrpc_error 400 (-32000) "Bad Request: No valid session ID provided".

Definition server_busy_error : Response :=
  jsonrpc_error 503 (-32000) "Server busy: too many active sessions".

Definition internal_error : Response :=
  jsonrpc_error 500 (-32603) "Internal server error".

Section McpRoutes.
(** The parsed JSON body and the SDK's [isInitializeRequest]. *)
Variable Body : Type.
Variable isInitializeRequest : Body -> bool.
(** [MCP_SERVER_URL] and the platform's [new URL(...)]. *)
Variable SERVER_URL : string.
Variable newURL : string -> URL.

Definition authMiddleware
    : option Auth -> Z -> Request Body -> M MiddlewareResult :=
  requireBearerAuth
    {| requiredScopes := [];
       resourceMetadataUrl :=
         Some (newURL (SERVER_URL ++
                       "/.well-known/oauth-protected-resource/mcp")) |}.

(** The new-session branch of the POST handler, from the session cap on. *)
Definition create_session (env : PostEnv)
    : M (Completion * option Response) :=
  n <- transports_size ;;
  full <- (if n >=? MAX_SESSIONS then
             evictStaleSessions (now_sweep env) ;;
             n' <- transports_size ;;
             ret (n' >=? MAX_SESSIONS)
           else ret false) ;;
  if full then
    ret (Returned, Some server_busy_error)
  else if construct_throws (fresh env) then ret (Threw, None)
  else if createServer_throws (fresh env) then ret (Threw, None)
  else if connect_throws (fresh env) then ret (Threw, None)
  else handleRequest_new (fresh env).

Definition new_session (env : PostEnv) (req : Request Body)
    : M (Completion * option Response) :=
  if negb (isInitializeRequest (req_body req)) then
    ret (Returned, Some no_session_error)
  else create_session env.

(** The body of the [try] block of the POST handler. *)
Definition post_try (env : PostEnv) (req : Request Body)
    : M (Completion * option Response) :=
  match mcp_session_id req with
  | Some sid =>
      if truthy (Some sid) then
        known <- transports_has sid ;;
        if known then
          sessionLastAccess_set sid (now_access env) ;;
          transport <- transports_get sid ;;
          match transport with
          | Some t => handleRequest t (delegated env)
          | None => ret (Threw, None)
          end
        else new_session env req
      else new_session env req
  | None => new_session env req
  end.

(** [app.post('/mcp', authMiddleware, ...)], after the middleware. *)
Definition post_mcp (env : PostEnv) (req : Request Body)
    : M (option Response) :=
  let invalid :=
    match mcp_session_id req with
    | Some sid => (truthy (Some sid) && negb (isValidSessionId sid))%bool
    | None => false
    end in
  if invalid then
    ret (Some invalid_format_error)
  else
    r <- post_try env req ;;
    match r with
    | (Returned, res) => ret res
    | (Threw, Some res) => ret (Some res)
    | (Threw, None) => ret (Some internal_error)
    end.

(** Express answers a rejected handler promise with its default error
    response when nothing has been sent. *)
Definition express_finish (r : Completion * option Response)
    : option Response :=
  match r with
  | (Returned, res) => res
  | (Threw, Some res) => Some res
  | (Threw, None) => Some (respond 500 (Opaque "Internal Server Error"))
  end.

Definition invalid_or_missing : Response :=
  respond 400 (PlainText "Invalid or missing session ID").

(** [app.get('/mcp', authMiddleware, ...)], after the middleware. *)
Definition get_mcp (env : DelegateEnv) (req : Request Body)
    : M (option Response) :=
  match mcp_session_id req with
  | Some sid =>
      if (negb (truthy (Some sid)) || negb (isValidSessionId sid))%bool then
        ret (Some invalid_or_missing)
      else
        known <- transports_has sid ;;
        if negb known then ret (Some invalid_or_missing)
        else
          sessionLastAccess_set sid (now_touch env) ;;
          transport <- transports_get sid ;;
          match transport with
          | Some t =>
              r <- handleRequest t (outcome env) ;; ret (express_finish r)
          | None => ret (express_finish (Threw, None))
          end
  | None => ret (Some invalid_or_missing)
  end.

(** [app.delete('/mcp', authMiddleware, ...)], after the middleware. *)
Definition delete_mcp (env : DelegateEnv) (req : Request Body)
    : M (option Response) :=
  match mcp_session_id req with
  | Some sid =>
      if (negb (truthy (Some sid)) || negb (isValidSessionId sid))%bool then
        ret (Some invalid_or_missing)
      else
        known <- transports_has sid ;;
        if negb known then ret (Some invalid_or_missing)
        else
          sessionLastAccess_delete sid ;;
          transport <- transports_get sid ;;
          match transport with
          | Some t =>
              r <- handleRequest t (outcome env) ;; ret (express_finish r)
          | None => ret (express_finish (Threw, None))
          end
  | None => ret (Some invalid_or_missing)
  end.

(** A protected route: the bearer middleware, then the handler when the
    middleware calls [next()]. *)
Definition protected (auth : option Auth) (now : Z)
    (handler : Request Body -> M (option Response)) (req : Request Body)
    : M (option Response) :=
  r <- authMiddleware auth now req ;;
  match r with
  | Responded res => ret (Some res)
  | Next => handler req
  end.

(** What can happen to the server. A handler run is one step: the server
    has a single event loop, the handlers await only promises of the SDK,
    and runs of different requests are not interleaved here. The
    observability scopes of the POST handler leave nothing in the module
    state and are left out. *)
Inductive ServerEvent :=
| PostMcp (auth : option Auth) (now : Z) (env : PostEnv) (req : Request Body)
| GetMcp (auth : option Auth) (now : Z) (env : DelegateEnv)
    (req : Request Body)
| DeleteMcp (auth : option Auth) (now : Z) (env : DelegateEnv)
    (req : Request Body)
| EvictionTimer (now : Z)
| TransportClosed (t : Transport)
| Shutdown.

Definition step (e : ServerEvent) : M (option Response) :=
  match e with
  | PostMcp auth now env req => protected auth now (post_mcp env) req
  | GetMcp auth now env req => protected auth now (get_mcp env) req
  | DeleteMcp auth now env req => protected auth now (delete_mcp env) req
  | EvictionTimer now => evictStaleSessions now ;; ret None
  | TransportClosed t => onclose t ;; ret None
  | Shutdown => gracefulShutdown ;; ret None
  end.

Fixpoint run (es : list ServerEvent) (st : State) : State :=
  match es with
  | [] => st
  | e :: rest => run rest (final (step e st))
  end.
End McpRoutes.

Arguments authMiddleware {Body} SERVER_URL newURL auth now req.
Arguments new_session {Body} isInitializeRequest env req.
Arguments post_try {Body} isInitializeRequest env req.
Arguments post_mcp {Body} isInitializeRequest env req.
Arguments get_mcp {Body} env req.
Arguments delete_mcp {Body} env req.
Arguments protected {Body} SERVER_URL newURL auth now handler req.
Arguments PostMcp {Body}.
Arguments GetMcp {Body}.
Arguments DeleteMcp {Body}.
Arguments EvictionTimer {Body}.
Arguments TransportClosed {Body}.
Arguments Shutdown {Body}.
Arguments step {Body} isInitializeRequest SERVER_URL newURL e.
Arguments run {Body} isInitializeRequest SERVER_URL newURL es st.

(** ** The JSON body parser in front of the /mcp routes *)

(** [app.use(express.json({ limit: '1mb' }))] is mounted before the /mcp
    routes, so it sees every request first. It passes a request on with
    its body parsed, or untouched when there is no JSON body to parse, or
    it fails: 400 for a body that does not parse, 413 for one over the
    limit, and so on. Express answers a failure with its default error
    page under the parser's status; the routes never see the request. *)
Inductive BodyParse (Body : Type) :=
| BodyParsed (body : Body)
| BodyRejected (status : Z) (page : string).
Arguments BodyParsed {Body}.
Arguments BodyRejected {Body}.

(** A request as it arrives, with what the parser makes of its body. *)
Record Incoming (Body : Type) := mkIncoming {
  in_authorization : option string;
  in_mcp_session_id : option string;
  in_body : BodyParse Body
}.
Arguments mkIncoming {Body}.
Arguments in_authorization {Body}.
Arguments in_mcp_session_id {Body}.
Arguments in_body {Body}.

(** The request the routes see. *)
Definition with_body {Body} (i : Incoming Body) (body : Body)
    : Request Body :=
  {| authorization := in_authorization i;
     mcp_session_id := in_mcp_session_id i;
     req_body := body |}.

(** The same request without its session-id header. *)
Definition without_session_id {Body} (i : Incoming Body) : Incoming Body :=
  {| in_authorization := in_authorization i;
     in_mcp_session_id := None;
     in_body := in_body i |}.

(** The default error page of Express for a failure of the parser. *)
Definition parser_error (status : Z) (page : string) : Response :=
  respond status (Opaque page).

(** A /mcp route as a request meets it: the body parser, then the bearer
    middleware and the handler. *)
Definition mcp_route {Body} (SERVER_URL : string) (newURL : string -> URL)
    (auth : option Auth) (now : Z)
    (handler : Request Body -> M (option Response)) (i : Incoming Body)
    : M (option Response) :=
  match in_body i with
  | BodyRejected status page => ret (Some (parser_error status page))
  | BodyParsed body =>
      protected SERVER_URL newURL auth now handler (with_body i body)
  end.

(** ** Predicates of the statements *)

(** Both session maps hold the same session ids. *)
Definition same_keys (st : State) : Prop :=
  forall k, JsMap.has k (transports st) = JsMap.has k (sessionLastAccess st).

(** Every transport is registered under its own [sessionId], as
    [onsessioninitialized] registers it. *)
Definition keyed (st : State) : Prop :=
  forall k t, JsMap.get k (transports st) = Some t -> sessionId t = Some k.

Definition count_sweeps (tr : list Event) : nat :=
  length (filter is_sweep tr).

(** The state with session [k] removed from both maps. *)
Definition delete_both (k : string) (st : State) : State :=
  {| transports := JsMap.delete k (transports st);
     sessionLastAccess := JsMap.delete k (sessionLastAccess st);
     locals_auth := locals_auth st |}.

(** The entry of [k] is among [entries], is still in the map [live] and is
    selected by [p]: a loop that deletes the selected entries deletes it. *)
Definition hit {V} (live : State -> JsMap.t V) (p : V -> bool)
    (entries : list (string * V)) (st : State) (k : string) : Prop :=
  In k (map fst entries) /\
  exists v, JsMap.get k (live st) = Some v /\ p v = true.

(** Session [k] was last accessed before [cutoff]. *)
Definition stale_at (cutoff : Z) (st : State) (k : string) : Prop :=
  exists v, JsMap.get k (sessionLastAccess st) = Some v /\ v < cutoff.


(** Both maps in step: every transport is registered under its own id and
    the maps hold the same ids. *)
Definition in_step (st : State) : Prop := keyed st /\ same_keys st.

(** The state once [sessionLastAccess.set(sid, now)] has run. *)
Definition touch (sid : string) (now : Z) (st : State) : State :=
  {| transports := transports st;
     sessionLastAccess := JsMap.set sid now (sessionLastAccess st);
     locals_auth := locals_auth st |}.

(** The state once [onsessioninitialized] has registered session [sid]. *)
Definition register (sid : string) (now : Z) (st : State) : State :=
  {| transports := JsMap.set sid {| sessionId := Some sid |} (transports st);
     sessionLastAccess := JsMap.set sid now (sessionLastAccess st);
     locals_auth := locals_auth st |}.

(** The state once [sessionLastAccess.delete(sid)] has run. *)
Definition forget_access (sid : string) (st : State) : State :=
  {| transports := transports st;
     sessionLastAccess := JsMap.delete sid (sessionLastAccess st);
     locals_auth := locals_auth st |}.

(** The state the POST handler reaches after enforcing the session cap: the
    sweep has run when the map was full. *)
Definition after_cap_check (now : Z) (st : State) : State :=
  if JsMap.size (transports st) >=? MAX_SESSIONS then
    final (evictStaleSessions now st)
  else st.

(** Constructing or connecting the per-session handler throws. *)
Definition construction_fails (i : InitOutcome) : bool :=
  (construct_throws i || createServer_throws i || connect_throws i)%bool.

(** Nothing was added or changed in the session maps between [st] and
    [st']: every entry of [st'] is an entry of [st]. *)
Definition only_deleted (st st' : State) : Prop :=
  (forall k t, JsMap.get k (transports st') = Some t ->
               JsMap.get k (transports st) = Some t) /\
  (forall k v, JsMap.get k (sessionLastAccess st') = Some v ->
               JsMap.get k (sessionLastAccess st) = Some v).

(** The request has no [Authorization] header, or one that does not start
    with the bearer scheme. *)
Definition lacks_bearer {Body} (req : Request Body) : Prop :=
  match authorization req with
  | Some h => startsWith h "Bearer " = false
  | None => True
  end.

(** A POST that opens a session: an initialize message that carries no
    usable session id, or a well-formed one the map does not know. *)
Definition opens_session {Body} (isInitializeRequest : Body -> bool)
    (req : Request Body) (st : State) : bool :=
  (isInitializeRequest (req_body req) &&
   match mcp_session_id req with
   | Some sid =>
       if truthy (Some sid) then
         isValidSessionId sid && negb (JsMap.has sid (transports st))
       else true
   | None => true
   end)%bool.

(** A DELETE whose transport closes when it handles the request. *)
Definition delete_closes {Body} (e : ServerEvent Body) : Prop :=
  match e with
  | DeleteMcp _ _ env _ => closes (outcome env) = true
  | _ => True
  end.

(** ** Further predicates *)

(** Every session with a last-access time has a transport. *)
Definition tracked (st : State) : Prop :=
  forall k, JsMap.has k (sessionLastAccess st) = true ->
            JsMap.has k (transports st) = true.

(** The characters [[89ab]] matches under the [i] flag. *)
Definition variant_chars : list ascii :=
  map ascii_of_nat [56; 57; 97; 98; 65; 66]%nat.


(** ** The demo user and the sign-in page (auth.ts) *)

(** [String.prototype.includes]. *)
Fixpoint str_includes (s sub : string) : bool :=
  (String.prefix sub s ||
   match s with
   | EmptyString => false
   | String _ rest => str_includes rest sub
   end)%bool.

(** A value that a JavaScript call threw: an [Error] with its [message], or
    any other value with what [String(value)] gives. *)
Inductive Thrown :=
| ErrorObject (message : string)
| OtherValue (text : string).

(** [error instanceof Error ? error.message : String(error)] *)
Definition thrown_message (e : Thrown) : string :=
  match e with
  | ErrorObject m => m
  | OtherValue s => s
  end.

(** A run of [ensureDemoUser]: what it threw, if it did, the flag
    [demoUserCreated] afterwards and how often it called [signUpEmail]. *)
Record DemoRun := mkDemoRun {
  demo_thrown : option Thrown;
  demo_created : bool;
  demo_signUps : nat
}.

(** [ensureDemoUser]; [signUpEmail] is what the call to better-auth would
    throw, if anything. *)
Definition ensureDemoUser (auth : option Auth) (signUpEmail : option Thrown)
    (demoUserCreated : bool) : DemoRun :=
  if demoUserCreated then mkDemoRun None true 0
  else
    match getAuth auth with
    | Throw m =>
        mkDemoRun
          (Some (match m with
                 | Some message => ErrorObject message
                 | None => OtherValue EmptyString
                 end))
          false 0
    | Ok _ =>
        match signUpEmail with
        | None => mkDemoRun None true 1
        | Some error =>
            let msg := thrown_message error in
            if (str_includes msg "already" || str_includes msg "exists" ||
                str_includes msg "unique")%bool
            then mkDemoRun None true 1
            else mkDemoRun (Some error) false 1
        end
    end.

(** [URLSearchParams.prototype.get]: the first value under [name]. *)
Fixpoint params_get (name : string) (params : list (string * string))
    : option string :=
  match params with
  | [] => None
  | (n, v) :: rest => if String.eqb n name then Some v else params_get name rest
  end.

(** What a request for the sign-in page is answered: a JSON error of the
    handler, a redirect with the session cookies, or the message of the
    rate limiter. *)
Inductive SignInResponse :=
| SignInRefused (status : Z) (error : string)
| SignInRedirect (setCookie : list string) (location : string)
| SignInTooMany (status : Z) (error error_description : string).

Record SignInRun := mkSignInRun {
  signin_response : SignInResponse;
  signin_created : bool;
  signin_signUps : nat;
  signin_signIns : nat
}.

(** The handler of [GET /sign-in], after its rate limiter; the module's
    [auth] is the instance [mountAuthRoutes] got from [initAuth]. [query]
    holds the entries of [req.query]; [authorizeUrl] is the platform's
    [new URL('/api/auth/mcp/authorize', serverUrl)] with the parameters as
    its search string; [signInEmail] is what better-auth throws, or the
    [Set-Cookie] values of its response. *)
Definition sign_in (authorizeUrl : list (string * string) -> string)
    (authInstance : Auth) (signUpEmail : option Thrown)
    (signInEmail : Thrown + list string)
    (query : list (string * string)) (demoUserCreated : bool) : SignInRun :=
  let params := query in
  let redirectUri := params_get "redirect_uri" params in
  let client := params_get "client_id" params in
  if (negb (truthy redirectUri) || negb (truthy client))%bool then
    mkSignInRun
      (SignInRefused 400
         "Missing required OAuth parameters (redirect_uri, client_id)")
      demoUserCreated 0 0
  else
    let d := ensureDemoUser (Some authInstance) signUpEmail demoUserCreated in
    match demo_thrown d with
    | Some _ =>
        mkSignInRun (SignInRefused 500 "Authentication failed")
          (demo_created d) (demo_signUps d) 0
    | None =>
        match signInEmail with
        | inl _ =>
            mkSignInRun (SignInRefused 500 "Authentication failed")
              (demo_created d) (demo_signUps d) 1
        | inr cookies =>
            mkSignInRun (SignInRedirect cookies (authorizeUrl params))
              (demo_created d) (demo_signUps d) 1
        end
    end.

(** [app.get('/sign-in', signInLimiter, ...)]: the limiter of 10 requests
    a minute, then the handler. [totalHits] is what the limiter's store
    counts for the client in the current minute, this request included. *)
Definition get_sign_in (totalHits : Z)
    (authorizeUrl : list (string * string) -> string)
    (authInstance : Auth) (signUpEmail : option Thrown)
    (signInEmail : Thrown + list string)
    (query : list (string * string)) (demoUserCreated : bool) : SignInRun :=
  if totalHits >? 10 then
    mkSignInRun
      (SignInTooMany 429 "too_many_requests"
         "Rate limit exceeded. Try again later.")
      demoUserCreated 0 0
  else
    sign_in authorizeUrl authInstance signUpEmail signInEmail query
      demoUserCreated.

(** ** ServiceNow credentials, token cache and requests (server.ts) *)

(** [process.env]. *)
Definition Env : Type := string -> option string.

Record Config := mkConfig {
  cfg_instanceUrl : string;
  cfg_username : string;
  cfg_password : string;
  cfg_clientId : string;
  cfg_clientSecret : string
}.

(** [process.env.NAME ?? ''] *)
Definition env_or_empty (env : Env) (name : string) : string :=
  match env name with
  | Some v => v
  | None => EmptyString
  end.

Definition getConfig (env : Env) : Config :=
  {| cfg_instanceUrl := "https://dev300384.service-now.com";
     cfg_username := env_or_empty env "SERVICENOW_USERNAME";
     cfg_password := env_or_empty env "SERVICENOW_PASSWORD";
     cfg_clientId := env_or_empty env "SERVICENOW_CLIENT_ID";
     cfg_clientSecret := env_or_empty env "SERVICENOW_CLIENT_SECRET" |}.

Definition requireConfig (env : Env) : option string :=
  let config := getConfig env in
  if negb (truthy (Some (cfg_clientId config))) then
    Some "SERVICENOW_CLIENT_ID is not set"
  else if negb (truthy (Some (cfg_clientSecret config))) then
    Some "SERVICENOW_CLIENT_SECRET is not set"
  else if negb (truthy (Some (cfg_username config))) then
    Some "SERVICENOW_USERNAME is not set"
  else if negb (truthy (Some (cfg_password config))) then
    Some "SERVICENOW_PASSWORD is not set"
  else None.

(** The module variables [oauthAccessToken] and [oauthTokenExpiry]. *)
Record TokenCache := mkTokenCache {
  oauthAccessToken : string;
  oauthTokenExpiry : Z
}.

Definition no_token : TokenCache :=
  {| oauthAccessToken := EmptyString; oauthTokenExpiry := 0 |}.

(** [response.ok] *)
Definition response_ok (status : Z) : bool :=
  ((200 <=? status) && (status <=? 299))%bool.

(** A number in a template literal, for an integer. *)
Definition decimal (n : Z) : string := NilZero.string_of_int (Z.to_int n).

(** What the token endpoint did: [fetch] rejected, or a response with its
    status and what [response.json()] threw or gave as [access_token] and
    [expires_in]. *)
Inductive TokenFetch :=
| TokenFetchThrows (e : Thrown)
| TokenResponse (status : Z) (json : Thrown + (string * Z)).

Record TokenRun := mkTokenRun {
  token_result : Thrown + string;
  token_cache : TokenCache;
  token_fetches : nat
}.

Definition fetchOAuthToken (now : Z) (fetched : TokenFetch)
    (cache : TokenCache) : TokenRun :=
  if (truthy (Some (oauthAccessToken cache)) &&
      (now <? oauthTokenExpiry cache))%bool
  then mkTokenRun (inr (oauthAccessToken cache)) cache 0
  else
    match fetched with
    | TokenFetchThrows e => mkTokenRun (inl e) cache 1
    | TokenResponse status json =>
        if negb (response_ok status) then
          mkTokenRun
            (inl (ErrorObject
                    ("OAuth token request failed: HTTP " ++ decimal status)))
            cache 1
        else
          match json with
          | inl e => mkTokenRun (inl e) cache 1
          | inr (access_token, expires_in) =>
              mkTokenRun (inr access_token)
                {| oauthAccessToken := access_token;
                   oauthTokenExpiry := now + (expires_in - 60) * 1000 |}
                1
          end
    end.

(** [body.error?.message] and [body.error?.detail] of an error response. *)
Record ServiceNowError := mkServiceNowError {
  error_message : option string;
  error_detail : option string
}.

(** The JSON body of a response, read either as an error or as
    [{ result }], or what [response.json()] threw. *)
Inductive SnowBody (T : Type) :=
| Unparsable (e : Thrown)
| Json (error : ServiceNowError) (result : option T).
Arguments Unparsable {T}.
Arguments Json {T}.

Inductive SnowFetch (T : Type) :=
| SnowFetchThrows (e : Thrown)
| SnowResponse (status : Z) (body : SnowBody T).
Arguments SnowFetchThrows {T}.
Arguments SnowResponse {T}.

(** What [snowRequest] resolves to. *)
Record SnowResult (T : Type) := mkSnowResult {
  snow_data : option T;
  snow_error : option string;
  snow_status : Z
}.
Arguments mkSnowResult {T}.
Arguments snow_data {T}.
Arguments snow_error {T}.
Arguments snow_status {T}.

(** The separator before the detail: a space, U+2014 in UTF-8, a space. *)
Definition detail_separator : string :=
  String (ascii_of_nat 32)
    (String (ascii_of_nat 226)
       (String (ascii_of_nat 128)
          (String (ascii_of_nat 148)
             (String (ascii_of_nat 32) EmptyString)))).

Definition snow_error_text {T} (status : Z) (body : SnowBody T) : string :=
  let message := "HTTP " ++ decimal status in
  match body with
  | Unparsable _ => message
  | Json err _ =>
      let message :=
        match error_message err with
        | Some m => if truthy (Some m) then message ++ ": " ++ m else message
        | None => message
        end in
      match error_detail err with
      | Some d => if truthy (Some d) then message ++ detail_separator ++ d else message
      | None => message
      end
  end.

Record SnowRun (T : Type) := mkSnowRun {
  snow_outcome : Thrown + SnowResult T;
  snow_cache : TokenCache;
  snow_requests : nat          (* calls of fetch for the request itself *)
}.
Arguments mkSnowRun {T}.
Arguments snow_outcome {T}.
Arguments snow_cache {T}.
Arguments snow_requests {T}.

(** [snowRequest]: the auth header first, then the request. *)
Definition snowRequest {T} (now : Z) (tokenFetch : TokenFetch)
    (fetched : SnowFetch T) (cache : TokenCache) : SnowRun T :=
  let t := fetchOAuthToken now tokenFetch cache in
  match token_result t with
  | inl e => mkSnowRun (inl e) (token_cache t) 0
  | inr _ =>
      match fetched with
      | SnowFetchThrows e => mkSnowRun (inl e) (token_cache t) 1
      | SnowResponse status body =>
          if negb (response_ok status) then
            mkSnowRun
              (inr (mkSnowResult None (Some (snow_error_text status body))
                      status))
              (token_cache t) 1
          else if status =? 204 then
            mkSnowRun (inr (mkSnowResult None None 204)) (token_cache t) 1
          else
            match body with
            | Unparsable e => mkSnowRun (inl e) (token_cache t) 1
            | Json _ result =>
                mkSnowRun (inr (mkSnowResult result None status))
                  (token_cache t) 1
            end
      end
  end.

(** ** The execute_flow tool (server.ts) *)

(** A tool result: the text of its one content item and [isError].
    [JSON.stringify] of [undefined] leaves the text undefined. *)
Record ToolResult := mkToolResult {
  tool_text : option string;
  tool_isError : bool
}.

(** The record a flow request returns: the text of [context_id] when the
    key is present, and its [JSON.stringify(data, null, 2)]. *)
Record FlowData := mkFlowData {
  context_id : option string;
  flow_json : string
}.

(** The record a poll of [sys_flow_context] returns. *)
Record FlowStatus := mkFlowStatus {
  flow_state : option string;
  status_json : string
}.

Definition maxAttempts : nat := 30.
Definition pollInterval : Z := 2000.

(** [state === 'complete' || state === 'error' || state === 'cancelled'] *)
Definition flow_finished (state : option string) : bool :=
  match state with
  | Some s =>
      (String.eqb s "complete" || String.eqb s "error" ||
       String.eqb s "cancelled")%bool
  | None => false
  end.

(** A run of the handler: what it resolved to or threw, the requests it
    made to start the flow and to poll it, and the milliseconds it spent in
    [setTimeout]. *)
Record FlowRun := mkFlowRun {
  flow_result : Thrown + ToolResult;
  flow_posts : nat;
  flow_polls : nat;
  flow_waited : Z
}.

Definition tool_error (message : option string) : ToolResult :=
  {| tool_text := message; tool_isError := true |}.

Definition tool_ok (text : option string) : ToolResult :=
  {| tool_text := text; tool_isError := false |}.

(** [statusData?.state] *)
Definition state_of (statusData : option FlowStatus) : option string :=
  match statusData with
  | Some d => flow_state d
  | None => None
  end.

(** The polling loop from attempt [i], with [remaining] attempts left;
    [poll i] is what the status request of attempt [i] resolves to. *)
Fixpoint poll_flow (contextId : string)
    (poll : nat -> Thrown + SnowResult FlowStatus) (i remaining : nat)
    : FlowRun :=
  match remaining with
  | O =>
      mkFlowRun
        (inr (tool_ok
                (Some ("Flow did not complete within timeout. Context ID: "
                       ++ contextId))))
        1 i (Z.of_nat i * pollInterval)
  | S remaining' =>
      match poll i with
      | inl e => mkFlowRun (inl e) 1 (S i) (Z.of_nat (S i) * pollInterval)
      | inr res =>
          if truthy (snow_error res) then
            mkFlowRun (inr (tool_error (snow_error res))) 1 (S i)
              (Z.of_nat (S i) * pollInterval)
          else if flow_finished (state_of (snow_data res)) then
            mkFlowRun
              (inr (tool_ok (option_map status_json (snow_data res))))
              1 (S i) (Z.of_nat (S i) * pollInterval)
          else poll_flow contextId poll (S i) remaining'
      end
  end.

(** The handler of [execute_flow]; [started] is what the POST to the flow
    API resolves to. *)
Definition execute_flow (env : Env) (wait_for_completion : bool)
    (started : Thrown + SnowResult FlowData)
    (poll : nat -> Thrown + SnowResult FlowStatus) : FlowRun :=
  match requireConfig env with
  | Some configErr => mkFlowRun (inr (tool_error (Some configErr))) 0 0 0
  | None =>
      match started with
      | inl e => mkFlowRun (inl e) 1 0 0
      | inr res =>
          if truthy (snow_error res) then
            mkFlowRun (inr (tool_error (snow_error res))) 1 0 0
          else
            let plain :=
              mkFlowRun
                (inr (tool_ok (option_map flow_json (snow_data res))))
                1 0 0 in
            match wait_for_completion, snow_data res with
            | true, Some data =>
                match context_id data with
                | Some contextId => poll_flow contextId poll 0 maxAttempts
                | None => plain
                end
            | _, _ => plain
            end
      end
  end.

(** A poll that neither failed nor found the flow finished. *)
Definition pending (r : Thrown + SnowResult FlowStatus) : bool :=
  match r with
  | inl _ => false
  | inr res =>
      (negb (truthy (snow_error res)) &&
       negb (flow_finished (state_of (snow_data res))))%bool
  end.

(** The flow was started with a context to poll. *)
Definition polls_context (env : Env) (wait_for_completion : bool)
    (started : Thrown + SnowResult FlowData) (contextId : string) : Prop :=
  requireConfig env = None /\ wait_for_completion = true /\
  exists res data,
    started = inr res /\ truthy (snow_error res) = false /\
    snow_data res = Some data /\ context_id data = Some contextId.

(** ** Tracing of tool handlers (observability.ts, [instrumentServer]) *)

Inductive ScopeEvent :=
| ScopeStart (toolName : string) (args : option string)
| RecordResponse (text : string)
| RecordError (e : Thrown)
| ScopeDispose.

(** What a tool handler resolved to: [undefined], or an object whose
    [content] is absent or a list of items, each with its [text] if it has
    one. *)
Record HandlerResult := mkHandlerResult {
  content : option (list (option string))
}.

(** The [TypeError] of calling [slice] on [undefined]. *)
Definition slice_of_undefined : Thrown :=
  ErrorObject "Cannot read properties of undefined (reading 'slice')".

Record TracedRun := mkTracedRun {
  traced_result : Thrown + option HandlerResult;
  traced_events : list ScopeEvent
}.

(** [result?.content?.[0]?.text] *)
Definition first_text (result : option HandlerResult) : option string :=
  match result with
  | Some r =>
      match content r with
      | Some (item :: _) => item
      | _ => None
      end
  | None => None
  end.

(** [result?.content] *)
Definition content_of (result : option HandlerResult)
    : option (list (option string)) :=
  match result with
  | Some r => content r
  | None => None
  end.

(** The handler [instrumentServer] registers in place of a tool's handler;
    [stringify] is [JSON.stringify] on a content list, [args] is
    [JSON.stringify(args[0])] and [handler] is what the tool's own handler
    resolved to or threw. *)
Definition wrappedHandler (stringify : list (option string) -> string)
    (name : string) (args : option string)
    (handler : Thrown + option HandlerResult) : TracedRun :=
  match handler with
  | inr result =>
      match first_text result with
      | Some text =>
          mkTracedRun (inr result)
            [ScopeStart name args; RecordResponse text; ScopeDispose]
      | None =>
          match content_of result with
          | Some items =>
              mkTracedRun (inr result)
                [ScopeStart name args;
                 RecordResponse (String.substring 0 2048 (stringify items));
                 ScopeDispose]
          | None =>
              mkTracedRun (inl slice_of_undefined)
                [ScopeStart name args; RecordError slice_of_undefined;
                 ScopeDispose]
          end
      end
  | inl err =>
      match err with
      | ErrorObject _ =>
          mkTracedRun (inl err)
            [ScopeStart name args; RecordError err; ScopeDispose]
      | OtherValue _ => mkTracedRun (inl err) [ScopeStart name args; ScopeDispose]
      end
  end.

Definition is_dispose (e : ScopeEvent) : bool :=
  match e with
  | ScopeDispose => true
  | _ => false
  end.

(** ** Sample inputs *)

(** Bodies reduced to what [isInitializeRequest] says of them. *)
Definition is_initialize (b : bool) : bool := b.

Definition sample_url : string := "https://mcp.example.com".

Definition sample_newURL (s : string) : URL := {| href := s |}.

Definition session_a : McpSession :=
  {| ms_clientId := "client-a"; ms_scopes := Some "openid profile";
     ms_accessTokenExpiresAt := Some 1700000000000 |}.

Definition session_b : McpSession :=
  {| ms_clientId := "client-b"; ms_scopes := Some "openid";
     ms_accessTokenExpiresAt := Some 1700000600000 |}.

(** An auth instance that knows two access tokens. *)
Definition sample_auth : Auth :=
  {| getMcpSession := fun tok =>
       if String.eqb tok "token-a" then Ok (Some session_a)
       else if String.eqb tok "token-b" then Ok (Some session_b)
       else Ok None;
     getMCPProtectedResource := "protected-resource-metadata";
     getOAuthServerConfig := "authorization-server-metadata" |}.

Definition info_a : AuthInfo :=
  {| token := "token-a"; clientId := "client-a";
     scopes := ["openid"; "profile"]; expiresAt := 1700000000 |}.

Definition info_b : AuthInfo :=
  {| token := "token-b"; clientId := "client-b";
     scopes := ["openid"]; expiresAt := 1700000600 |}.

Definition id_a : string := "123e4567-e89b-42d3-a456-426614174000".
Definition id_b : string := "9b2f0c1a-7d3e-4f5a-8c6b-0123456789ab".

(** The transport answers and stays open. *)
Definition answered (status : Z) (payload : string) : HandleOutcome :=
  {| closes := false; written := Some (respond status (Opaque payload));
     throws := false |}.

(** The SDK builds the session and [randomUUID] returns [sid]. *)
Definition opens (sid : string) (now : Z) : InitOutcome :=
  {| construct_throws := false; createServer_throws := false;
     connect_throws := false; generated := Some sid; now_init := now;
     handled := answered 200 "initialize result" |}.

Definition post_env (sid : string) (now : Z) : PostEnv :=
  {| now_access := now; now_sweep := now;
     delegated := answered 200 "result"; fresh := opens sid now |}.

(** [server.connect] rejects. *)
Definition failing_env : PostEnv :=
  {| now_access := 0; now_sweep := 0; delegated := answered 200 "result";
     fresh := {| construct_throws := false; createServer_throws := false;
                 connect_throws := true; generated := None; now_init := 0;
                 handled := answered 200 "unused" |} |}.

Definition initialize_request (tok : string) : Request bool :=
  {| authorization := Some ("Bearer " ++ tok); mcp_session_id := None;
     req_body := true |}.

Definition session_request (tok sid : string) (init : bool) : Request bool :=
  {| authorization := Some ("Bearer " ++ tok); mcp_session_id := Some sid;
     req_body := init |}.

(** The transport answers the DELETE with an error and stays open, as the
    SDK does for a protocol version it does not support. *)
Definition delete_refused : DelegateEnv :=
  {| now_touch := 0; outcome := answered 400 "Unsupported protocol version" |}.





(** A request with a bearer token whose body the parser let through. *)
Definition parsed_request (tok : string) (sid : option string) (init : bool)
    : Incoming bool :=
  {| in_authorization := Some ("Bearer " ++ tok); in_mcp_session_id := sid;
     in_body := BodyParsed init |}.

(** A request without an [Authorization] header. *)
Definition anonymous_request (body : BodyParse bool) : Incoming bool :=
  {| in_authorization := None; in_mcp_session_id := None; in_body := body |}.

(** Two sessions, opened 1000 seconds apart. *)
Definition two_sessions : list (ServerEvent bool) :=
  [ PostMcp (Some sample_auth) 0 (post_env id_a 0)
      (initialize_request "token-a");
    PostMcp (Some sample_auth) 1000000 (post_env id_b 1000000)
      (initialize_request "token-b") ].

(** The transport answers the DELETE and closes. *)
Definition delete_accepted : DelegateEnv :=
  {| now_touch := 0;
     outcome := {| closes := true;
                   written := Some (respond 200 (Opaque "session closed"));
                   throws := false |} |}.

(** The transport opens the stream at time [now]. *)
Definition stream_opened (now : Z) : DelegateEnv :=
  {| now_touch := now; outcome := answered 200 "event stream" |}.

(** An environment with the four credentials set. *)
Definition sample_env : Env :=
  fun name =>
    if String.eqb name "SERVICENOW_CLIENT_ID" then Some "client"
    else if String.eqb name "SERVICENOW_CLIENT_SECRET" then Some "secret"
    else if String.eqb name "SERVICENOW_USERNAME" then Some "admin"
    else if String.eqb name "SERVICENOW_PASSWORD" then Some "password"
    else None.

Definition newline : string := String (ascii_of_nat 10) EmptyString.

(** A record with one string field, as [JSON.stringify(_, null, 2)] prints
    it. *)
Definition json_record (key value : string) : string :=
  "{" ++ newline ++ "  " ++ dq ++ key ++ dq ++ ": " ++ dq ++ value ++ dq
  ++ newline ++ "}".

(** The flow API accepted the flow and returned its context id. *)
Definition flow_started (contextId : string) : Thrown + SnowResult FlowData :=
  inr {| snow_data :=
           Some {| context_id := Some contextId;
                   flow_json := json_record "context_id" contextId |};
         snow_error := None; snow_status := 200 |}.

(** A status record with the given state. *)
Definition flow_in_state (state : string) : Thrown + SnowResult FlowStatus :=
  inr {| snow_data :=
           Some {| flow_state := Some state;
                   status_json := json_record "state" state |};
         snow_error := None; snow_status := 200 |}.

(** The flow is found complete at poll [k] and in progress before. *)
Definition completes_at (k : nat) (j : nat) : Thrown + SnowResult FlowStatus :=
  if Nat.eqb j k then flow_in_state "complete" else flow_in_state "in_progress".

(** * Facts *)

(** ** The [Map] operations *)

Module JsMapFacts.
Section Facts.
Context {V : Type}.
Implicit Types (m : JsMap.t V) (k : string) (v : V).

Lemma get_set_eq k v m : JsMap.get k (JsMap.set k v m) = Some v.
Proof.
induction m as [|[k' v'] m IH]; simpl.
- now rewrite String.eqb_refl.
- destruct (String.eqb k' k) eqn:E; simpl.
+ now rewrite String.eqb_refl.
+ now rewrite E.
Qed.

Lemma get_set_neq k k' v m :
k <> k' -> JsMap.get k (JsMap.set k' v m) = JsMap.get k m.
Proof.
intros Hne. induction m as [|[k0 v0] m IH]; simpl.
- destruct (String.eqb k' k) eqn:E; [|reflexivity].
apply String.eqb_eq in E. congruence.
- destruct (String.eqb k0 k') eqn:E; simpl.
+ apply String.eqb_eq in E. subst k0.
  destruct (String.eqb k' k) eqn:E'; [|reflexivity].
  apply String.eqb_eq in E'. congruence.
+ now rewrite IH.
Qed.

Lemma get_delete_eq k m : JsMap.get k (JsMap.delete k m) = None.
Proof.
induction m as [|[k' v'] m IH]; simpl; [reflexivity|].
destruct (String.eqb k' k) eqn:E; simpl; [assumption|].
now rewrite E.
Qed.

Lemma get_delete_neq k k' m :
k <> k' -> JsMap.get k (JsMap.delete k' m) = JsMap.get k m.
Proof.
intros Hne. induction m as [|[k0 v0] m IH]; simpl; [reflexivity|].
destruct (String.eqb k0 k') eqn:E; simpl.
- apply String.eqb_eq in E. subst k0.
destruct (String.eqb k' k) eqn:E'; [|assumption].
apply String.eqb_eq in E'. congruence.
- now rewrite IH.
Qed.

Lemma get_delete_some k k' v m :
JsMap.get k (JsMap.delete k' m) = Some v -> JsMap.get k m = Some v.
Proof.
destruct (string_dec k k') as [->|Hne].
- now rewrite get_delete_eq.
- now rewrite get_delete_neq.
Qed.

Lemma delete_absent k m : JsMap.get k m = None -> JsMap.delete k m = m.
Proof.
induction m as [|[k' v'] m IH]; simpl; [reflexivity|].
destruct (String.eqb k' k); [discriminate|].
intros H. now rewrite IH.
Qed.

Lemma delete_idem k m :
JsMap.delete k (JsMap.delete k m) = JsMap.delete k m.
Proof. apply delete_absent, get_delete_eq. Qed.

Lemma size_set_le k v m : JsMap.size (JsMap.set k v m) <= JsMap.size m + 1.
Proof.
unfold JsMap.size. induction m as [|[k' v'] m IH]; simpl length.
- lia.
- destruct (String.eqb k' k); simpl length; lia.
Qed.

Lemma size_delete_le k m : JsMap.size (JsMap.delete k m) <= JsMap.size m.
Proof.
unfold JsMap.size. induction m as [|[k' v'] m IH]; simpl length.
- lia.
- destruct (String.eqb k' k); simpl length; lia.
Qed.

Lemma get_in_keys k m :
JsMap.get k m <> None -> In k (JsMap.keys m).
Proof.
induction m as [|[k' v'] m IH]; simpl; [congruence|].
destruct (String.eqb k' k) eqn:E.
- apply String.eqb_eq in E. now left.
- intros H. right. now apply IH.
Qed.

Lemma all_absent_empty m : (forall k, JsMap.get k m = None) -> m = [].
Proof.
destruct m as [|[k v] m]; [reflexivity|].
intros H. specialize (H k). simpl in H.
rewrite String.eqb_refl in H. discriminate.
Qed.

Lemma has_get k m : JsMap.has k m = true <-> JsMap.get k m <> None.
Proof.
unfold JsMap.has. destruct (JsMap.get k m); split; congruence.
Qed.
End Facts.
End JsMapFacts.

(** ** Closing and evicting *)

Lemma onclose_final t st :
  final (onclose t st) =
  match sessionId t with
  | Some sid => if truthy (Some sid) then delete_both sid st else st
  | None => st
  end.
Proof.
  unfold onclose. destruct (sessionId t) as [sid|]; [|reflexivity].
  destruct (truthy (Some sid)); reflexivity.
Qed.

Lemma close_final t st : final (close t st) = final (onclose t st).
Proof. reflexivity. Qed.

Lemma delete_both_idem k st :
  delete_both k (delete_both k st) = delete_both k st.
Proof.
  unfold delete_both; simpl. now rewrite !JsMapFacts.delete_idem.
Qed.

Lemma keyed_delete_both k st : keyed st -> keyed (delete_both k st).
Proof.
  intros Hk k' t. unfold delete_both; simpl.
  destruct (string_dec k' k) as [->|Hne].
  - now rewrite JsMapFacts.get_delete_eq.
  - rewrite JsMapFacts.get_delete_neq by assumption. apply Hk.
Qed.

Lemma same_keys_delete_both k st : same_keys st -> same_keys (delete_both k st).
Proof.
  intros Hs k'. unfold delete_both, JsMap.has; simpl.
  destruct (string_dec k' k) as [->|Hne].
  - now rewrite !JsMapFacts.get_delete_eq.
  - rewrite !JsMapFacts.get_delete_neq by assumption. apply Hs.
Qed.

(** Closing a transport that is registered under [k] removes [k] from both
    maps, whether or not the explicit deletions follow. *)
Lemma close_registered k t st :
  keyed st -> JsMap.get k (transports st) = Some t ->
  delete_both k (final (close t st)) = delete_both k st.
Proof.
  intros Hk Hg. rewrite close_final, onclose_final.
  rewrite (Hk _ _ Hg). destruct (truthy (Some k)); [|reflexivity].
  apply delete_both_idem.
Qed.

Lemma evict_entry_keyed cutoff k v st :
  keyed st ->
  final (evict_entry cutoff k v st) =
  if v <? cutoff then delete_both k st else st.
Proof.
  intros Hk. unfold evict_entry. destruct (v <? cutoff); [|reflexivity].
  cbn. destruct (JsMap.get k (transports st)) as [t|] eqn:Hg; cbn.
  - change (delete_both k (final (close t st)) = delete_both k st).
    now apply close_registered.
  - unfold delete_both. now rewrite (JsMapFacts.delete_absent _ _ Hg).
Qed.

Lemma shutdown_entry_keyed k t st :
  keyed st -> JsMap.get k (transports st) = Some t ->
  final (shutdown_entry k t st) = delete_both k st.
Proof.
  intros Hk Hg.
  change (delete_both k (final (close t st)) = delete_both k st).
  now apply close_registered.
Qed.

(** ** Loops that delete while they iterate *)

Section DeletingLoop.
Context {V : Type}.
Variable live : State -> JsMap.t V.
Variable body : string -> V -> M unit.
Variable p : V -> bool.

Hypothesis live_delete_eq :
  forall k st, JsMap.get k (live (delete_both k st)) = None.
Hypothesis live_delete_neq :
  forall k k0 st, k <> k0 ->
    JsMap.get k (live (delete_both k0 st)) = JsMap.get k (live st).
Hypothesis body_deletes :
  forall k v st, keyed st -> JsMap.get k (live st) = Some v ->
    final (body k v st) = if p v then delete_both k st else st.

Lemma for_of_step k0 v0 rest st :
  final (for_of live ((k0, v0) :: rest) body st) =
  final (for_of live rest body
           (match JsMap.get k0 (live st) with
            | Some v => final (body k0 v st)
            | None => st
            end)).
Proof. simpl. destruct (JsMap.get k0 (live st)); reflexivity. Qed.

Lemma for_of_deletes entries :
  forall st, keyed st ->
    let st' := final (for_of live entries body st) in
    keyed st' /\ locals_auth st' = locals_auth st /\
    forall k,
      (hit live p entries st k ->
         JsMap.get k (transports st') = None /\
         JsMap.get k (sessionLastAccess st') = None /\
         JsMap.get k (live st') = None) /\
      (~ hit live p entries st k ->
         JsMap.get k (transports st') = JsMap.get k (transports st) /\
         JsMap.get k (sessionLastAccess st') =
           JsMap.get k (sessionLastAccess st) /\
         JsMap.get k (live st') = JsMap.get k (live st)).
Proof.
  induction entries as [|[k0 v0] rest IH]; intros st Hk.
  - simpl. split; [exact Hk|]. split; [reflexivity|].
    intros k. split; [|auto]. unfold hit. simpl. tauto.
  - unfold hit in *. cbv zeta. rewrite for_of_step.
    destruct (JsMap.get k0 (live st)) as [v|] eqn:Hlive.
    + rewrite (body_deletes _ _ _ Hk Hlive).
      destruct (p v) eqn:Hp.
      * (* the entry is deleted *)
        destruct (IH (delete_both k0 st) (keyed_delete_both _ _ Hk))
          as (Hk' & Hl & Hget).
        split; [exact Hk'|]. split; [exact Hl|].
        intros k. destruct (string_dec k k0) as [->|Hne].
        -- destruct (Hget k0) as [_ Hmiss].
           assert (Hno : ~ hit live p rest (delete_both k0 st) k0).
           { intros (_ & v' & Hv' & _).
             rewrite live_delete_eq in Hv'. discriminate. }
           destruct (Hmiss Hno) as (Ht & Hs & Hv).
           split.
           ++ intros _. rewrite Ht, Hs, Hv, live_delete_eq.
              unfold delete_both; simpl.
              rewrite !JsMapFacts.get_delete_eq. auto.
           ++ intros Hnot. exfalso. apply Hnot. split; [now left|].
              exists v. auto.
        -- destruct (Hget k) as [Hhit Hmiss]. split.
           ++ intros ([Heq|Hin] & v' & Hv' & Hp'); [simpl in Heq; congruence|].
              apply Hhit. split; [exact Hin|]. exists v'.
              rewrite live_delete_neq by assumption. auto.
           ++ intros Hnot.
              assert (Hno : ~ hit live p rest (delete_both k0 st) k).
              { intros (Hin & v' & Hv' & Hp').
                apply Hnot. split; [now right|]. exists v'.
                rewrite live_delete_neq in Hv' by assumption. auto. }
              destruct (Hmiss Hno) as (Ht & Hs & Hv).
              rewrite Ht, Hs, Hv, live_delete_neq by assumption.
              unfold delete_both; simpl.
              rewrite !JsMapFacts.get_delete_neq by assumption. auto.
      * (* the entry stays *)
        destruct (IH st Hk) as (Hk' & Hl & Hget).
        split; [exact Hk'|]. split; [exact Hl|].
        intros k. destruct (Hget k) as [Hhit Hmiss]. split.
        -- intros ([Heq|Hin] & v' & Hv' & Hp').
           ++ simpl in Heq. subst k0. congruence.
           ++ apply Hhit. split; [exact Hin|]. exists v'. auto.
        -- intros Hnot. apply Hmiss. intros (Hin & Hv).
           apply Hnot. split; [now right|exact Hv].
    + (* the entry is gone already *)
      destruct (IH st Hk) as (Hk' & Hl & Hget).
      split; [exact Hk'|]. split; [exact Hl|].
      intros k. destruct (Hget k) as [Hhit Hmiss]. split.
      * intros ([Heq|Hin] & v' & Hv' & Hp').
        -- simpl in Heq. subst k0. congruence.
        -- apply Hhit. split; [exact Hin|]. exists v'. auto.
      * intros Hnot. apply Hmiss. intros (Hin & Hv).
        apply Hnot. split; [now right|exact Hv].
Qed.
End DeletingLoop.

(** ** The eviction sweep and the shutdown loop *)

Lemma evictStaleSessions_final now st :
  final (evictStaleSessions now st) =
  final (for_of sessionLastAccess (sessionLastAccess st)
           (evict_entry (now - SESSION_TTL_MS)) st).
Proof. reflexivity. Qed.

Lemma evictStaleSessions_trace now st :
  trace (evictStaleSessions now st) =
  Sweep :: Access SessionLastAccess OpEntries ::
  trace (for_of sessionLastAccess (sessionLastAccess st)
           (evict_entry (now - SESSION_TTL_MS)) st).
Proof. reflexivity. Qed.

Lemma evictStaleSessions_get now st :
  keyed st ->
  let st' := final (evictStaleSessions now st) in
  keyed st' /\ locals_auth st' = locals_auth st /\
  forall k,
    (stale_at (now - SESSION_TTL_MS) st k ->
       JsMap.get k (transports st') = None /\
       JsMap.get k (sessionLastAccess st') = None) /\
    (~ stale_at (now - SESSION_TTL_MS) st k ->
       JsMap.get k (transports st') = JsMap.get k (transports st) /\
       JsMap.get k (sessionLastAccess st') =
         JsMap.get k (sessionLastAccess st)).
Proof.
  intros Hk. cbv zeta. rewrite evictStaleSessions_final.
  set (cutoff := now - SESSION_TTL_MS).
  destruct (for_of_deletes sessionLastAccess (evict_entry cutoff)
              (fun v => v <? cutoff)
              (fun k st => JsMapFacts.get_delete_eq k (sessionLastAccess st))
              (fun k k0 st H =>
                 JsMapFacts.get_delete_neq k k0 (sessionLastAccess st) H)
              (fun k v st H _ => evict_entry_keyed cutoff k v st H)
              (sessionLastAccess st) st Hk) as (Hk' & Hl & Hget).
  split; [exact Hk'|]. split; [exact Hl|].
  intros k. destruct (Hget k) as [Hhit Hmiss]. split.
  - intros (v & Hv & Hlt). destruct Hhit as (Ht & Hs & _); [|auto].
    split.
    + apply JsMapFacts.get_in_keys. congruence.
    + exists v. split; [exact Hv|]. now apply Z.ltb_lt.
  - intros Hnot. destruct Hmiss as (Ht & Hs & _); [|auto].
    intros (_ & v & Hv & Hlt). apply Hnot. exists v.
    split; [exact Hv|]. now apply Z.ltb_lt.
Qed.

Lemma gracefulShutdown_final st :
  final (gracefulShutdown st) =
  final (for_of transports (transports st) shutdown_entry st).
Proof. reflexivity. Qed.

Lemma gracefulShutdown_empties st :
  keyed st -> same_keys st ->
  transports (final (gracefulShutdown st)) = [] /\
  sessionLastAccess (final (gracefulShutdown st)) = [].
Proof.
  intros Hk Hs. rewrite gracefulShutdown_final.
  destruct (for_of_deletes transports shutdown_entry (fun _ => true)
              (fun k st => JsMapFacts.get_delete_eq k (transports st))
              (fun k k0 st H =>
                 JsMapFacts.get_delete_neq k k0 (transports st) H)
              (fun k v st H Hg => shutdown_entry_keyed k v st H Hg)
              (transports st) st Hk) as (_ & _ & Hget).
  assert (Hall : forall k,
    JsMap.get k (transports
      (final (for_of transports (transports st) shutdown_entry st))) = None /\
    JsMap.get k (sessionLastAccess
      (final (for_of transports (transports st) shutdown_entry st))) = None).
  { intros k. destruct (Hget k) as [Hhit Hmiss].
    destruct (JsMap.get k (transports st)) as [t|] eqn:Hg.
    - destruct Hhit as (Ht & Hl & _); [|auto].
      split.
      + apply JsMapFacts.get_in_keys. congruence.
      + exists t. auto.
    - destruct Hmiss as (Ht & Hl & _).
      + intros (_ & v & Hv & _). congruence.
      + split; [exact Ht|]. rewrite Hl.
        specialize (Hs k). unfold JsMap.has in Hs. rewrite Hg in Hs.
        destruct (JsMap.get k (sessionLastAccess st)); [discriminate|auto]. }
  split; apply JsMapFacts.all_absent_empty; intros k; apply Hall.
Qed.

(** ** What the sweep records *)






Lemma evict_entry_closes cutoff k v t st :
  v < cutoff -> JsMap.get k (transports st) = Some t ->
  In (Close t) (trace (evict_entry cutoff k v st)).
Proof.
  intros Hlt Hg. unfold evict_entry.
  apply Z.ltb_lt in Hlt. rewrite Hlt. cbn. rewrite Hg. cbn.
  right. now left.
Qed.

Lemma evict_loop_closes cutoff entries :
  forall st k v t,
    keyed st -> In k (map fst entries) ->
    JsMap.get k (sessionLastAccess st) = Some v -> v < cutoff ->
    JsMap.get k (transports st) = Some t ->
    In (Close t)
       (trace (for_of sessionLastAccess entries (evict_entry cutoff) st)).
Proof.
  induction entries as [|[k0 v0] rest IH]; intros st k v t Hk Hin Hv Hlt Ht.
  - destruct Hin.
  - simpl. destruct (string_dec k0 k) as [->|Hne].
    + rewrite Hv. cbn. apply in_or_app. left.
      now apply evict_entry_closes.
    + destruct Hin as [Heq|Hin]; [simpl in Heq; congruence|].
      destruct (JsMap.get k0 (sessionLastAccess st)) as [v1|] eqn:Hv1.
      * cbn. apply in_or_app. right.
        rewrite (evict_entry_keyed _ _ _ _ Hk).
        destruct (v1 <? cutoff).
        -- apply (IH _ k v t); auto using keyed_delete_both;
             unfold delete_both; simpl;
             rewrite JsMapFacts.get_delete_neq; auto.
        -- apply (IH _ k v t); auto.
      * apply (IH _ k v t); auto.
Qed.

(** ** Sizes never grow by closing or sweeping *)

Lemma onclose_size t st :
  JsMap.size (transports (final (onclose t st))) <= JsMap.size (transports st).
Proof.
  rewrite onclose_final. destruct (sessionId t) as [sid|]; [|lia].
  destruct (truthy (Some sid)); [|lia].
  apply JsMapFacts.size_delete_le.
Qed.

Lemma evict_entry_size cutoff k v st :
  JsMap.size (transports (final (evict_entry cutoff k v st)))
  <= JsMap.size (transports st).
Proof.
  unfold evict_entry. destruct (v <? cutoff); [|simpl; lia].
  cbn. destruct (JsMap.get k (transports st)) as [t|]; cbn; [|lia].
  etransitivity; [apply JsMapFacts.size_delete_le|].
  apply (onclose_size t st).
Qed.


Lemma for_of_size {V} (live : State -> JsMap.t V) body :
  (forall k v st,
     JsMap.size (transports (final (body k v st)))
     <= JsMap.size (transports st)) ->
  forall entries st,
    JsMap.size (transports (final (for_of live entries body st)))
    <= JsMap.size (transports st).
Proof.
  intros Hbody. induction entries as [|[k0 v0] rest IH]; intros st.
  - simpl. lia.
  - simpl. destruct (JsMap.get k0 (live st)) as [v|]; [|apply IH].
    cbn. etransitivity; [apply IH|apply Hbody].
Qed.

Lemma evictStaleSessions_size now st :
  JsMap.size (transports (final (evictStaleSessions now st)))
  <= JsMap.size (transports st).
Proof.
  rewrite evictStaleSessions_final.
  apply for_of_size. intros. apply evict_entry_size.
Qed.


(** ** The bearer middleware *)

Section Middleware.
Context {Body : Type}.
Implicit Types (req : Request Body) (st : State).

Lemma requireBearerAuth_frame options auth now req st :
  let r := requireBearerAuth options auth now req st in
  transports (final r) = transports st /\
  sessionLastAccess (final r) = sessionLastAccess st /\
  trace r = [].
Proof.
  unfold requireBearerAuth.
  destruct (authorization req) as [h|]; [|cbn; auto].
  destruct (startsWith h "Bearer "); [|cbn; auto].
  destruct (verifyAccessToken auth now (slice 7 h)) as [info|m]; [|cbn; auto].
  match goal with |- context [if ?c then _ else _] => destruct c end;
    cbn; auto.
Qed.

Lemma requireBearerAuth_rejects_without_bearer options auth now req st :
  lacks_bearer req ->
  requireBearerAuth options auth now req st =
  mkRun
    (Responded
       {| res_status := 401;
          res_www_authenticate :=
            Some (buildWwwAuth options "invalid_token"
                    "Missing Authorization header");
          res_body := OAuthError "invalid_token"
                        "Missing Authorization header" |})
    st [].
Proof.
  unfold lacks_bearer, requireBearerAuth.
  destruct (authorization req) as [h|]; [|reflexivity].
  intros ->. reflexivity.
Qed.

(** When the middleware calls [next()] it has verified the token and its
only effect is the write to [app.locals.auth]. *)
Lemma requireBearerAuth_next_writes_app_locals options auth now req st :
value (requireBearerAuth options auth now req st) = Next ->
exists h info,
  authorization req = Some h /\
  verifyAccessToken auth now (slice 7 h) = Ok info /\
  final (requireBearerAuth options auth now req st) =
  {| transports := transports st;
     sessionLastAccess := sessionLastAccess st;
     locals_auth := Some info |}.
Proof.
unfold requireBearerAuth.
destruct (authorization req) as [h|]; [|discriminate].
destruct (startsWith h "Bearer "); [|discriminate].
destruct (verifyAccessToken auth now (slice 7 h)) as [info|m] eqn:Hv;
  [|discriminate].
destruct ((0 <? Z.of_nat (length (requiredScopes options))) &&
          negb (forallb (includes (scopes info)) (requiredScopes options)))%bool;
  [discriminate|].
intros _. exists h, info. repeat split. exact Hv.
Qed.

Lemma buildWwwAuth_resource_metadata options u code message :
  resourceMetadataUrl options = Some u ->
  exists pre,
    buildWwwAuth options code message =
    pre ++ ", resource_metadata=" ++ dq ++ href u ++ dq.
Proof.
  intros Hu. unfold buildWwwAuth. rewrite Hu. eexists. reflexivity.
Qed.
End Middleware.

(** ** The POST handler, branch by branch *)

Lemma valid_is_truthy sid :
  isValidSessionId sid = true -> truthy (Some sid) = true.
Proof. destruct sid; [discriminate|reflexivity]. Qed.

Lemma handleRequest_final t o st :
  final (handleRequest t o st) =
  if closes o then final (onclose t st) else st.
Proof. unfold handleRequest. destruct (closes o); reflexivity. Qed.

Lemma handleRequest_value t o st :
  value (handleRequest t o st) = finish o.
Proof. unfold handleRequest. destruct (closes o); reflexivity. Qed.

Lemma create_session_busy env st :
  let st1 := after_cap_check (now_sweep env) st in
  MAX_SESSIONS <= JsMap.size (transports st1) ->
  value (create_session env st) = (Returned, Some server_busy_error) /\
  final (create_session env st) = st1.
Proof.
  unfold after_cap_check, create_session. cbn -[evictStaleSessions Z.geb].
  destruct (JsMap.size (transports st) >=? MAX_SESSIONS) eqn:Hfull;
    cbn -[evictStaleSessions Z.geb].
  - intros Hle. apply Z.geb_le in Hle. rewrite Hle. cbn. auto.
  - intros Hle. apply Z.geb_le in Hle. congruence.
Qed.

Lemma create_session_not_busy env st :
  let st1 := after_cap_check (now_sweep env) st in
  JsMap.size (transports st1) < MAX_SESSIONS ->
  value (create_session env st) =
    (if construction_fails (fresh env) then (Threw, None)
     else value (handleRequest_new (fresh env) st1)) /\
  final (create_session env st) =
    (if construction_fails (fresh env) then st1
     else final (handleRequest_new (fresh env) st1)).
Proof.
  unfold after_cap_check, create_session, construction_fails.
  cbn -[evictStaleSessions Z.geb].
  destruct (JsMap.size (transports st) >=? MAX_SESSIONS) eqn:Hfull;
    cbn -[evictStaleSessions Z.geb]; intros Hlt.
  - assert (Hn : (JsMap.size
              (transports (final (evictStaleSessions (now_sweep env) st)))
              >=? MAX_SESSIONS) = false).
    { destruct (JsMap.size
                  (transports (final (evictStaleSessions (now_sweep env) st)))
                >=? MAX_SESSIONS) eqn:E; [|reflexivity].
      apply Z.geb_le in E. lia. }
    rewrite Hn. cbn.
    destruct (construct_throws (fresh env)); [auto|].
    destruct (createServer_throws (fresh env)); [auto|].
    destruct (connect_throws (fresh env)); cbn; auto.
  - destruct (construct_throws (fresh env)); [auto|].
    destruct (createServer_throws (fresh env)); [auto|].
    destruct (connect_throws (fresh env)); cbn; auto.
Qed.

Lemma count_sweeps_cons e l :
  count_sweeps (e :: l) =
  ((if is_sweep e then 1 else 0) + count_sweeps l)%nat.
Proof. unfold count_sweeps. simpl. now destruct (is_sweep e). Qed.




Lemma handleRequest_new_final i st :
  final (handleRequest_new i st) =
  match generated i with
  | Some sid =>
      if closes (handled i)
      then final (onclose {| sessionId := Some sid |}
                    (register sid (now_init i) st))
      else register sid (now_init i) st
  | None => st
  end.
Proof.
  unfold handleRequest_new.
  destruct (generated i) as [sid|]; destruct (closes (handled i)); reflexivity.
Qed.

(** ** The three /mcp handlers *)

Section Handlers.
Context {Body : Type}.
Variable isInitializeRequest : Body -> bool.
Implicit Types (req : Request Body) (st : State).

Lemma post_mcp_invalid env req st sid :
  mcp_session_id req = Some sid -> sid <> EmptyString ->
  isValidSessionId sid = false ->
  post_mcp isInitializeRequest env req st =
  mkRun (Some invalid_format_error) st [].
Proof.
  intros Hh Hne Hv. unfold post_mcp. rewrite Hh, Hv.
  destruct sid; [congruence|reflexivity].
Qed.

Lemma post_mcp_no_session env req st :
  mcp_session_id req = None ->
  isInitializeRequest (req_body req) = false ->
  post_mcp isInitializeRequest env req st =
  mkRun (Some no_session_error) st [].
Proof.
  intros Hh Hb. unfold post_mcp, post_try, new_session.
  rewrite Hh, Hb. reflexivity.
Qed.

(** The response the [catch] block leaves for a completion of the [try]
    block. *)
Lemma post_mcp_opens env req st :
  opens_session isInitializeRequest req st = true ->
  let c := create_session env st in
  final (post_mcp isInitializeRequest env req st) = final c /\
  value (post_mcp isInitializeRequest env req st) =
    match value c with
    | (Returned, res) => res
    | (Threw, Some res) => Some res
    | (Threw, None) => Some internal_error
    end /\
  count_sweeps (trace (post_mcp isInitializeRequest env req st)) =
    count_sweeps (trace c).
Proof.
  unfold opens_session. intros Ho.
  apply andb_true_iff in Ho. destruct Ho as [Hinit Hsid].
  unfold post_mcp, post_try, new_session.
  destruct (mcp_session_id req) as [[|ch sid]|]; rewrite ?Hinit;
    cbn -[create_session count_sweeps isValidSessionId] in *.
  - destruct (value (create_session env st)) as [[] [res|]];
      rewrite ?app_nil_r; auto.
  - apply andb_true_iff in Hsid. destruct Hsid as [Hvalid Hunknown].
    rewrite Hvalid. apply negb_true_iff in Hunknown.
    cbn -[create_session count_sweeps]. rewrite Hunknown.
    cbn -[create_session count_sweeps].
    destruct (value (create_session env st)) as [[] [res|]];
      rewrite ?app_nil_r, ?count_sweeps_cons; auto.
  - destruct (value (create_session env st)) as [[] [res|]];
      rewrite ?app_nil_r; auto.
Qed.

(** Where a run of the POST handler can leave the state. *)
Lemma post_mcp_final_cases env req st :
  let st' := final (post_mcp isInitializeRequest env req st) in
  st' = st \/
  st' = final (create_session env st) \/
  exists sid t,
    JsMap.get sid (transports st) = Some t /\
    st' = if closes (delegated env)
          then final (onclose t (touch sid (now_access env) st))
          else touch sid (now_access env) st.
Proof.
  unfold post_mcp, post_try, new_session.
  destruct (mcp_session_id req) as [[|ch sid]|];
    cbn -[create_session isValidSessionId].
  - destruct (isInitializeRequest (req_body req));
      cbn -[create_session]; [|auto].
    right. left.
    destruct (value (create_session env st)) as [[] [res|]]; reflexivity.
  - destruct (isValidSessionId (String ch sid));
      cbn -[create_session]; [|auto].
    unfold JsMap.has.
    destruct (JsMap.get (String ch sid) (transports st)) as [t|] eqn:Hg;
      cbn -[create_session].
    + right. right. exists (String ch sid), t. split; [exact Hg|].
      rewrite Hg. cbn.
      destruct (closes (delegated env)); cbn;
        destruct (throws (delegated env));
        destruct (written (delegated env)); reflexivity.
    + destruct (isInitializeRequest (req_body req));
        cbn -[create_session]; [|auto].
      right. left.
      destruct (value (create_session env st)) as [[] [res|]]; reflexivity.
  - destruct (isInitializeRequest (req_body req));
      cbn -[create_session]; [|auto].
    right. left.
    destruct (value (create_session env st)) as [[] [res|]]; reflexivity.
Qed.

Lemma get_mcp_invalid env req st sid :
  mcp_session_id req = Some sid -> isValidSessionId sid = false ->
  get_mcp env req st = mkRun (Some invalid_or_missing) st [].
Proof.
  intros Hh Hv. unfold get_mcp. rewrite Hh, Hv.
  now rewrite orb_true_r.
Qed.

Lemma delete_mcp_invalid env req st sid :
  mcp_session_id req = Some sid -> isValidSessionId sid = false ->
  delete_mcp env req st = mkRun (Some invalid_or_missing) st [].
Proof.
  intros Hh Hv. unfold delete_mcp. rewrite Hh, Hv.
  now rewrite orb_true_r.
Qed.

Lemma get_mcp_final_cases env req st :
  let st' := final (get_mcp env req st) in
  st' = st \/
  exists sid t,
    JsMap.get sid (transports st) = Some t /\
    st' = if closes (outcome env)
          then final (onclose t (touch sid (now_touch env) st))
          else touch sid (now_touch env) st.
Proof.
  unfold get_mcp.
  destruct (mcp_session_id req) as [sid|]; [|auto].
  destruct (negb (truthy (Some sid)) || negb (isValidSessionId sid))%bool;
    [auto|].
  cbn. unfold JsMap.has.
  destruct (JsMap.get sid (transports st)) as [t|] eqn:Hg; cbn; [|auto].
  right. exists sid, t. split; [exact Hg|]. rewrite Hg. cbn.
  destruct (closes (outcome env)); reflexivity.
Qed.

Lemma delete_mcp_final_cases env req st :
  let st' := final (delete_mcp env req st) in
  st' = st \/
  exists sid t,
    JsMap.get sid (transports st) = Some t /\
    truthy (Some sid) = true /\
    st' = if closes (outcome env)
          then final (onclose t (forget_access sid st))
          else forget_access sid st.
Proof.
  unfold delete_mcp.
  destruct (mcp_session_id req) as [sid|]; [|auto].
  destruct (truthy (Some sid)) eqn:Ht; [|auto].
  destruct (isValidSessionId sid); [|auto].
  cbn. unfold JsMap.has.
  destruct (JsMap.get sid (transports st)) as [t|] eqn:Hg; cbn; [|auto].
  right. exists sid, t. split; [exact Hg|]. split; [exact Ht|].
  rewrite Hg. cbn.
  destruct (closes (outcome env)); reflexivity.
Qed.
End Handlers.

(** ** Invariants of the session maps *)

Lemma keyed_ext st st' :
  transports st' = transports st -> keyed st -> keyed st'.
Proof. unfold keyed. intros ->. auto. Qed.

Lemma same_keys_ext st st' :
  transports st' = transports st ->
  sessionLastAccess st' = sessionLastAccess st ->
  same_keys st -> same_keys st'.
Proof. unfold same_keys. intros -> ->. auto. Qed.

Lemma keyed_onclose t st : keyed st -> keyed (final (onclose t st)).
Proof.
  intros Hk. rewrite onclose_final. destruct (sessionId t) as [sid|]; [|auto].
  destruct (truthy (Some sid)); auto using keyed_delete_both.
Qed.

Lemma same_keys_onclose t st :
  same_keys st -> same_keys (final (onclose t st)).
Proof.
  intros Hs. rewrite onclose_final. destruct (sessionId t) as [sid|]; [|auto].
  destruct (truthy (Some sid)); auto using same_keys_delete_both.
Qed.

Lemma keyed_register sid now st : keyed st -> keyed (register sid now st).
Proof.
  intros Hk k t. unfold register; simpl.
  destruct (string_dec k sid) as [->|Hne].
  - rewrite JsMapFacts.get_set_eq. now intros [= <-].
  - rewrite JsMapFacts.get_set_neq by assumption. apply Hk.
Qed.

Lemma same_keys_register sid now st :
  same_keys st -> same_keys (register sid now st).
Proof.
  intros Hs k. unfold register, JsMap.has; simpl.
  destruct (string_dec k sid) as [->|Hne].
  - now rewrite !JsMapFacts.get_set_eq.
  - rewrite !JsMapFacts.get_set_neq by assumption. apply Hs.
Qed.

Lemma same_keys_touch sid now t st :
  JsMap.get sid (transports st) = Some t ->
  same_keys st -> same_keys (touch sid now st).
Proof.
  intros Hg Hs k. unfold touch, JsMap.has; simpl.
  destruct (string_dec k sid) as [->|Hne].
  - now rewrite Hg, JsMapFacts.get_set_eq.
  - rewrite JsMapFacts.get_set_neq by assumption. apply Hs.
Qed.

Lemma same_keys_evict now st :
  keyed st -> same_keys st -> same_keys (final (evictStaleSessions now st)).
Proof.
  intros Hk Hs k.
  destruct (evictStaleSessions_get now st Hk) as (_ & _ & Hget).
  destruct (Hget k) as [Hstale Hfresh]. unfold JsMap.has.
  destruct (JsMap.get k (sessionLastAccess st)) as [v|] eqn:Hv.
  - destruct (Z_lt_dec v (now - SESSION_TTL_MS)) as [Hlt|Hge].
    + destruct Hstale as [-> ->]; [|reflexivity].
      exists v. auto.
    + destruct Hfresh as [-> ->].
      * intros (v' & Hv' & Hlt). congruence.
      * specialize (Hs k). unfold JsMap.has in Hs. now rewrite Hv in *.
  - destruct Hfresh as [-> ->].
    + intros (v' & Hv' & _). congruence.
    + specialize (Hs k). unfold JsMap.has in Hs. now rewrite Hv in *.
Qed.

Lemma keyed_evict now st :
  keyed st -> keyed (final (evictStaleSessions now st)).
Proof. intros Hk. apply (evictStaleSessions_get now st Hk). Qed.

Lemma keyed_after_cap_check now st :
  keyed st -> keyed (after_cap_check now st).
Proof.
  unfold after_cap_check. destruct (_ >=? _); auto using keyed_evict.
Qed.

Lemma same_keys_after_cap_check now st :
  keyed st -> same_keys st -> same_keys (after_cap_check now st).
Proof.
  unfold after_cap_check. destruct (_ >=? _); auto using same_keys_evict.
Qed.


(** The new-session branch keeps the cap and both invariants. *)
Lemma create_session_final_cases env st :
  let st1 := after_cap_check (now_sweep env) st in
  let st' := final (create_session env st) in
  st' = st1 \/
  JsMap.size (transports st1) < MAX_SESSIONS /\
  exists sid,
    st' = if closes (handled (fresh env))
          then final (onclose {| sessionId := Some sid |}
                        (register sid (now_init (fresh env)) st1))
          else register sid (now_init (fresh env)) st1.
Proof.
  cbv zeta.
  destruct (Z_lt_dec (JsMap.size
                        (transports (after_cap_check (now_sweep env) st)))
                     MAX_SESSIONS) as [Hlt|Hge].
  - destruct (create_session_not_busy env st Hlt) as [_ ->].
    destruct (construction_fails (fresh env)); [auto|].
    rewrite handleRequest_new_final.
    destruct (generated (fresh env)) as [sid|]; [|auto].
    right. split; [exact Hlt|]. now exists sid.
  - left. apply create_session_busy. lia.
Qed.


Lemma create_session_keyed env st :
  keyed st -> keyed (final (create_session env st)).
Proof.
  intros Hk.
  destruct (create_session_final_cases env st) as [->|(_ & sid & ->)].
  - now apply keyed_after_cap_check.
  - destruct (closes (handled (fresh env)));
      auto using keyed_onclose, keyed_register, keyed_after_cap_check.
Qed.

Lemma create_session_same_keys env st :
  keyed st -> same_keys st -> same_keys (final (create_session env st)).
Proof.
  intros Hk Hs.
  destruct (create_session_final_cases env st) as [->|(_ & sid & ->)].
  - now apply same_keys_after_cap_check.
  - destruct (closes (handled (fresh env)));
      auto using same_keys_onclose, same_keys_register,
        same_keys_after_cap_check.
Qed.

(** ** Steps of the server *)

Section Server.
Context {Body : Type}.
Variable isInitializeRequest : Body -> bool.
Variable SERVER_URL : string.
Variable newURL : string -> URL.
Implicit Types (req : Request Body) (st : State).

Local Abbreviation mw := (authMiddleware SERVER_URL newURL).
Local Abbreviation route := (protected SERVER_URL newURL).
Local Abbreviation step' := (step isInitializeRequest SERVER_URL newURL).
Local Abbreviation run' := (run isInitializeRequest SERVER_URL newURL).

Lemma authMiddleware_frame auth now req st :
  transports (final (mw auth now req st)) = transports st /\
  sessionLastAccess (final (mw auth now req st)) = sessionLastAccess st /\
  trace (mw auth now req st) = [].
Proof. apply requireBearerAuth_frame. Qed.

Lemma protected_next auth now handler req st :
  value (mw auth now req st) = Next ->
  let h := handler req (final (mw auth now req st)) in
  value (route auth now handler req st) = value h /\
  final (route auth now handler req st) = final h /\
  trace (route auth now handler req st) = trace h.
Proof.
  intros Hn. unfold protected, bind. cbn. rewrite Hn.
  destruct (authMiddleware_frame auth now req st) as (_ & _ & ->). auto.
Qed.

Lemma protected_final auth now handler req st :
  final (route auth now handler req st) = final (mw auth now req st) \/
  final (route auth now handler req st) =
    final (handler req (final (mw auth now req st))).
Proof.
  unfold protected, bind. cbn.
  destruct (value (mw auth now req st)); auto.
Qed.

(** A property of the two session maps that every handler run keeps is
    kept by the protected route. *)
Lemma protected_preserves (P : State -> Prop) auth now handler req st :
  (forall s s', transports s' = transports s ->
                sessionLastAccess s' = sessionLastAccess s -> P s -> P s') ->
  (forall s, P s -> P (final (handler req s))) ->
  P st -> P (final (route auth now handler req st)).
Proof.
  intros Hext Hh HP.
  destruct (authMiddleware_frame auth now req st) as (Ht & Hl & _).
  assert (P (final (mw auth now req st))) by (eapply Hext; eauto).
  destruct (protected_final auth now handler req st) as [-> | ->]; auto.
Qed.






Lemma post_mcp_keyed env req st :
  keyed st -> keyed (final (post_mcp isInitializeRequest env req st)).
Proof.
  intros Hk.
  destruct (post_mcp_final_cases isInitializeRequest env req st)
    as [-> | [-> | (sid & t & _ & ->)]].
  - exact Hk.
  - now apply create_session_keyed.
  - destruct (closes (delegated env)); [apply keyed_onclose|];
      exact (keyed_ext st _ eq_refl Hk).
Qed.

Lemma get_mcp_keyed env req st :
  keyed st -> keyed (final (get_mcp env req st)).
Proof.
  intros Hk.
  destruct (get_mcp_final_cases env req st) as [-> | (sid & t & _ & ->)].
  - exact Hk.
  - destruct (closes (outcome env)); [apply keyed_onclose|];
      exact (keyed_ext st _ eq_refl Hk).
Qed.

Lemma delete_mcp_keyed env req st :
  keyed st -> keyed (final (delete_mcp env req st)).
Proof.
  intros Hk.
  destruct (delete_mcp_final_cases env req st)
    as [-> | (sid & t & _ & _ & ->)].
  - exact Hk.
  - destruct (closes (outcome env)); [apply keyed_onclose|];
      exact (keyed_ext st _ eq_refl Hk).
Qed.

Lemma keyed_shutdown st : keyed st -> keyed (final (gracefulShutdown st)).
Proof.
  intros Hk. rewrite gracefulShutdown_final.
  apply (for_of_deletes transports shutdown_entry (fun _ => true)
           (fun k st => JsMapFacts.get_delete_eq k (transports st))
           (fun k k0 st H =>
              JsMapFacts.get_delete_neq k k0 (transports st) H)
           (fun k v st H Hg => shutdown_entry_keyed k v st H Hg)
           (transports st) st Hk).
Qed.

Lemma step_keyed e st : keyed st -> keyed (final (step' e st)).
Proof.
  assert (Hext : forall s s', transports s' = transports s ->
            sessionLastAccess s' = sessionLastAccess s ->
            keyed s -> keyed s').
  { intros s s' H _. now apply keyed_ext. }
  destruct e as [auth now env req|auth now env req|auth now env req
                |now|t|]; intros Hk; cbn [step bind final ret].
  - apply protected_preserves; auto using post_mcp_keyed.
  - apply protected_preserves; auto using get_mcp_keyed.
  - apply protected_preserves; auto using delete_mcp_keyed.
  - now apply keyed_evict.
  - now apply keyed_onclose.
  - now apply keyed_shutdown.
Qed.

Lemma run_keyed es : forall st, keyed st -> keyed (run' es st).
Proof.
  induction es as [|e es IH]; intros st Hk; simpl; [exact Hk|].
  apply IH, step_keyed, Hk.
Qed.

Lemma keyed_initial : keyed initial.
Proof. intros k t. discriminate. Qed.

Lemma in_step_ext s s' :
  transports s' = transports s ->
  sessionLastAccess s' = sessionLastAccess s -> in_step s -> in_step s'.
Proof.
  intros Ht Hl [Hk Hs]. split; [now apply (keyed_ext s)|].
  now apply (same_keys_ext s).
Qed.

Lemma post_mcp_in_step env req st :
  in_step st -> in_step (final (post_mcp isInitializeRequest env req st)).
Proof.
  intros [Hk Hs]. split; [now apply post_mcp_keyed|].
  destruct (post_mcp_final_cases isInitializeRequest env req st)
    as [-> | [-> | (sid & t & Hg & ->)]].
  - exact Hs.
  - now apply create_session_same_keys.
  - destruct (closes (delegated env)); [apply same_keys_onclose|];
      now apply (same_keys_touch sid _ t).
Qed.

Lemma get_mcp_in_step env req st :
  in_step st -> in_step (final (get_mcp env req st)).
Proof.
  intros [Hk Hs]. split; [now apply get_mcp_keyed|].
  destruct (get_mcp_final_cases env req st) as [-> | (sid & t & Hg & ->)].
  - exact Hs.
  - destruct (closes (outcome env)); [apply same_keys_onclose|];
      now apply (same_keys_touch sid _ t).
Qed.

Lemma delete_mcp_in_step env req st :
  closes (outcome env) = true ->
  in_step st -> in_step (final (delete_mcp env req st)).
Proof.
  intros Hc [Hk Hs]. split; [now apply delete_mcp_keyed|].
  destruct (delete_mcp_final_cases env req st)
    as [-> | (sid & t & Hg & Ht & ->)].
  - exact Hs.
  - rewrite Hc, onclose_final, (Hk _ _ Hg), Ht.
    replace (delete_both sid (forget_access sid st))
      with (delete_both sid st).
    + now apply same_keys_delete_both.
    + unfold delete_both, forget_access; simpl.
      now rewrite JsMapFacts.delete_idem.
Qed.

Lemma step_in_step e st :
  delete_closes e -> in_step st -> in_step (final (step' e st)).
Proof.
  destruct e as [auth now env req|auth now env req|auth now env req
                |now|t|]; intros Hc Hi; cbn [step bind final ret].
  - apply protected_preserves;
      [exact in_step_ext|intros; now apply post_mcp_in_step|exact Hi].
  - apply protected_preserves;
      [exact in_step_ext|intros; now apply get_mcp_in_step|exact Hi].
  - apply protected_preserves;
      [exact in_step_ext|intros; now apply delete_mcp_in_step|exact Hi].
  - destruct Hi as [Hk Hs]. split; [now apply keyed_evict|].
    now apply same_keys_evict.
  - destruct Hi as [Hk Hs]. split; [now apply keyed_onclose|].
    now apply same_keys_onclose.
  - destruct Hi as [Hk Hs]. split; [now apply keyed_shutdown|].
    destruct (gracefulShutdown_empties st Hk Hs) as [Ht Hl].
    intros k. unfold JsMap.has. now rewrite Ht, Hl.
Qed.

Lemma run_in_step es :
  forall st, Forall delete_closes es -> in_step st -> in_step (run' es st).
Proof.
  induction es as [|e es IH]; intros st Hall Hi; simpl; [exact Hi|].
  inversion Hall; subst. apply IH; [assumption|].
  now apply step_in_step.
Qed.

Lemma in_step_initial : in_step initial.
Proof. split; [apply keyed_initial|]. intros k. reflexivity. Qed.

(** *** Nothing but deletions *)

Lemma only_deleted_refl st : only_deleted st st.
Proof. split; auto. Qed.

Lemma only_deleted_trans s1 s2 s3 :
  only_deleted s1 s2 -> only_deleted s2 s3 -> only_deleted s1 s3.
Proof. intros [H1 H2] [H3 H4]. split; eauto. Qed.

Lemma only_deleted_ext s s' :
  transports s' = transports s ->
  sessionLastAccess s' = sessionLastAccess s -> only_deleted s s'.
Proof. intros Ht Hl. split; intros k v; rewrite ?Ht, ?Hl; auto. Qed.

Lemma only_deleted_onclose t st : only_deleted st (final (onclose t st)).
Proof.
  rewrite onclose_final. destruct (sessionId t) as [sid|];
    [|apply only_deleted_refl].
  destruct (truthy (Some sid)); [|apply only_deleted_refl].
  split; intros k v; apply JsMapFacts.get_delete_some.
Qed.

Lemma only_deleted_evict_entry cutoff k v st :
  only_deleted st (final (evict_entry cutoff k v st)).
Proof.
  unfold evict_entry. destruct (v <? cutoff); [|apply only_deleted_refl].
  cbn. destruct (JsMap.get k (transports st)) as [t|]; cbn.
  - destruct (only_deleted_onclose t st) as [Ht Hl].
    split; intros k' v' H; apply JsMapFacts.get_delete_some in H; auto.
  - split; intros k' v' H; [exact H|].
    now apply JsMapFacts.get_delete_some in H.
Qed.

Lemma only_deleted_for_of {V} (live : State -> JsMap.t V) body :
  (forall k v st, only_deleted st (final (body k v st))) ->
  forall entries st, only_deleted st (final (for_of live entries body st)).
Proof.
  intros Hbody. induction entries as [|[k0 v0] rest IH]; intros st.
  - apply only_deleted_refl.
  - simpl. destruct (JsMap.get k0 (live st)) as [v|]; [|apply IH].
    cbn. eapply only_deleted_trans; [apply Hbody|apply IH].
Qed.

Lemma only_deleted_evict now st :
  only_deleted st (final (evictStaleSessions now st)).
Proof.
  rewrite evictStaleSessions_final.
  apply only_deleted_for_of. intros. apply only_deleted_evict_entry.
Qed.

Lemma only_deleted_after_cap_check now st :
  only_deleted st (after_cap_check now st).
Proof.
  unfold after_cap_check. destruct (_ >=? _);
    [apply only_deleted_evict|apply only_deleted_refl].
Qed.

Lemma opens_session_ext req st st' :
  transports st' = transports st ->
  opens_session isInitializeRequest req st' =
  opens_session isInitializeRequest req st.
Proof. unfold opens_session. now intros ->. Qed.

(** *** The sweep on a state whose transports are registered under their
    own ids *)

Lemma evictStaleSessions_keyed_spec now st sid t :
  keyed st ->
  JsMap.get sid (sessionLastAccess st) = Some t ->
  let r := evictStaleSessions now st in
  (SESSION_TTL_MS < now - t ->
     JsMap.get sid (transports (final r)) = None /\
     JsMap.get sid (sessionLastAccess (final r)) = None /\
     forall tr, JsMap.get sid (transports st) = Some tr ->
                In (Close tr) (trace r)) /\
  (now - t <= SESSION_TTL_MS ->
     JsMap.get sid (sessionLastAccess (final r)) = Some t /\
     JsMap.get sid (transports (final r)) = JsMap.get sid (transports st)).
Proof.
  intros Hk Ht. cbv zeta.
  destruct (evictStaleSessions_get now st Hk) as (_ & _ & Hget).
  set (cutoff := now - SESSION_TTL_MS) in *.
  assert (Hcut : cutoff = now - SESSION_TTL_MS) by reflexivity.
  destruct (Hget sid) as [Hstale Hfresh]. split.
  - intros Hold.
    destruct Hstale as [H1 H2]; [exists t; split; [exact Ht|lia]|].
    split; [exact H1|]. split; [exact H2|].
    intros tr Htr. rewrite evictStaleSessions_trace.
    right. right. fold cutoff.
    apply (evict_loop_closes _ _ st sid t tr); auto; [|lia].
    apply JsMapFacts.get_in_keys. congruence.
  - intros Hyoung.
    destruct Hfresh as [H1 H2].
    + intros (v & Hv & Hlt). assert (v = t) by congruence. lia.
    + now rewrite H2, H1.
Qed.

(** ** The session manager, claim by claim *)


(** C3. When the cap check lets a session-opening POST through and
    constructing the transport, creating the server or connecting them
    throws, the response is HTTP 500 and the session maps hold no entry
    that was not there before: the state is the one the cap check left. *)
Theorem failed_construction_leaves_no_session :
  forall auth now env req st,
    value (mw auth now req st) = Next ->
    opens_session isInitializeRequest req st = true ->
    construction_fails (fresh env) = true ->
    let st0 := final (mw auth now req st) in
    let st1 := after_cap_check (now_sweep env) st0 in
    JsMap.size (transports st1) < MAX_SESSIONS ->
    let r := route auth now (post_mcp isInitializeRequest env) req st in
    value r = Some internal_error /\
    res_status internal_error = 500 /\
    final r = st1 /\
    only_deleted st (final r) /\
    (JsMap.size (transports st) < MAX_SESSIONS ->
       transports (final r) = transports st /\
       sessionLastAccess (final r) = sessionLastAccess st).
Proof.
  intros auth now env req st Hnext Hopens Hfails. cbv zeta. intros Hlt.
  destruct (authMiddleware_frame auth now req st) as (Ht & Hl & _).
  destruct (protected_next auth now (post_mcp isInitializeRequest env)
              req st Hnext) as (Hv & Hf & _).
  rewrite <- (opens_session_ext req st _ Ht) in Hopens.
  destruct (post_mcp_opens isInitializeRequest env req _ Hopens)
    as (Hpf & Hpv & _).
  destruct (create_session_not_busy env _ Hlt) as [Hcv Hcf].
  rewrite Hfails in Hcv, Hcf.
  rewrite Hv, Hf, Hpv, Hpf, Hcv, Hcf.
  split; [reflexivity|]. split; [reflexivity|]. split; [reflexivity|].
  split.
  - eapply only_deleted_trans;
      [apply (only_deleted_ext st _ Ht Hl)
      |apply only_deleted_after_cap_check].
  - intros Hroom. unfold after_cap_check.
    destruct (Z.geb_spec
                (JsMap.size (transports (final (mw auth now req st))))
                MAX_SESSIONS) as [Hge|_]; [rewrite Ht in Hge; lia|].
    auto.
Qed.

(** What the middleware of the /mcp routes answers itself is a 401. *)
Lemma authMiddleware_responds_401 auth now req st res :
  value (mw auth now req st) = Responded res -> res_status res = 401.
Proof.
  unfold authMiddleware, requireBearerAuth.
  cbn [requiredScopes length Z.of_nat Z.ltb Z.compare andb].
  destruct (authorization req) as [h|]; [|now intros [= <-]].
  destruct (startsWith h "Bearer "); [|now intros [= <-]].
  destruct (verifyAccessToken auth now (slice 7 h)) as [info|m];
    [discriminate|now intros [= <-]].
Qed.

(** A request the middleware turns away gets the middleware's response and
    the session maps are not touched. *)
Lemma protected_responded auth now handler req st res :
  value (mw auth now req st) = Responded res ->
  value (route auth now handler req st) = Some res /\
  transports (final (route auth now handler req st)) = transports st /\
  sessionLastAccess (final (route auth now handler req st))
    = sessionLastAccess st /\
  trace (route auth now handler req st) = [].
Proof.
  intros Hr. destruct (authMiddleware_frame auth now req st) as (Ht & Hl & Htr).
  unfold protected, bind. cbn. rewrite Hr. cbn. rewrite Htr. auto.
Qed.

Lemma mcp_route_parsed auth now handler (i : Incoming Body) body :
  in_body i = BodyParsed body ->
  mcp_route SERVER_URL newURL auth now handler i =
  route auth now handler (with_body i body).
Proof. intros H. unfold mcp_route. now rewrite H. Qed.

(** The middleware reads the [Authorization] header only. *)
Lemma authMiddleware_reads_authorization auth now req req' :
  authorization req' = authorization req ->
  mw auth now req' = mw auth now req.
Proof.
  intros H. unfold authMiddleware, requireBearerAuth. now rewrite H.
Qed.

(** The POST handler takes an empty session-id header for none. *)
Lemma post_mcp_empty_session_id env req req' :
  mcp_session_id req = Some EmptyString ->
  mcp_session_id req' = None ->
  req_body req' = req_body req ->
  post_mcp isInitializeRequest env req' = post_mcp isInitializeRequest env req.
Proof.
  intros H H' Hb. unfold post_mcp, post_try, new_session.
  now rewrite H, H', Hb.
Qed.

Lemma protected_empty_session_id auth now env req req' :
  authorization req' = authorization req ->
  mcp_session_id req = Some EmptyString ->
  mcp_session_id req' = None ->
  req_body req' = req_body req ->
  forall st,
    route auth now (post_mcp isInitializeRequest env) req' st =
    route auth now (post_mcp isInitializeRequest env) req st.
Proof.
  intros Ha H H' Hb st. unfold protected.
  rewrite (authMiddleware_reads_authorization auth now req req' Ha).
  now rewrite (post_mcp_empty_session_id env req req' H H' Hb).
Qed.

(** C4, as the code has it. A request that the body parser and the bearer
    middleware let through and that carries a session-id header not
    matching the UUID v4 format is answered with HTTP 400 before any
    session map is read or written: on GET and DELETE for every such
    header value, on POST for every such value other than the empty
    string. A POST whose session-id header is the empty string is handled
    exactly like the same request without the header. *)
Theorem malformed_session_id_rejected :
  (forall auth now (i : Incoming Body) body st sid,
     in_body i = BodyParsed body ->
     value (mw auth now (with_body i body) st) = Next ->
     in_mcp_session_id i = Some sid ->
     isValidSessionId sid = false ->
     (forall env,
        sid <> EmptyString ->
        let r :=
          mcp_route SERVER_URL newURL auth now
            (post_mcp isInitializeRequest env) i st in
        value r = Some invalid_format_error /\
        res_status invalid_format_error = 400 /\
        transports (final r) = transports st /\
        sessionLastAccess (final r) = sessionLastAccess st /\
        trace r = []) /\
     (forall env,
        let r := mcp_route SERVER_URL newURL auth now (get_mcp env) i st in
        value r = Some invalid_or_missing /\
        res_status invalid_or_missing = 400 /\
        transports (final r) = transports st /\
        sessionLastAccess (final r) = sessionLastAccess st /\
        trace r = []) /\
     (forall env,
        let r := mcp_route SERVER_URL newURL auth now (delete_mcp env) i st in
        value r = Some invalid_or_missing /\
        res_status invalid_or_missing = 400 /\
        transports (final r) = transports st /\
        sessionLastAccess (final r) = sessionLastAccess st /\
        trace r = [])) /\
  (forall auth now env (i : Incoming Body) st,
     in_mcp_session_id i = Some EmptyString ->
     mcp_route SERVER_URL newURL auth now (post_mcp isInitializeRequest env)
       i st =
     mcp_route SERVER_URL newURL auth now (post_mcp isInitializeRequest env)
       (without_session_id i) st).
Proof.
  split.
  - intros auth now i body st sid Hbody Hnext Hh Hbad.
    set (req := with_body i body) in *.
    assert (Hh' : mcp_session_id req = Some sid) by exact Hh.
    destruct (authMiddleware_frame auth now req st) as (Ht & Hl & _).
    split; [|split].
    + intros env Hne. cbv zeta. rewrite (mcp_route_parsed _ _ _ _ _ Hbody).
      fold req.
      destruct (protected_next auth now (post_mcp isInitializeRequest env)
                  req st Hnext) as (Hv & Hf & Htr).
      rewrite Hv, Hf, Htr,
        (post_mcp_invalid isInitializeRequest env req _ sid Hh' Hne Hbad).
      simpl. auto.
    + intros env. cbv zeta. rewrite (mcp_route_parsed _ _ _ _ _ Hbody).
      fold req.
      destruct (protected_next auth now (get_mcp env) req st Hnext)
        as (Hv & Hf & Htr).
      rewrite Hv, Hf, Htr, (get_mcp_invalid env req _ sid Hh' Hbad).
      simpl. auto.
    + intros env. cbv zeta. rewrite (mcp_route_parsed _ _ _ _ _ Hbody).
      fold req.
      destruct (protected_next auth now (delete_mcp env) req st Hnext)
        as (Hv & Hf & Htr).
      rewrite Hv, Hf, Htr, (delete_mcp_invalid env req _ sid Hh' Hbad).
      simpl. auto.
  - intros auth now env i st Hh. unfold mcp_route, without_session_id.
    cbn [in_body]. destruct (in_body i) as [body|status page]; [|reflexivity].
    symmetry. apply protected_empty_session_id; [reflexivity|exact Hh| |];
      reflexivity.
Qed.

(** C5, as the code has it. A POST that the body parser lets through, with
    no session-id header and a body that is not an initialize message,
    leaves the session maps unchanged and unread. When the bearer
    middleware lets it through it is answered with HTTP 400 and the
    JSON-RPC error message that ends in "No valid session ID provided";
    otherwise the middleware has answered it with its 401. *)
Theorem post_without_session_requires_initialize :
  forall auth now env (i : Incoming Body) body st,
    in_body i = BodyParsed body ->
    in_mcp_session_id i = None ->
    isInitializeRequest body = false ->
    let req := with_body i body in
    let r :=
      mcp_route SERVER_URL newURL auth now (post_mcp isInitializeRequest env)
        i st in
    transports (final r) = transports st /\
    sessionLastAccess (final r) = sessionLastAccess st /\
    trace r = [] /\
    (value (mw auth now req st) = Next ->
     value r =
       Some (respond 400
               (JsonRpcError (-32000)
                  ("Bad Request: " ++ "No valid session ID provided")))) /\
    (forall res,
       value (mw auth now req st) = Responded res ->
       value r = Some res /\ res_status res = 401).
Proof.
  intros auth now env i body st Hbody Hh Hb. cbv zeta.
  rewrite (mcp_route_parsed _ _ _ _ _ Hbody).
  set (req := with_body i body).
  assert (Hh' : mcp_session_id req = None) by exact Hh.
  assert (Hb' : isInitializeRequest (req_body req) = false) by exact Hb.
  destruct (authMiddleware_frame auth now req st) as (Ht & Hl & _).
  destruct (value (mw auth now req st)) as [res|] eqn:Hv.
  - destruct (protected_responded auth now (post_mcp isInitializeRequest env)
                req st res Hv) as (H1 & H2 & H3 & H4).
    split; [exact H2|]. split; [exact H3|]. split; [exact H4|].
    split; [discriminate|].
    intros res' [= <-]. split; [exact H1|].
    exact (authMiddleware_responds_401 auth now req st res Hv).
  - destruct (protected_next auth now (post_mcp isInitializeRequest env)
                req st Hv) as (Hpv & Hpf & Hptr).
    rewrite Hpv, Hpf, Hptr,
      (post_mcp_no_session isInitializeRequest env req _ Hh' Hb').
    simpl. split; [exact Ht|]. split; [exact Hl|]. split; [reflexivity|].
    split; [reflexivity|discriminate].
Qed.

(** C6. In every state the server reaches, a sweep at time [now] handles
    each session by its last-access time [t]: one older than the idle TTL
    of 30 minutes ([SESSION_TTL_MS < now - t]) has its transport closed and
    its entry removed from both maps; one accessed within the TTL keeps
    both entries. *)
Theorem stale_sessions_evicted :
  forall es now,
    let st := run' es initial in
    let r := evictStaleSessions now st in
    SESSION_TTL_MS = 30 * 60 * 1000 /\
    (forall sid t,
       JsMap.get sid (sessionLastAccess st) = Some t ->
       SESSION_TTL_MS < now - t ->
       JsMap.get sid (transports (final r)) = None /\
       JsMap.get sid (sessionLastAccess (final r)) = None /\
       forall tr, JsMap.get sid (transports st) = Some tr ->
                  In (Close tr) (trace r)) /\
    (forall sid t,
       JsMap.get sid (sessionLastAccess st) = Some t ->
       now - t <= SESSION_TTL_MS ->
       JsMap.get sid (sessionLastAccess (final r)) = Some t /\
       JsMap.get sid (transports (final r)) =
         JsMap.get sid (transports st)).
Proof.
  intros es now. cbv zeta.
  pose proof (run_keyed es initial keyed_initial) as Hk.
  split; [reflexivity|]. split; intros sid t Ht Hage;
    now apply (evictStaleSessions_keyed_spec now _ sid t Hk Ht).
Qed.

(** C8, as the code has it. A request that reaches the bearer middleware
    without an [Authorization] header, or with one that does not start
    with the bearer scheme, is answered with HTTP 401 and a
    [WWW-Authenticate] header whose [resource_metadata] parameter is the
    configured metadata URL: for every configuration of the middleware that
    has a [resourceMetadataUrl], and on the /mcp routes, for every request
    that the body parser lets through, with the URL of
    [/.well-known/oauth-protected-resource/mcp] under the server URL. A
    request whose body the parser rejects does not reach the middleware: it
    is answered with the parser's status and without a [WWW-Authenticate]
    header, whatever its [Authorization] header. *)
Theorem missing_bearer_challenge :
  (forall options u auth now req st,
     resourceMetadataUrl options = Some u ->
     lacks_bearer req ->
     exists pre,
       requireBearerAuth options auth now req st =
       mkRun
         (Responded
            {| res_status := 401;
               res_www_authenticate :=
                 Some (pre ++ ", resource_metadata=" ++ dq ++ href u ++ dq);
               res_body := OAuthError "invalid_token"
                             "Missing Authorization header" |})
         st []) /\
  (forall auth now handler (i : Incoming Body) body st,
     in_body i = BodyParsed body ->
     lacks_bearer (with_body i body) ->
     let prm :=
       newURL (SERVER_URL ++ "/.well-known/oauth-protected-resource/mcp") in
     mcp_route SERVER_URL newURL auth now handler i st =
     mkRun
       (Some
          {| res_status := 401;
             res_www_authenticate :=
               Some ("Bearer error=" ++ dq ++ "invalid_token" ++ dq ++
                     ", error_description=" ++ dq ++
                     "Missing Authorization header" ++ dq ++
                     ", resource_metadata=" ++ dq ++ href prm ++ dq);
             res_body := OAuthError "invalid_token"
                           "Missing Authorization header" |})
       st []) /\
  (forall auth now handler (i : Incoming Body) status page st,
     in_body i = BodyRejected status page ->
     mcp_route SERVER_URL newURL auth now handler i st =
     mkRun
       (Some {| res_status := status;
                res_www_authenticate := None;
                res_body := Opaque page |})
       st []).
Proof.
  split; [|split].
  - intros options u auth now req st Hu Hlack.
    destruct (buildWwwAuth_resource_metadata options u "invalid_token"
                "Missing Authorization header" Hu) as [pre Hpre].
    exists pre. rewrite <- Hpre.
    now apply requireBearerAuth_rejects_without_bearer.
  - intros auth now handler i body st Hbody Hlack. cbv zeta.
    rewrite (mcp_route_parsed _ _ _ _ _ Hbody).
    unfold protected, authMiddleware, bind.
    rewrite (requireBearerAuth_rejects_without_bearer _ auth now
               (with_body i body) st Hlack).
    reflexivity.
  - intros auth now handler i status page st Hbody.
    unfold mcp_route. rewrite Hbody. reflexivity.
Qed.
End Server.

(** ** Discovery routes *)

(** C9. For every auth instance, a GET on the derived path and a GET on the
    bare path of the protected-resource metadata are dispatched to the same
    handler and answered with the same document, whatever the rate limiters
    of the other routes have counted. *)
Theorem prm_paths_serve_same_document :
  forall (a : Auth) (totalHits : Z),
    dispatch a totalHits GET "/.well-known/oauth-protected-resource/mcp"
      mountAuthRoutes =
    Ends (respond 200 (Opaque (getMCPProtectedResource a))) /\
    dispatch a totalHits GET "/.well-known/oauth-protected-resource"
      mountAuthRoutes =
    dispatch a totalHits GET "/.well-known/oauth-protected-resource/mcp"
      mountAuthRoutes.
Proof. intros a totalHits. split; reflexivity. Qed.

(** ** Where the auth context goes *)

(** C7, on the code. Two requests with different tokens pass the bearer
    middleware one after the other. Each time the resolved context is
    written to the one [app.locals.auth] slot of the application, so after
    the second request the slot holds the second context and nothing of the
    first is left: the context is shared by all requests, not attached to
    the request that carried the token. *)
Theorem auth_context_is_app_wide :
  let first :=
    authMiddleware sample_url sample_newURL (Some sample_auth) 0
      (initialize_request "token-a") initial in
  let second :=
    authMiddleware sample_url sample_newURL (Some sample_auth) 0
      (initialize_request "token-b") (final first) in
  value first = Next /\ locals_auth (final first) = Some info_a /\
  value second = Next /\ locals_auth (final second) = Some info_b /\
  info_a <> info_b.
Proof. cbv zeta. repeat split; try reflexivity. discriminate. Qed.

(** ** A DELETE the transport refuses *)

(** C10, on the code. A session is opened and then a DELETE for it arrives
    that the transport answers without closing. The DELETE handler has
    removed the last-access entry and the [onclose] callback never runs, so
    the id stays in [transports] and is gone from [sessionLastAccess]; the
    next sweep, which walks [sessionLastAccess], does not find it. *)
Theorem refused_delete_splits_the_maps :
  let es :=
    [ PostMcp (Some sample_auth) 0 (post_env id_a 0)
        (initialize_request "token-a");
      DeleteMcp (Some sample_auth) 0 delete_refused
        (session_request "token-a" id_a false) ] in
  let st := run is_initialize sample_url sample_newURL es initial in
  let swept := final (evictStaleSessions 99999999 st) in
  JsMap.has id_a (transports st) = true /\
  JsMap.has id_a (sessionLastAccess st) = false /\
  JsMap.has id_a (transports swept) = true.
Proof. cbv zeta. repeat split; vm_compute; reflexivity. Qed.

(** ** The claims at sample inputs *)

(** C4, as stated, fails on POST: an initialize request whose session-id
    header is the empty string does not match the UUID format, yet it is
    not rejected; the handler reads the map size and opens a session. *)
Lemma empty_session_id_opens_session :
  let req := session_request "token-a" EmptyString true in
  let r :=
    protected sample_url sample_newURL (Some sample_auth) 0
      (post_mcp is_initialize (post_env id_a 0)) req initial in
  mcp_session_id req = Some EmptyString /\
  isValidSessionId EmptyString = false /\
  value r = Some (respond 200 (Opaque "initialize result")) /\
  JsMap.has id_a (transports (final r)) = true /\
  In (Access Transports OpSize) (trace r).
Proof. cbv zeta. repeat split; vm_compute; auto. Qed.

(** C5, as stated, fails for a request without a bearer token: it has no
    session-id header and its body is not an initialize message, yet the
    answer is the 401 of the middleware, not the 400 of the handler. *)
Lemma post_without_token_is_unauthorized :
  let i := anonymous_request (BodyParsed false) in
  let r :=
    mcp_route sample_url sample_newURL (Some sample_auth) 0
      (post_mcp is_initialize (post_env id_a 0)) i initial in
  in_mcp_session_id i = None /\
  in_body i = BodyParsed false /\
  is_initialize false = false /\
  option_map res_status (value r) = Some 401 /\
  value r <> Some no_session_error.
Proof. cbv zeta. repeat split; try reflexivity. discriminate. Qed.

(** C8, as stated, fails for a request whose body the parser rejects: it
    has no [Authorization] header, yet it is answered with the parser's 400
    and no [WWW-Authenticate] header. *)
Lemma rejected_body_gets_no_challenge :
  let i := anonymous_request (BodyRejected 400 "Bad Request") in
  let r :=
    mcp_route sample_url sample_newURL (Some sample_auth) 0
      (post_mcp is_initialize (post_env id_a 0)) i initial in
  in_authorization i = None /\
  option_map res_status (value r) = Some 400 /\
  option_map res_www_authenticate (value r) = Some None.
Proof. cbv zeta. repeat split; reflexivity. Qed.

(** ** A sweep that finds nothing stale *)

Lemma evict_loop_nothing_stale cutoff entries st :
  (forall k v, JsMap.get k (sessionLastAccess st) = Some v -> cutoff <= v) ->
  final (for_of sessionLastAccess entries (evict_entry cutoff) st) = st.
Proof.
  intros Hfresh. induction entries as [|[k0 v0] rest IH]; [reflexivity|].
  simpl. destruct (JsMap.get k0 (sessionLastAccess st)) as [v|] eqn:Hv;
    [|exact IH].
  cbn. unfold evict_entry.
  destruct (Z.ltb_spec v cutoff) as [Hlt|_].
  - specialize (Hfresh _ _ Hv). lia.
  - exact IH.
Qed.

Lemma evictStaleSessions_nothing_stale now st :
  (forall k v, JsMap.get k (sessionLastAccess st) = Some v ->
               now - SESSION_TTL_MS <= v) ->
  final (evictStaleSessions now st) = st.
Proof.
  intros Hfresh. rewrite evictStaleSessions_final.
  now apply evict_loop_nothing_stale.
Qed.



(** C3 with [server.connect] rejecting on an empty server. *)
Lemma failed_construction_leaves_no_session_witness :
  let auth := Some sample_auth in
  let req := initialize_request "token-a" in
  let r :=
    protected sample_url sample_newURL auth 0
      (post_mcp is_initialize failing_env) req initial in
  construction_fails (fresh failing_env) = true /\
  value r = Some internal_error /\
  transports (final r) = [] /\ sessionLastAccess (final r) = [].
Proof.
  cbv zeta.
  assert (H1 : value (authMiddleware sample_url sample_newURL
                        (Some sample_auth) 0 (initialize_request "token-a")
                        initial) = Next) by reflexivity.
  assert (H2 : opens_session is_initialize (initialize_request "token-a")
                 initial = true) by reflexivity.
  assert (H3 : construction_fails (fresh failing_env) = true)
    by reflexivity.
  assert (H4 : JsMap.size
                 (transports
                    (after_cap_check (now_sweep failing_env)
                       (final (authMiddleware sample_url sample_newURL
                                 (Some sample_auth) 0
                                 (initialize_request "token-a") initial))))
               < MAX_SESSIONS) by reflexivity.
  assert (H5 : JsMap.size (transports initial) < MAX_SESSIONS)
    by reflexivity.
  destruct (failed_construction_leaves_no_session is_initialize sample_url
              sample_newURL (Some sample_auth) 0 failing_env
              (initialize_request "token-a") initial H1 H2 H3 H4)
    as (Hv & _ & _ & _ & Hsame).
  destruct (Hsame H5) as [Ht Hl].
  repeat split; assumption.
Defined.

(** C4 with the header value [not-a-uuid] on the three routes, and with an
    empty header on POST. *)
Lemma malformed_session_id_rejected_witness :
  let auth := Some sample_auth in
  let i := parsed_request "token-a" (Some "not-a-uuid") true in
  let e := parsed_request "token-a" (Some EmptyString) true in
  isValidSessionId "not-a-uuid" = false /\
  value (mcp_route sample_url sample_newURL auth 0
           (post_mcp is_initialize (post_env id_a 0)) i initial)
    = Some invalid_format_error /\
  value (mcp_route sample_url sample_newURL auth 0
           (get_mcp delete_refused) i initial)
    = Some invalid_or_missing /\
  value (mcp_route sample_url sample_newURL auth 0
           (delete_mcp delete_refused) i initial)
    = Some invalid_or_missing /\
  mcp_route sample_url sample_newURL auth 0
    (post_mcp is_initialize (post_env id_a 0)) e initial =
  mcp_route sample_url sample_newURL auth 0
    (post_mcp is_initialize (post_env id_a 0))
    (parsed_request "token-a" None true) initial.
Proof.
  cbv zeta.
  assert (H1 : value (authMiddleware sample_url sample_newURL
                        (Some sample_auth) 0
                        (with_body
                           (parsed_request "token-a" (Some "not-a-uuid") true)
                           true)
                        initial) = Next) by reflexivity.
  assert (H3 : isValidSessionId "not-a-uuid" = false) by reflexivity.
  assert (H4 : "not-a-uuid" <> EmptyString) by discriminate.
  destruct (malformed_session_id_rejected is_initialize sample_url
              sample_newURL) as [Hbad Hempty].
  destruct (Hbad (Some sample_auth) 0
              (parsed_request "token-a" (Some "not-a-uuid") true) true
              initial "not-a-uuid" eq_refl H1 eq_refl H3)
    as (Hpost & Hget & Hdelete).
  split; [exact H3|]. split; [|split; [|split]].
  - apply (Hpost (post_env id_a 0) H4).
  - apply (Hget delete_refused).
  - apply (Hdelete delete_refused).
  - exact (Hempty (Some sample_auth) 0 (post_env id_a 0)
             (parsed_request "token-a" (Some EmptyString) true) initial
             eq_refl).
Defined.

(** C5 with a tool call that carries no session id. *)
Lemma post_without_session_requires_initialize_witness :
  let i := parsed_request "token-a" None false in
  let r :=
    mcp_route sample_url sample_newURL (Some sample_auth) 0
      (post_mcp is_initialize (post_env id_a 0)) i initial in
  in_body i = BodyParsed false /\
  is_initialize false = false /\
  value r = Some no_session_error /\
  transports (final r) = [] /\ sessionLastAccess (final r) = [] /\
  trace r = [].
Proof.
  cbv zeta.
  destruct (post_without_session_requires_initialize is_initialize
              sample_url sample_newURL (Some sample_auth) 0
              (post_env id_a 0) (parsed_request "token-a" None false) false
              initial eq_refl eq_refl eq_refl)
    as (Ht & Hl & Htr & Hnext & _).
  split; [reflexivity|]. split; [reflexivity|].
  split; [exact (Hnext eq_refl)|].
  split; [exact Ht|]. split; [exact Hl|exact Htr].
Defined.

(** C6 with two sessions, opened at times 0 and 1000000, and a sweep at
    2000000: the first is 2000 s old and goes, the second is 1000 s old and
    stays. *)
Lemma stale_sessions_evicted_witness :
  let es :=
    [ PostMcp (Some sample_auth) 0 (post_env id_a 0)
        (initialize_request "token-a");
      PostMcp (Some sample_auth) 1000000 (post_env id_b 1000000)
        (initialize_request "token-b") ] in
  let st := run is_initialize sample_url sample_newURL es initial in
  let r := evictStaleSessions 2000000 st in
  JsMap.get id_a (sessionLastAccess st) = Some 0 /\
  JsMap.get id_b (sessionLastAccess st) = Some 1000000 /\
  JsMap.get id_a (transports (final r)) = None /\
  JsMap.get id_a (sessionLastAccess (final r)) = None /\
  In (Close {| sessionId := Some id_a |}) (trace r) /\
  JsMap.get id_b (sessionLastAccess (final r)) = Some 1000000 /\
  JsMap.get id_b (transports (final r)) = Some {| sessionId := Some id_b |}.
Proof.
  cbv zeta.
  set (es := [ PostMcp (Some sample_auth) 0 (post_env id_a 0)
                 (initialize_request "token-a");
               PostMcp (Some sample_auth) 1000000 (post_env id_b 1000000)
                 (initialize_request "token-b") ]).
  destruct (stale_sessions_evicted is_initialize sample_url sample_newURL
              es 2000000) as (_ & Hold & Hyoung).
  assert (Ha : JsMap.get id_a
                 (sessionLastAccess
                    (run is_initialize sample_url sample_newURL es initial))
               = Some 0) by reflexivity.
  assert (Hb : JsMap.get id_b
                 (sessionLastAccess
                    (run is_initialize sample_url sample_newURL es initial))
               = Some 1000000) by reflexivity.
  destruct (Hold id_a 0 Ha) as (H1 & H2 & H3); [now vm_compute|].
  destruct (Hyoung id_b 1000000 Hb) as (H4 & H5); [now vm_compute|].
  split; [exact Ha|]. split; [exact Hb|]. split; [exact H1|].
  split; [exact H2|]. split; [apply H3; reflexivity|].
  split; [exact H4|]. rewrite H5. reflexivity.
Defined.

(** C8 with a request that has no [Authorization] header at all. *)
Lemma missing_bearer_challenge_witness :
  let i := anonymous_request (BodyParsed true) in
  lacks_bearer (with_body i true) /\
  exists challenge,
    value (mcp_route sample_url sample_newURL (Some sample_auth) 0
             (post_mcp is_initialize (post_env id_a 0)) i initial)
    = Some {| res_status := 401;
              res_www_authenticate := Some challenge;
              res_body := OAuthError "invalid_token"
                            "Missing Authorization header" |} /\
    exists pre,
      challenge =
      pre ++ ", resource_metadata=" ++ dq ++
      "https://mcp.example.com/.well-known/oauth-protected-resource/mcp" ++ dq.
Proof.
  cbv zeta. split; [exact I|].
  eexists. split.
  - rewrite (proj1 (proj2 (missing_bearer_challenge sample_url
                             sample_newURL))
               (Some sample_auth) 0
               (post_mcp is_initialize (post_env id_a 0))
               (anonymous_request (BodyParsed true)) true initial
               eq_refl I).
    reflexivity.
  - exists ("Bearer error=" ++ dq ++ "invalid_token" ++ dq ++
            ", error_description=" ++ dq ++
            "Missing Authorization header" ++ dq).
    reflexivity.
Defined.

(** * Further properties *)

(** ** The shape of a session id *)

Lemma regex_test_length re :
  forall s, regex_test re s = true -> String.length s = length re.
Proof.
  induction re as [|cl re IH]; intros [|c s]; simpl; try discriminate.
  - reflexivity.
  - intros H. apply andb_true_iff in H. destruct H as [_ H].
    now rewrite (IH _ H).
Qed.

Lemma regex_test_nth re :
  forall s i cl,
    regex_test re s = true -> nth_error re i = Some cl ->
    exists c, String.get i s = Some c /\ class_matches cl c = true.
Proof.
  induction re as [|cl0 re IH]; intros [|c s] i cl; simpl; try discriminate.
  - intros _ H. destruct i; discriminate.
  - intros H Hn. apply andb_true_iff in H. destruct H as [Hc H].
    destruct i as [|i]; simpl in *.
    + injection Hn as <-. now exists c.
    + now apply (IH s i cl).
Qed.

Lemma dash_class c : class_matches Dash c = true -> c = ascii_of_nat 45.
Proof.
  unfold class_matches, code. intros H. apply Nat.eqb_eq in H.
  now rewrite <- H, ascii_nat_embedding.
Qed.

Lemma four_class c : class_matches Four c = true -> c = ascii_of_nat 52.
Proof.
  unfold class_matches, code. intros H. apply Nat.eqb_eq in H.
  now rewrite <- H, ascii_nat_embedding.
Qed.

Lemma variant_class c : class_matches Variant c = true -> In c variant_chars.
Proof.
  destruct c as [[] [] [] [] [] [] [] []]; vm_compute; intros H;
    try discriminate; tauto.
Qed.

(** X1. An id that [isValidSessionId] accepts has exactly 36 characters,
    dashes at offsets 8, 13, 18 and 23, the version digit 4 at offset 14 and
    one of 8, 9, a, b, A, B at offset 19. *)
Theorem valid_session_id_shape :
  forall id,
    isValidSessionId id = true ->
    String.length id = 36%nat /\
    (forall i, In i [8; 13; 18; 23]%nat ->
               String.get i id = Some (ascii_of_nat 45)) /\
    String.get 14 id = Some (ascii_of_nat 52) /\
    exists c, String.get 19 id = Some c /\ In c variant_chars.
Proof.
  intros id H. unfold isValidSessionId in H.
  split; [exact (regex_test_length _ _ H)|]. split; [|split].
  - intros i Hi.
    assert (Hn : nth_error UUID_RE i = Some Dash).
    { simpl in Hi. destruct Hi as [<-|[<-|[<-|[<-|[]]]]]; reflexivity. }
    destruct (regex_test_nth _ _ _ _ H Hn) as (c & Hc & Hm).
    now rewrite Hc, (dash_class _ Hm).
  - destruct (regex_test_nth _ _ 14%nat Four H eq_refl) as (c & Hc & Hm).
    now rewrite Hc, (four_class _ Hm).
  - destruct (regex_test_nth _ _ 19%nat Variant H eq_refl) as (c & Hc & Hm).
    exists c. split; [exact Hc|]. now apply variant_class.
Qed.

Lemma valid_session_id_shape_witness :
  isValidSessionId id_a = true /\
  String.length id_a = 36%nat /\
  String.get 14 id_a = Some (ascii_of_nat 52).
Proof.
  destruct (valid_session_id_shape id_a eq_refl) as (Hl & _ & H4 & _).
  split; [reflexivity|]. split; [exact Hl|exact H4].
Defined.

(** ** Sessions with a last-access time have a transport *)

Lemma tracked_ext st st' :
  transports st' = transports st ->
  sessionLastAccess st' = sessionLastAccess st -> tracked st -> tracked st'.
Proof. unfold tracked. intros -> ->. auto. Qed.

Lemma tracked_delete_both k st : tracked st -> tracked (delete_both k st).
Proof.
  intros Ht k'. unfold delete_both, JsMap.has; simpl.
  destruct (string_dec k' k) as [->|Hne].
  - now rewrite !JsMapFacts.get_delete_eq.
  - rewrite !JsMapFacts.get_delete_neq by assumption. apply Ht.
Qed.

Lemma tracked_onclose t st : tracked st -> tracked (final (onclose t st)).
Proof.
  intros Ht. rewrite onclose_final. destruct (sessionId t) as [sid|]; [|auto].
  destruct (truthy (Some sid)); auto using tracked_delete_both.
Qed.

Lemma tracked_register sid now st : tracked st -> tracked (register sid now st).
Proof.
  intros Ht k. unfold register, JsMap.has; simpl.
  destruct (string_dec k sid) as [->|Hne].
  - now rewrite !JsMapFacts.get_set_eq.
  - rewrite !JsMapFacts.get_set_neq by assumption. apply Ht.
Qed.

Lemma tracked_touch sid now t st :
  JsMap.get sid (transports st) = Some t ->
  tracked st -> tracked (touch sid now st).
Proof.
  intros Hg Ht k. unfold touch, JsMap.has; simpl.
  destruct (string_dec k sid) as [->|Hne].
  - now rewrite Hg.
  - rewrite JsMapFacts.get_set_neq by assumption. apply Ht.
Qed.

Lemma tracked_forget_access sid st : tracked st -> tracked (forget_access sid st).
Proof.
  intros Ht k. unfold forget_access, JsMap.has; simpl.
  destruct (string_dec k sid) as [->|Hne].
  - now rewrite JsMapFacts.get_delete_eq.
  - rewrite JsMapFacts.get_delete_neq by assumption. apply Ht.
Qed.

Lemma tracked_evict now st :
  keyed st -> tracked st -> tracked (final (evictStaleSessions now st)).
Proof.
  intros Hk Ht k.
  destruct (evictStaleSessions_get now st Hk) as (_ & _ & Hget).
  destruct (Hget k) as [Hstale Hfresh]. unfold JsMap.has.
  destruct (JsMap.get k (sessionLastAccess st)) as [v|] eqn:Hv.
  - destruct (Z_lt_dec v (now - SESSION_TTL_MS)) as [Hlt|Hge].
    + destruct Hstale as [_ ->]; [|discriminate]. exists v. auto.
    + destruct Hfresh as [-> ->].
      * intros (v' & Hv' & Hlt). congruence.
      * specialize (Ht k). unfold JsMap.has in Ht. now rewrite Hv in *.
  - destruct Hfresh as [_ ->]; [|discriminate].
    intros (v' & Hv' & _). congruence.
Qed.

Lemma tracked_after_cap_check now st :
  keyed st -> tracked st -> tracked (after_cap_check now st).
Proof.
  unfold after_cap_check. destruct (_ >=? _); auto using tracked_evict.
Qed.

Lemma create_session_tracked env st :
  keyed st -> tracked st -> tracked (final (create_session env st)).
Proof.
  intros Hk Ht.
  destruct (create_session_final_cases env st) as [->|(_ & sid & ->)].
  - now apply tracked_after_cap_check.
  - destruct (closes (handled (fresh env)));
      auto using tracked_onclose, tracked_register, tracked_after_cap_check.
Qed.

(** ** Shutdown *)

Lemma shutdown_loop_closes entries :
  forall st k t,
    keyed st -> In k (map fst entries) ->
    JsMap.get k (transports st) = Some t ->
    In (Close t) (trace (for_of transports entries shutdown_entry st)).
Proof.
  induction entries as [|[k0 v0] rest IH]; intros st k t Hk Hin Ht.
  - destruct Hin.
  - simpl. destruct (string_dec k0 k) as [->|Hne].
    + rewrite Ht. cbn. now left.
    + destruct Hin as [Heq|Hin]; [simpl in Heq; congruence|].
      destruct (JsMap.get k0 (transports st)) as [t0|] eqn:Ht0.
      * change (In (Close t)
                  (trace (shutdown_entry k0 t0 st) ++
                   trace (for_of transports rest shutdown_entry
                            (final (shutdown_entry k0 t0 st))))).
        apply in_or_app. right.
        rewrite (shutdown_entry_keyed _ _ _ Hk Ht0).
        apply (IH _ k t); auto using keyed_delete_both.
        unfold delete_both; simpl.
        rewrite JsMapFacts.get_delete_neq; auto.
      * apply (IH _ k t); auto.
Qed.

Lemma gracefulShutdown_trace st :
  trace (gracefulShutdown st) =
  Access Transports OpEntries ::
  trace (for_of transports (transports st) shutdown_entry st).
Proof. reflexivity. Qed.

Lemma gracefulShutdown_clears st :
  keyed st -> tracked st ->
  transports (final (gracefulShutdown st)) = [] /\
  sessionLastAccess (final (gracefulShutdown st)) = [].
Proof.
  intros Hk Ht. rewrite gracefulShutdown_final.
  destruct (for_of_deletes transports shutdown_entry (fun _ => true)
              (fun k st => JsMapFacts.get_delete_eq k (transports st))
              (fun k k0 st H =>
                 JsMapFacts.get_delete_neq k k0 (transports st) H)
              (fun k v st H Hg => shutdown_entry_keyed k v st H Hg)
              (transports st) st Hk) as (_ & _ & Hget).
  assert (Hall : forall k,
    JsMap.get k (transports
      (final (for_of transports (transports st) shutdown_entry st))) = None /\
    JsMap.get k (sessionLastAccess
      (final (for_of transports (transports st) shutdown_entry st))) = None).
  { intros k. destruct (Hget k) as [Hhit Hmiss].
    destruct (JsMap.get k (transports st)) as [t|] eqn:Hg.
    - destruct Hhit as (H1 & H2 & _); [|auto].
      split.
      + apply JsMapFacts.get_in_keys. congruence.
      + exists t. auto.
    - destruct Hmiss as (H1 & H2 & _).
      + intros (_ & v & Hv & _). congruence.
      + split; [exact H1|]. rewrite H2.
        specialize (Ht k). unfold JsMap.has in Ht. rewrite Hg in Ht.
        destruct (JsMap.get k (sessionLastAccess st)); [|reflexivity].
        specialize (Ht eq_refl). discriminate. }
  split; apply JsMapFacts.all_absent_empty; intros k; apply Hall.
Qed.

Lemma tracked_empty st :
  sessionLastAccess st = [] -> tracked st.
Proof. intros H k. unfold JsMap.has. rewrite H. discriminate. Qed.

(** ** Reachable states *)

Lemma swept_sessions_fresh now st k v :
  keyed st ->
  JsMap.get k (sessionLastAccess (final (evictStaleSessions now st)))
    = Some v ->
  now - v <= SESSION_TTL_MS.
Proof.
  intros Hk Hv.
  destruct (evictStaleSessions_get now _ Hk) as (_ & _ & Hget).
  destruct (Hget k) as [Hstale Hfresh].
  destruct (Z_lt_dec v (now - SESSION_TTL_MS)) as [Hlt|Hge]; [|lia].
  exfalso.
  destruct (JsMap.get k (sessionLastAccess st)) as [v0|] eqn:Hv0.
  - destruct (Z_lt_dec v0 (now - SESSION_TTL_MS)) as [Hlt0|Hge0].
    + destruct Hstale as [_ Hnone]; [exists v0; auto|]. congruence.
    + destruct Hfresh as [_ Hsame].
      * intros (v' & Hv' & Hlt'). congruence.
      * rewrite Hsame in Hv. congruence.
  - destruct Hfresh as [_ Hsame].
    + intros (v' & Hv' & _). congruence.
    + rewrite Hsame in Hv. congruence.
Qed.

Section Reachable.
Context {Body : Type}.
Variable isInitializeRequest : Body -> bool.
Variable SERVER_URL : string.
Variable newURL : string -> URL.
Implicit Types (req : Request Body) (st : State).

Local Abbreviation mw := (authMiddleware SERVER_URL newURL).
Local Abbreviation route := (protected SERVER_URL newURL).
Local Abbreviation step' := (step isInitializeRequest SERVER_URL newURL).
Local Abbreviation run' := (run isInitializeRequest SERVER_URL newURL).

Lemma post_mcp_tracked env req st :
  keyed st -> tracked st ->
  tracked (final (post_mcp isInitializeRequest env req st)).
Proof.
  intros Hk Ht.
  destruct (post_mcp_final_cases isInitializeRequest env req st)
    as [-> | [-> | (sid & t & Hg & ->)]].
  - exact Ht.
  - now apply create_session_tracked.
  - destruct (closes (delegated env)); [apply tracked_onclose|];
      now apply (tracked_touch sid _ t).
Qed.

Lemma get_mcp_tracked env req st :
  tracked st -> tracked (final (get_mcp env req st)).
Proof.
  intros Ht.
  destruct (get_mcp_final_cases env req st) as [-> | (sid & t & Hg & ->)].
  - exact Ht.
  - destruct (closes (outcome env)); [apply tracked_onclose|];
      now apply (tracked_touch sid _ t).
Qed.

Lemma delete_mcp_tracked env req st :
  tracked st -> tracked (final (delete_mcp env req st)).
Proof.
  intros Ht.
  destruct (delete_mcp_final_cases env req st)
    as [-> | (sid & t & Hg & _ & ->)].
  - exact Ht.
  - destruct (closes (outcome env)); [apply tracked_onclose|];
      now apply tracked_forget_access.
Qed.

(** The invariant of every run: transports under their own ids, and no
    last-access entry without a transport. *)
Lemma step_sound e st :
  keyed st /\ tracked st ->
  keyed (final (step' e st)) /\ tracked (final (step' e st)).
Proof.
  intros [Hk Ht]. split; [now apply step_keyed|].
  assert (Hext : forall s s', transports s' = transports s ->
            sessionLastAccess s' = sessionLastAccess s ->
            keyed s /\ tracked s -> keyed s' /\ tracked s').
  { intros s s' H1 H2 [H3 H4]. split; [now apply (keyed_ext s)|].
    now apply (tracked_ext s). }
  destruct e as [auth now env req|auth now env req|auth now env req
                |now|t|]; cbn [step bind final ret].
  - apply (protected_preserves SERVER_URL newURL
             (fun s => keyed s /\ tracked s)); auto.
    intros s [H1 H2]. split; [now apply post_mcp_keyed|].
    now apply post_mcp_tracked.
  - apply (protected_preserves SERVER_URL newURL
             (fun s => keyed s /\ tracked s)); auto.
    intros s [H1 H2]. split; [now apply get_mcp_keyed|].
    now apply get_mcp_tracked.
  - apply (protected_preserves SERVER_URL newURL
             (fun s => keyed s /\ tracked s)); auto.
    intros s [H1 H2]. split; [now apply delete_mcp_keyed|].
    now apply delete_mcp_tracked.
  - now apply tracked_evict.
  - now apply tracked_onclose.
  - apply tracked_empty. now apply gracefulShutdown_clears.
Qed.

Lemma run_sound es :
  forall st, keyed st /\ tracked st ->
             keyed (run' es st) /\ tracked (run' es st).
Proof.
  induction es as [|e es IH]; intros st H; simpl; [exact H|].
  apply IH, step_sound, H.
Qed.

Lemma sound_initial : keyed initial /\ tracked initial.
Proof. split; [apply keyed_initial|]. intros k. discriminate. Qed.

(** X2. In every state the server reaches, each transport in the map is
    registered under its own [sessionId], and every id that has a
    last-access time has a transport: however requests, timers, closes and
    failures interleave, [sessionLastAccess] never holds an id that
    [transports] lacks. *)
Theorem reachable_states_are_sound :
  forall es,
    let st := run' es initial in
    (forall k t, JsMap.get k (transports st) = Some t ->
                 sessionId t = Some k) /\
    (forall k, JsMap.has k (sessionLastAccess st) = true ->
               JsMap.has k (transports st) = true).
Proof. intros es. exact (run_sound es initial sound_initial). Qed.

(** X3. When every DELETE that reaches a transport closes it, both maps hold
    exactly the same session ids in every state the server reaches. *)
Theorem maps_in_step_when_deletes_close :
  forall es,
    Forall delete_closes es ->
    forall k, JsMap.has k (transports (run' es initial)) =
              JsMap.has k (sessionLastAccess (run' es initial)).
Proof.
  intros es Hall. exact (proj2 (run_in_step isInitializeRequest SERVER_URL
                                   newURL es initial Hall in_step_initial)).
Qed.

(** X4. Graceful shutdown from any state the server reaches closes every
    live transport and leaves both session maps empty. *)
Theorem shutdown_closes_and_clears :
  forall es,
    let st := run' es initial in
    let r := gracefulShutdown st in
    transports (final r) = [] /\
    sessionLastAccess (final r) = [] /\
    forall k t, JsMap.get k (transports st) = Some t -> In (Close t) (trace r).
Proof.
  intros es. cbv zeta.
  destruct (run_sound es initial sound_initial) as [Hk Ht].
  destruct (gracefulShutdown_clears _ Hk Ht) as [H1 H2].
  split; [exact H1|]. split; [exact H2|].
  intros k t Hg. rewrite gracefulShutdown_trace. right.
  apply (shutdown_loop_closes _ _ k t Hk); [|exact Hg].
  apply JsMapFacts.get_in_keys. congruence.
Qed.

(** X5. After a sweep at time [now], in any state the server reaches, no
    session left in [sessionLastAccess] is older than the idle TTL. *)
Theorem no_stale_session_after_sweep :
  forall es now k v,
    let st := run' es initial in
    JsMap.get k (sessionLastAccess (final (evictStaleSessions now st)))
      = Some v ->
    now - v <= SESSION_TTL_MS.
Proof.
  intros es now k v. cbv zeta.
  apply swept_sessions_fresh.
  exact (run_keyed isInitializeRequest SERVER_URL newURL es initial
           keyed_initial).
Qed.

(** X6. The sweep is idempotent: in any state the server reaches, a second
    sweep at the same time changes nothing. *)
Theorem sweep_idempotent :
  forall es now,
    let st := run' es initial in
    let swept := final (evictStaleSessions now st) in
    final (evictStaleSessions now swept) = swept.
Proof.
  intros es now. cbv zeta.
  apply evictStaleSessions_nothing_stale. intros k v Hv.
  pose proof (swept_sessions_fresh now _ k v
                (run_keyed isInitializeRequest SERVER_URL newURL es initial
                   keyed_initial) Hv).
  lia.
Qed.
End Reachable.

(** X7. Whatever the state, the sweep never adds a session and never
    changes the transport or the last-access time of one it keeps, and the
    session count does not grow. *)
Theorem sweep_only_deletes :
  forall now st,
    let st' := final (evictStaleSessions now st) in
    (forall k t, JsMap.get k (transports st') = Some t ->
                 JsMap.get k (transports st) = Some t) /\
    (forall k v, JsMap.get k (sessionLastAccess st') = Some v ->
                 JsMap.get k (sessionLastAccess st) = Some v) /\
    JsMap.size (transports st') <= JsMap.size (transports st).
Proof.
  intros now st. cbv zeta.
  destruct (only_deleted_evict now st) as [H1 H2].
  split; [exact H1|]. split; [exact H2|]. apply evictStaleSessions_size.
Qed.

(** ** More on the three handlers *)




Lemma handleRequest_new_value i st :
  value (handleRequest_new i st) = finish (handled i).
Proof.
  unfold handleRequest_new.
  destruct (generated i) as [sid|]; destruct (closes (handled i));
    reflexivity.
Qed.

Section Sessions.
Context {Body : Type}.
Variable isInitializeRequest : Body -> bool.
Variable SERVER_URL : string.
Variable newURL : string -> URL.
Implicit Types (req : Request Body) (st : State).

Local Abbreviation mw := (authMiddleware SERVER_URL newURL).
Local Abbreviation route := (protected SERVER_URL newURL).
Local Abbreviation run' := (run isInitializeRequest SERVER_URL newURL).

(** What the [catch] block of the POST handler makes of a completion. *)
Lemma post_mcp_known env req st sid t :
  mcp_session_id req = Some sid -> isValidSessionId sid = true ->
  JsMap.get sid (transports st) = Some t ->
  final (post_mcp isInitializeRequest env req st) =
    (if closes (delegated env)
     then final (onclose t (touch sid (now_access env) st))
     else touch sid (now_access env) st) /\
  value (post_mcp isInitializeRequest env req st) =
    (if throws (delegated env)
     then match written (delegated env) with
          | Some res => Some res
          | None => Some internal_error
          end
     else written (delegated env)).
Proof.
  intros Hh Hv Hg. unfold post_mcp, post_try.
  rewrite Hh, Hv, (valid_is_truthy _ Hv). cbn.
  unfold JsMap.has. rewrite Hg. cbn. rewrite ?Hg. cbn.
  unfold handleRequest, finish.
  destruct (closes (delegated env)); cbn;
    destruct (throws (delegated env));
    destruct (written (delegated env)); split; reflexivity.
Qed.

Lemma get_mcp_known env req st sid t :
  mcp_session_id req = Some sid -> isValidSessionId sid = true ->
  JsMap.get sid (transports st) = Some t ->
  final (get_mcp env req st) =
    (if closes (outcome env)
     then final (onclose t (touch sid (now_touch env) st))
     else touch sid (now_touch env) st) /\
  value (get_mcp env req st) = express_finish (finish (outcome env)).
Proof.
  intros Hh Hv Hg. unfold get_mcp.
  rewrite Hh, Hv, (valid_is_truthy _ Hv). cbn.
  unfold JsMap.has. rewrite Hg. cbn. rewrite ?Hg. cbn.
  unfold handleRequest.
  destruct (closes (outcome env)); split; reflexivity.
Qed.

Lemma delete_mcp_known env req st sid t :
  mcp_session_id req = Some sid -> isValidSessionId sid = true ->
  JsMap.get sid (transports st) = Some t ->
  final (delete_mcp env req st) =
    (if closes (outcome env)
     then final (onclose t (forget_access sid st))
     else forget_access sid st) /\
  value (delete_mcp env req st) = express_finish (finish (outcome env)).
Proof.
  intros Hh Hv Hg. unfold delete_mcp.
  rewrite Hh, Hv, (valid_is_truthy _ Hv). cbn.
  unfold JsMap.has. rewrite Hg. cbn. rewrite ?Hg. cbn.
  unfold handleRequest.
  destruct (closes (outcome env)); split; reflexivity.
Qed.

(** X8. A session-opening POST that the cap check lets through, whose
    transport is built and connected and accepts the initialize message with
    the generated id [sid], registers [sid] in both maps, with the new
    transport and the time of registration, leaves every other session as
    the cap check left it, keeps the count within the cap and answers with
    what the transport wrote. *)
Theorem initialize_registers_session :
  forall auth now env req st sid,
    value (mw auth now req st) = Next ->
    opens_session isInitializeRequest req st = true ->
    let st0 := final (mw auth now req st) in
    let st1 := after_cap_check (now_sweep env) st0 in
    JsMap.size (transports st1) < MAX_SESSIONS ->
    construction_fails (fresh env) = false ->
    generated (fresh env) = Some sid ->
    closes (handled (fresh env)) = false ->
    throws (handled (fresh env)) = false ->
    let r := route auth now (post_mcp isInitializeRequest env) req st in
    value r = written (handled (fresh env)) /\
    JsMap.get sid (transports (final r)) = Some {| sessionId := Some sid |} /\
    JsMap.get sid (sessionLastAccess (final r))
      = Some (now_init (fresh env)) /\
    (forall k, k <> sid ->
       JsMap.get k (transports (final r)) = JsMap.get k (transports st1) /\
       JsMap.get k (sessionLastAccess (final r))
         = JsMap.get k (sessionLastAccess st1)) /\
    JsMap.size (transports (final r)) <= MAX_SESSIONS.
Proof.
  intros auth now env req st sid Hnext Hopens. cbv zeta.
  intros Hlt Hok Hgen Hopen Hthrow.
  destruct (authMiddleware_frame SERVER_URL newURL auth now req st)
    as (Ht & Hl & _).
  destruct (protected_next SERVER_URL newURL auth now
              (post_mcp isInitializeRequest env) req st Hnext)
    as (Hv & Hf & _).
  rewrite <- (opens_session_ext isInitializeRequest req st _ Ht) in Hopens.
  destruct (post_mcp_opens isInitializeRequest env req _ Hopens)
    as (Hpf & Hpv & _).
  destruct (create_session_not_busy env _ Hlt) as [Hcv Hcf].
  rewrite Hok in Hcv, Hcf.
  rewrite handleRequest_new_value in Hcv.
  rewrite handleRequest_new_final, Hgen, Hopen in Hcf.
  rewrite Hv, Hf, Hpv, Hpf, Hcv, Hcf. unfold finish. rewrite Hthrow.
  split; [reflexivity|]. unfold register; simpl.
  rewrite !JsMapFacts.get_set_eq.
  split; [reflexivity|]. split; [reflexivity|]. split.
  - intros k Hne. now rewrite !JsMapFacts.get_set_neq.
  - pose proof (JsMapFacts.size_set_le sid {| sessionId := Some sid |}
                  (transports (after_cap_check (now_sweep env)
                     (final (mw auth now req st))))).
    lia.
Qed.

(** X9. A POST for a known session whose transport stays open sets the
    session's last-access time to the time of the request and changes
    nothing else in the maps. The response is what the transport wrote; if
    the transport throws before anything was sent the response is the
    JSON-RPC internal error with HTTP 500, and if it throws after it sent a
    response that response stands. *)
Theorem post_to_known_session :
  forall auth now env req st sid t,
    value (mw auth now req st) = Next ->
    mcp_session_id req = Some sid ->
    isValidSessionId sid = true ->
    JsMap.get sid (transports st) = Some t ->
    closes (delegated env) = false ->
    let r := route auth now (post_mcp isInitializeRequest env) req st in
    transports (final r) = transports st /\
    sessionLastAccess (final r)
      = JsMap.set sid (now_access env) (sessionLastAccess st) /\
    JsMap.get sid (sessionLastAccess (final r)) = Some (now_access env) /\
    value r =
      (if throws (delegated env)
       then match written (delegated env) with
            | Some res => Some res
            | None => Some internal_error
            end
       else written (delegated env)).
Proof.
  intros auth now env req st sid t Hnext Hh Hvalid Hg Hopen. cbv zeta.
  destruct (authMiddleware_frame SERVER_URL newURL auth now req st)
    as (Ht & Hl & _).
  destruct (protected_next SERVER_URL newURL auth now
              (post_mcp isInitializeRequest env) req st Hnext)
    as (Hv & Hf & _).
  rewrite <- Ht in Hg.
  destruct (post_mcp_known env req _ sid t Hh Hvalid Hg) as [Hpf Hpv].
  rewrite Hopen in Hpf. rewrite Hv, Hf, Hpv, Hpf. unfold touch; simpl.
  rewrite Ht, Hl, JsMapFacts.get_set_eq. auto.
Qed.

(** X10. A GET or DELETE that has no session-id header, or names a
    well-formed id the server does not know, is answered with HTTP 400
    "Invalid or missing session ID"; the maps are unchanged and at most
    looked up once with [transports.has]. *)
Theorem unknown_session_refused :
  forall auth now env req st,
    value (mw auth now req st) = Next ->
    (mcp_session_id req = None \/
     exists sid, mcp_session_id req = Some sid /\
                 JsMap.get sid (transports st) = None) ->
    forall handler,
      handler = get_mcp env \/ handler = delete_mcp env ->
      let r := route auth now handler req st in
      value r = Some invalid_or_missing /\
      res_status invalid_or_missing = 400 /\
      transports (final r) = transports st /\
      sessionLastAccess (final r) = sessionLastAccess st /\
      forall e, In e (trace r) -> exists k, e = Access Transports (OpHas k).
Proof.
  intros auth now env req st Hnext Hunknown handler Hh. cbv zeta.
  destruct (authMiddleware_frame SERVER_URL newURL auth now req st)
    as (Ht & Hl & _).
  destruct (protected_next SERVER_URL newURL auth now handler req st Hnext)
    as (Hv & Hf & Htr).
  rewrite Hv, Hf, Htr, <- Ht, <- Hl.
  assert (Hunknown' :
    mcp_session_id req = None \/
    exists sid, mcp_session_id req = Some sid /\
                JsMap.get sid (transports (final (mw auth now req st)))
                = None).
  { destruct Hunknown as [Hnone|(sid & Hsome & Hg)]; [now left|].
    right. exists sid. now rewrite Ht. }
  clear Hunknown Hv Hf Htr Ht Hl.
  set (s0 := final (mw auth now req st)) in *.
  assert (Hrun :
    handler req s0 = mkRun (Some invalid_or_missing) s0 [] \/
    exists sid,
      handler req s0 =
      mkRun (Some invalid_or_missing) s0 [Access Transports (OpHas sid)]).
  { destruct Hunknown' as [Hnone|(sid & Hsome & Hg)].
    - left. destruct Hh as [-> | ->]; unfold get_mcp, delete_mcp;
        now rewrite Hnone.
    - destruct Hh as [-> | ->]; unfold get_mcp, delete_mcp; rewrite Hsome;
        (destruct (negb (truthy (Some sid)) || negb (isValidSessionId sid))%bool;
         [left; reflexivity
         |right; exists sid; unfold bind, transports_has, JsMap.has;
          cbn [value final trace]; rewrite Hg; reflexivity]). }
  destruct Hrun as [-> | (sid & ->)]; simpl.
  - repeat split; auto. intros e [].
  - repeat split; auto. intros e [<-|[]]. now exists sid.
Qed.

(** X11. A POST that names a well-formed session id the server does not
    know and does not carry an initialize message is answered like one
    without a session id: HTTP 400 "No valid session ID provided", with the
    maps unchanged. *)
Theorem post_unknown_session_requires_initialize :
  forall auth now env req st sid,
    value (mw auth now req st) = Next ->
    mcp_session_id req = Some sid ->
    isValidSessionId sid = true ->
    JsMap.get sid (transports st) = None ->
    isInitializeRequest (req_body req) = false ->
    let r := route auth now (post_mcp isInitializeRequest env) req st in
    value r = Some no_session_error /\
    res_status no_session_error = 400 /\
    transports (final r) = transports st /\
    sessionLastAccess (final r) = sessionLastAccess st.
Proof.
  intros auth now env req st sid Hnext Hh Hvalid Hg Hbody. cbv zeta.
  destruct (authMiddleware_frame SERVER_URL newURL auth now req st)
    as (Ht & Hl & _).
  destruct (protected_next SERVER_URL newURL auth now
              (post_mcp isInitializeRequest env) req st Hnext)
    as (Hv & Hf & _).
  rewrite Hv, Hf. rewrite <- Ht in Hg.
  unfold post_mcp, post_try, new_session.
  rewrite Hh, Hvalid, (valid_is_truthy _ Hvalid). cbn.
  unfold JsMap.has. rewrite Hg. cbn. rewrite Hbody. cbn. auto.
Qed.

(** X12. In any state the server reaches, a DELETE for a known session
    whose transport closes removes that session from both maps and leaves
    every other session untouched. *)
Theorem delete_terminates_session :
  forall es auth now env req sid t,
    let st := run' es initial in
    value (mw auth now req st) = Next ->
    mcp_session_id req = Some sid ->
    isValidSessionId sid = true ->
    JsMap.get sid (transports st) = Some t ->
    closes (outcome env) = true ->
    let r := route auth now (delete_mcp env) req st in
    JsMap.get sid (transports (final r)) = None /\
    JsMap.get sid (sessionLastAccess (final r)) = None /\
    (forall k, k <> sid ->
       JsMap.get k (transports (final r)) = JsMap.get k (transports st) /\
       JsMap.get k (sessionLastAccess (final r))
         = JsMap.get k (sessionLastAccess st)) /\
    In (Close t) (trace r).
Proof.
  intros es auth now env req sid t. cbv zeta.
  intros Hnext Hh Hvalid Hg Hcloses.
  pose proof (run_keyed isInitializeRequest SERVER_URL newURL es initial
                keyed_initial) as Hk.
  set (st := run' es initial) in *.
  destruct (authMiddleware_frame SERVER_URL newURL auth now req st)
    as (Ht & Hl & _).
  destruct (protected_next SERVER_URL newURL auth now (delete_mcp env)
              req st Hnext) as (Hv & Hf & Htr).
  assert (Hg0 : JsMap.get sid (transports (final (mw auth now req st)))
                = Some t) by now rewrite Ht.
  destruct (delete_mcp_known env req _ sid t Hh Hvalid Hg0) as [Hdf _].
  rewrite Hcloses, onclose_final, (Hk _ _ Hg),
    (valid_is_truthy _ Hvalid) in Hdf.
  rewrite Hf, Hdf, Htr. unfold delete_both, forget_access; simpl.
  rewrite Ht, Hl, !JsMapFacts.get_delete_eq.
  split; [reflexivity|]. split; [reflexivity|]. split.
  - intros k Hne. now rewrite !JsMapFacts.get_delete_neq.
  - unfold delete_mcp. rewrite Hh, Hvalid, (valid_is_truthy _ Hvalid).
    cbn. unfold JsMap.has. rewrite Hg0. cbn. rewrite Hg0. cbn.
    unfold handleRequest. rewrite Hcloses. cbn. auto 10.
Qed.

(** X13. In any state the server reaches, a session that a GET has just
    touched at time [now_touch] survives every sweep that runs no later than
    the idle TTL after that time, with its transport. *)
Theorem touched_session_survives_sweep :
  forall es auth now env req sid t sweep_time,
    let st := run' es initial in
    value (mw auth now req st) = Next ->
    mcp_session_id req = Some sid ->
    isValidSessionId sid = true ->
    JsMap.get sid (transports st) = Some t ->
    closes (outcome env) = false ->
    sweep_time - now_touch env <= SESSION_TTL_MS ->
    let touched := final (route auth now (get_mcp env) req st) in
    let swept := final (evictStaleSessions sweep_time touched) in
    JsMap.get sid (transports swept) = Some t /\
    JsMap.get sid (sessionLastAccess swept) = Some (now_touch env).
Proof.
  intros es auth now env req sid t sweep_time. cbv zeta.
  intros Hnext Hh Hvalid Hg Hopen Hage.
  pose proof (run_keyed isInitializeRequest SERVER_URL newURL es initial
                keyed_initial) as Hk.
  set (st := run' es initial) in *.
  destruct (authMiddleware_frame SERVER_URL newURL auth now req st)
    as (Ht & Hl & _).
  destruct (protected_next SERVER_URL newURL auth now (get_mcp env)
              req st Hnext) as (_ & Hf & _).
  assert (Hg0 : JsMap.get sid (transports (final (mw auth now req st)))
                = Some t) by now rewrite Ht.
  destruct (get_mcp_known env req _ sid t Hh Hvalid Hg0) as [Hgf _].
  rewrite Hopen in Hgf. rewrite Hf, Hgf.
  set (touched := touch sid (now_touch env) (final (mw auth now req st))).
  assert (Hkt : keyed touched).
  { apply (keyed_ext st); [unfold touched, touch; simpl; exact Ht|exact Hk]. }
  assert (Hla : JsMap.get sid (sessionLastAccess touched)
                = Some (now_touch env)).
  { unfold touched, touch; simpl. apply JsMapFacts.get_set_eq. }
  destruct (evictStaleSessions_keyed_spec sweep_time touched sid
              (now_touch env) Hkt Hla) as [_ Hkeep].
  destruct (Hkeep Hage) as [H1 H2].
  split; [|exact H1]. rewrite H2. unfold touched, touch; simpl. exact Hg0.
Qed.

End Sessions.

(** ** More on the bearer middleware *)

Lemma includes_In l s : includes l s = true <-> In s l.
Proof.
  unfold includes. rewrite existsb_exists. split.
  - intros (x & Hin & Heq). apply String.eqb_eq in Heq. now subst.
  - intros Hin. exists s. split; [exact Hin|apply String.eqb_refl].
Qed.

Lemma covers_spec required granted :
  forallb (includes granted) required = true <->
  forall s, In s required -> In s granted.
Proof.
  rewrite forallb_forall. split; intros H s Hs.
  - now apply includes_In, H.
  - now apply includes_In, H.
Qed.

Lemma split_on_nonempty sep s : split_on sep s <> [].
Proof.
  destruct s as [|c s]; simpl; [discriminate|].
  destruct (Ascii.eqb c sep); [discriminate|].
  destruct (split_on sep s); discriminate.
Qed.

Lemma join_split sep s :
  join (String sep EmptyString) (split_on sep s) = s.
Proof.
  unfold join. induction s as [|c s IH]; [reflexivity|].
  simpl. destruct (Ascii.eqb_spec c sep) as [->|Hne].
  - pose proof (split_on_nonempty sep s) as Hn.
    destruct (split_on sep s) as [|w ws]; [congruence|].
    simpl in *. now rewrite IH.
  - destruct (split_on sep s) as [|w ws] eqn:E.
    + now destruct (split_on_nonempty sep s).
    + simpl in *. destruct ws; now rewrite <- IH.
Qed.

(** X15. A context that [verifyAccessToken] returns carries the presented
    token and the client id of the session; its scope list is never empty
    and, when the session has a scope string, joins back to that string with
    single spaces; its expiry is the session's expiry in whole seconds,
    rounded down, or one hour after [now] when the session has none. *)
Theorem verified_context :
  forall auth now tok info,
    verifyAccessToken auth now tok = Ok info ->
    exists a session,
      auth = Some a /\ getMcpSession a tok = Ok (Some session) /\
      token info = tok /\
      clientId info = ms_clientId session /\
      scopes info <> [] /\
      (forall s, ms_scopes session = Some s -> join " " (scopes info) = s) /\
      (ms_scopes session = None -> scopes info = ["openid"]) /\
      (forall ms, ms_accessTokenExpiresAt session = Some ms ->
                  1000 * expiresAt info <= ms < 1000 * expiresAt info + 1000) /\
      (ms_accessTokenExpiresAt session = None ->
       expiresAt info = now / 1000 + 3600).
Proof.
  intros auth now tok info. unfold verifyAccessToken, getAuth.
  destruct auth as [a|]; [|discriminate].
  destruct (getMcpSession a tok) as [[session|]|m] eqn:Hs; try discriminate.
  intros [= <-]. exists a, session. cbn [token clientId scopes expiresAt].
  split; [reflexivity|]. split; [exact Hs|]. split; [reflexivity|].
  split; [reflexivity|]. split; [|split; [|split; [|split]]].
  - destruct (ms_scopes session); [apply split_on_nonempty|discriminate].
  - intros s ->. apply (join_split (ascii_of_nat 32)).
  - now intros ->.
  - intros ms ->.
    pose proof (Z.mul_div_le ms 1000 ltac:(lia)).
    pose proof (Z.mul_succ_div_gt ms 1000 ltac:(lia)). lia.
  - now intros ->.
Qed.

Lemma verified_context_witness :
  verifyAccessToken (Some sample_auth) 0 "token-a" = Ok info_a /\
  join " " (scopes info_a) = "openid profile" /\
  1000 * expiresAt info_a <= 1700000000000.
Proof.
  destruct (verified_context (Some sample_auth) 0 "token-a" info_a eq_refl)
    as (a & session & Ha & Hs & _ & _ & _ & Hjoin & _ & Hexp & _).
  injection Ha as <-. injection Hs as <-.
  split; [reflexivity|]. split; [exact (Hjoin _ eq_refl)|].
  exact (proj1 (Hexp _ eq_refl)).
Defined.

Section BearerOutcomes.
Context {Body : Type}.
Implicit Types (req : Request Body) (st : State).

(** X16. The middleware ends in exactly one of three ways. It calls
    [next()], with the verified context in [app.locals.auth], when the
    header carries a bearer token that verifies and whose scopes cover every
    required scope. It answers 401 [invalid_token], with the reason in the
    challenge, when there is no bearer token or it does not verify. It
    answers 403 [insufficient_scope] when a required scope is missing. A
    rejection leaves the state untouched, and no outcome reads or writes the
    session maps. *)
Theorem bearer_outcomes :
  forall options auth now req st,
    let r := requireBearerAuth options auth now req st in
    transports (final r) = transports st /\
    sessionLastAccess (final r) = sessionLastAccess st /\
    trace r = [] /\
    ((value r = Next /\
      exists h info,
        authorization req = Some h /\ startsWith h "Bearer " = true /\
        verifyAccessToken auth now (slice 7 h) = Ok info /\
        (forall s, In s (requiredScopes options) -> In s (scopes info)) /\
        locals_auth (final r) = Some info) \/
     (final r = st /\
      exists msg,
        value r =
          Responded
            {| res_status := 401;
               res_www_authenticate :=
                 Some (buildWwwAuth options "invalid_token" msg);
               res_body := OAuthError "invalid_token" msg |} /\
        (lacks_bearer req \/
         exists h m,
           authorization req = Some h /\
           verifyAccessToken auth now (slice 7 h) = Throw m)) \/
     (final r = st /\
      exists res h info s,
        value r = Responded res /\ res_status res = 403 /\
        res_body res =
          OAuthError "insufficient_scope"
            ("Required scopes: " ++ join ", " (requiredScopes options)) /\
        authorization req = Some h /\
        verifyAccessToken auth now (slice 7 h) = Ok info /\
        In s (requiredScopes options) /\ ~ In s (scopes info))).
Proof.
  intros options auth now req st. cbv zeta.
  destruct (requireBearerAuth_frame options auth now req st)
    as (Ht & Hl & Htr).
  split; [exact Ht|]. split; [exact Hl|]. split; [exact Htr|].
  unfold requireBearerAuth, lacks_bearer.
  destruct (authorization req) as [h|] eqn:Hh.
  - destruct (startsWith h "Bearer ") eqn:Hb.
    + destruct (verifyAccessToken auth now (slice 7 h)) as [info|m] eqn:Hv.
      * destruct (0 <? Z.of_nat (length (requiredScopes options))) eqn:Hreq.
        -- destruct (forallb (includes (scopes info))
                       (requiredScopes options)) eqn:Hcov; cbn.
           ++ left. split; [reflexivity|]. exists h, info.
              repeat split; auto. now apply covers_spec.
           ++ right. right. split; [reflexivity|].
              assert (Hmiss : exists s, In s (requiredScopes options) /\
                                        ~ In s (scopes info)).
              { clear - Hcov.
                induction (requiredScopes options) as [|s l IH];
                  [discriminate|].
                simpl in Hcov. apply andb_false_iff in Hcov.
                destruct Hcov as [Hs|Hl].
                - exists s. split; [now left|]. intros Hin.
                  apply includes_In in Hin. congruence.
                - destruct (IH Hl) as (s' & Hin & Hno).
                  exists s'. split; [now right|exact Hno]. }
              destruct Hmiss as (s & Hin & Hno).
              eexists _, h, info, s. repeat split; auto.
        -- cbn. left. split; [reflexivity|]. exists h, info.
           repeat split; auto.
           intros s Hs. apply Z.ltb_ge in Hreq.
           destruct (requiredScopes options); [destruct Hs|].
           simpl length in Hreq. lia.
      * cbn. right. left. split; [reflexivity|].
        eexists. split; [reflexivity|]. right. now exists h, m.
    + cbn. right. left. split; [reflexivity|].
      eexists. split; [reflexivity|]. now left.
  - cbn. right. left. split; [reflexivity|].
    eexists. split; [reflexivity|]. now left.
Qed.
End BearerOutcomes.

Section McpMiddleware.
Context {Body : Type}.
Variable SERVER_URL : string.
Variable newURL : string -> URL.
Implicit Types (req : Request Body) (st : State).

(** X17. The middleware of the /mcp routes requires no scope: it never
    answers 403. It calls [next()] exactly when the header carries a bearer
    token that verifies, and every response it writes itself is a 401. *)
Theorem mcp_middleware_never_forbids :
  forall auth now req st,
    let r := authMiddleware SERVER_URL newURL auth now req st in
    (value r = Next <->
     exists h info,
       authorization req = Some h /\ startsWith h "Bearer " = true /\
       verifyAccessToken auth now (slice 7 h) = Ok info) /\
    (forall res, value r = Responded res -> res_status res = 401).
Proof.
  intros auth now req st. cbv zeta.
  unfold authMiddleware, requireBearerAuth.
  cbn [requiredScopes length Z.of_nat Z.ltb Z.compare andb].
  destruct (authorization req) as [h|].
  - destruct (startsWith h "Bearer ") eqn:Hb.
    + destruct (verifyAccessToken auth now (slice 7 h)) as [info|m] eqn:Hv;
        cbn [value ret bind set_locals_auth].
      * split; [|discriminate]. split; [|reflexivity].
        intros _. exists h, info. auto.
      * split; [|now intros res [= <-]].
        split; [discriminate|]. intros (h' & info & Hh & _ & Hv').
        inversion Hh; subst h'. rewrite Hv in Hv'. discriminate.
    + cbn [value ret]. split; [|now intros res [= <-]].
      split; [discriminate|]. intros (h' & info & Hh & Hb' & _).
      inversion Hh; subst h'. rewrite Hb in Hb'. discriminate.
  - cbn [value ret]. split; [|now intros res [= <-]].
    split; [discriminate|]. intros (h' & info & Hh & _). discriminate.
Qed.
End McpMiddleware.

(** ** What the auth routes answer *)

Lemma dispatch_cons a totalHits m path r rest :
  dispatch a totalHits m path (r :: rest) =
  if route_matches m path r then
    match run_chain a totalHits m (route_handlers r) with
    | CallsNext => dispatch a totalHits m path rest
    | s => s
    end
  else dispatch a totalHits m path rest.
Proof. reflexivity. Qed.

(** The table, route by route, with the patterns left as they are. *)
Lemma dispatch_mountAuthRoutes a totalHits m path :
  dispatch a totalHits m path mountAuthRoutes =
  if path_matches (Splat "/api/auth") path then
    if totalHits >? 30 then Ends too_many_requests else Elsewhere
  else if (method_eqb m OPTIONS &&
           path_matches (Exact "/.well-known/oauth-authorization-server")
             path)%bool
  then Ends (respond 204 (Opaque EmptyString))
  else if ((method_eqb m GET || method_eqb m HEAD) &&
           path_matches (Exact "/.well-known/oauth-authorization-server")
             path)%bool
  then Ends (respond 200 (Opaque (getOAuthServerConfig a)))
  else if (method_eqb m OPTIONS &&
           existsb (fun q => path_matches (Exact q) path) prmPaths)%bool
  then Ends (respond 204 (Opaque EmptyString))
  else if ((method_eqb m GET || method_eqb m HEAD) &&
           existsb (fun q => path_matches (Exact q) path) prmPaths)%bool
  then Ends (respond 200 (Opaque (getMCPProtectedResource a)))
  else if ((method_eqb m GET || method_eqb m HEAD) &&
           path_matches (Exact "/sign-in") path)%bool
  then if totalHits >? 10 then Ends too_many_requests else Elsewhere
  else CallsNext.
Proof.
  unfold mountAuthRoutes. cbn [app flat_map prmPaths existsb].
  rewrite !dispatch_cons. unfold route_matches.
  cbn [route_method route_path route_handlers dispatch].
  generalize (path_matches (Splat "/api/auth") path).
  generalize (path_matches (Exact "/.well-known/oauth-authorization-server")
                path).
  generalize (path_matches (Exact "/.well-known/oauth-protected-resource/mcp")
                path).
  generalize (path_matches (Exact "/.well-known/oauth-protected-resource")
                path).
  generalize (path_matches (Exact "/sign-in") path).
  intros b4 b3 b2 b1 b0.
  destruct b0.
  { cbn. destruct (totalHits >? 30); reflexivity. }
  destruct b1, b2, b3, b4, m; cbn; try reflexivity;
    destruct (totalHits >? 10); reflexivity.
Qed.





(** ** The demo user and the sign-in page *)

Lemma prefix_app (p post : string) : String.prefix p (p ++ post) = true.
Proof.
  induction p as [|c p IH]; cbn.
  - destruct post; reflexivity.
  - destruct (ascii_dec c c) as [_|n]; [exact IH | now destruct n].
Qed.

Lemma prefix_inv (p s : string) :
  String.prefix p s = true -> exists post, s = p ++ post.
Proof.
  revert s. induction p as [|c p IH]; intros s H.
  - exists s. reflexivity.
  - destruct s as [|d s]; cbn in H; [discriminate|].
    destruct (ascii_dec c d) as [E|E]; [|discriminate].
    subst d.
    destruct (IH _ H) as [post ->]. exists post. reflexivity.
Qed.

Lemma str_includes_spec (s sub : string) :
  str_includes s sub = true <-> exists pre post, s = pre ++ sub ++ post.
Proof.
  split.
  - induction s as [|c s IH]; cbn [str_includes]; intros H.
    + rewrite orb_false_r in H. apply prefix_inv in H.
      destruct H as [post H]. exists EmptyString, post. exact H.
    + apply orb_true_iff in H. destruct H as [H|H].
      * apply prefix_inv in H. destruct H as [post H].
        exists EmptyString, post. exact H.
      * destruct (IH H) as (pre & post & ->).
        exists (String c pre), post. reflexivity.
  - intros (pre & post & ->). induction pre as [|c pre IH].
    + cbn [append]. destruct (sub ++ post) eqn:E.
      * cbn [str_includes]. rewrite orb_false_r. rewrite <- E.
        apply prefix_app.
      * cbn [str_includes]. rewrite <- E, prefix_app. reflexivity.
    + cbn [append str_includes]. rewrite IH. apply orb_true_r.
Qed.

(** X19. A sign-up failure whose message contains 'already', 'exists' or
    'unique' anywhere counts as the demo user being there: nothing is
    thrown and the flag is set. Any other failure is thrown on unchanged,
    with the flag left clear, and its message contains none of the three
    words. *)
Theorem existing_demo_user_is_accepted (a : Auth) (e : Thrown) :
  (forall word pre post,
      In word ["already"; "exists"; "unique"] ->
      thrown_message e = pre ++ word ++ post ->
      ensureDemoUser (Some a) (Some e) false = mkDemoRun None true 1) /\
  (forall thrown,
      demo_thrown (ensureDemoUser (Some a) (Some e) false) = Some thrown ->
      thrown = e /\
      demo_created (ensureDemoUser (Some a) (Some e) false) = false /\
      forall word pre post,
        In word ["already"; "exists"; "unique"] ->
        thrown_message e <> pre ++ word ++ post).
Proof.
  unfold ensureDemoUser. cbn [getAuth]. split.
  - intros word pre post Hin Hm.
    assert (Hs : str_includes (thrown_message e) word = true)
      by (apply str_includes_spec; eauto).
    cbn [In] in Hin.
    destruct Hin as [<-|[<-|[<-|[]]]]; rewrite Hs, ?orb_true_r; reflexivity.
  - intros thrown.
    destruct (str_includes (thrown_message e) "already") eqn:H1;
      [cbn; discriminate|].
    destruct (str_includes (thrown_message e) "exists") eqn:H2;
      [cbn; discriminate|].
    destruct (str_includes (thrown_message e) "unique") eqn:H3;
      [cbn; discriminate|].
    cbn. intros [= <-]. repeat split.
    intros word pre post Hin Hm.
    assert (Hs : str_includes (thrown_message e) word = true)
      by (apply str_includes_spec; eauto).
    destruct Hin as [<-|[<-|[<-|[]]]]; congruence.
Qed.

Lemma sign_in_route_dispatch a totalHits :
  dispatch a totalHits GET "/sign-in" mountAuthRoutes =
  if totalHits >? 10 then Ends too_many_requests else Elsewhere.
Proof.
  assert (E0 : path_matches (Splat "/api/auth") "/sign-in" = false)
    by reflexivity.
  assert (E1 : path_matches (Exact "/.well-known/oauth-authorization-server")
                 "/sign-in" = false) by reflexivity.
  assert (E2 : existsb (fun q => path_matches (Exact q) "/sign-in") prmPaths
               = false) by reflexivity.
  assert (E3 : path_matches (Exact "/sign-in") "/sign-in" = true)
    by reflexivity.
  rewrite dispatch_mountAuthRoutes, E0, E1, E2, E3. reflexivity.
Qed.

(** X20. A GET on [/sign-in] that the rate limiter lets through, at most
    the tenth of the client in the minute, and that lacks a non-empty
    [redirect_uri] or a non-empty [client_id], reaches the handler and is
    answered 400; nothing else is done: no sign-up, no sign-in, and the
    demo-user flag stays as it was. *)
Theorem sign_in_needs_oauth_parameters
    (totalHits : Z) (authorizeUrl : list (string * string) -> string)
    (a : Auth) (signUpEmail : option Thrown)
    (signInEmail : Thrown + list string)
    (query : list (string * string)) (demoUserCreated : bool) :
  totalHits <= 10 ->
  truthy (params_get "redirect_uri" query) = false \/
  truthy (params_get "client_id" query) = false ->
  dispatch a totalHits GET "/sign-in" mountAuthRoutes = Elsewhere /\
  get_sign_in totalHits authorizeUrl a signUpEmail signInEmail query
    demoUserCreated =
  mkSignInRun
    (SignInRefused 400
       "Missing required OAuth parameters (redirect_uri, client_id)")
    demoUserCreated 0 0.
Proof.
  intros Hl H.
  assert (Hg : (totalHits >? 10) = false)
    by (rewrite Z.gtb_ltb; apply Z.ltb_ge; exact Hl).
  split.
  - rewrite sign_in_route_dispatch, Hg. reflexivity.
  - unfold get_sign_in. rewrite Hg. unfold sign_in.
    destruct H as [-> | ->]; rewrite ?orb_true_r; reflexivity.
Qed.

(** What the handler of the sign-in page answers, once the limiter has
    let the request through. *)
Lemma sign_in_handler_outcomes
    (authorizeUrl : list (string * string) -> string) (a : Auth)
    (signUpEmail : option Thrown) (signInEmail : Thrown + list string)
    (query : list (string * string)) (demoUserCreated : bool) :
  let r :=
    sign_in authorizeUrl a signUpEmail signInEmail query demoUserCreated in
  let present :=
    (truthy (params_get "redirect_uri" query) &&
     truthy (params_get "client_id" query))%bool in
  match signin_response r with
  | SignInRedirect cookies location =>
      present = true /\ signInEmail = inr cookies /\
      location = authorizeUrl query /\
      signin_created r = true /\ signin_signIns r = 1%nat
  | SignInRefused status error =>
      (present = false /\ status = 400 /\
       error = "Missing required OAuth parameters (redirect_uri, client_id)")
      \/
      (present = true /\ status = 500 /\ error = "Authentication failed" /\
       ((exists e, signInEmail = inl e) \/
        (signin_created r = false /\ signin_signIns r = 0%nat)))
  | SignInTooMany _ _ _ => False
  end.
Proof.
  cbv zeta. unfold sign_in.
  destruct (truthy (params_get "redirect_uri" query)); cbn [negb orb andb].
  2: { left. repeat split. }
  destruct (truthy (params_get "client_id" query)); cbn [negb orb andb].
  2: { left. repeat split. }
  unfold ensureDemoUser. cbn [getAuth].
  destruct demoUserCreated; cbn [demo_thrown demo_created demo_signUps].
  - destruct signInEmail as [e|cookies]; cbn.
    + right. repeat split. left. eauto.
    + repeat split.
  - destruct signUpEmail as [e|]; cbn [demo_thrown demo_created demo_signUps].
    + destruct (str_includes (thrown_message e) "already" ||
                str_includes (thrown_message e) "exists" ||
                str_includes (thrown_message e) "unique")%bool;
        cbn [demo_thrown demo_created demo_signUps].
      * destruct signInEmail as [e'|cookies]; cbn.
        -- right. repeat split. left. eauto.
        -- repeat split.
      * cbn. right. repeat split. right. split; reflexivity.
    + destruct signInEmail as [e'|cookies]; cbn.
      * right. repeat split. left. eauto.
      * repeat split.
Qed.

(** X21. A GET on [/sign-in] is answered in one of four ways. Once the
    client is over ten requests in the minute the limiter answers 429
    [too_many_requests] and the handler does not run. Otherwise the handler
    redirects only when both parameters are there, the demo user is in
    place and better-auth signed it in; it then forwards exactly the
    cookies of that response and goes to the authorize URL built from the
    request's own parameters. Every other answer of the handler is the 400
    for missing parameters or a 500 that says 'Authentication failed'
    whatever was thrown. *)
Theorem sign_in_outcomes
    (totalHits : Z) (authorizeUrl : list (string * string) -> string)
    (a : Auth) (signUpEmail : option Thrown)
    (signInEmail : Thrown + list string)
    (query : list (string * string)) (demoUserCreated : bool) :
  let r :=
    get_sign_in totalHits authorizeUrl a signUpEmail signInEmail query
      demoUserCreated in
  let present :=
    (truthy (params_get "redirect_uri" query) &&
     truthy (params_get "client_id" query))%bool in
  dispatch a totalHits GET "/sign-in" mountAuthRoutes =
    (if totalHits >? 10 then Ends too_many_requests else Elsewhere) /\
  match signin_response r with
  | SignInTooMany status error description =>
      10 < totalHits /\
      respond status (OAuthError error description) = too_many_requests /\
      signin_created r = demoUserCreated /\
      signin_signUps r = 0%nat /\ signin_signIns r = 0%nat
  | SignInRedirect cookies location =>
      totalHits <= 10 /\
      present = true /\ signInEmail = inr cookies /\
      location = authorizeUrl query /\
      signin_created r = true /\ signin_signIns r = 1%nat
  | SignInRefused status error =>
      totalHits <= 10 /\
      ((present = false /\ status = 400 /\
        error = "Missing required OAuth parameters (redirect_uri, client_id)")
       \/
       (present = true /\ status = 500 /\ error = "Authentication failed" /\
        ((exists e, signInEmail = inl e) \/
         (signin_created r = false /\ signin_signIns r = 0%nat))))
  end.
Proof.
  cbv zeta. split; [apply sign_in_route_dispatch|].
  unfold get_sign_in. destruct (Z.gtb_spec totalHits 10) as [Hgt|Hle].
  - cbn. repeat split. exact Hgt.
  - pose proof (sign_in_handler_outcomes authorizeUrl a signUpEmail
                  signInEmail query demoUserCreated) as H.
    cbv zeta in H.
    destruct (signin_response
                (sign_in authorizeUrl a signUpEmail signInEmail query
                   demoUserCreated)); [split; [exact Hle|exact H]
                                      |split; [exact Hle|exact H]
                                      |destruct H].
Qed.

(** ** ServiceNow credentials, the token cache and requests *)

Lemma truthy_env_or_empty (env : Env) (name : string) :
  truthy (Some (env_or_empty env name)) = truthy (env name).
Proof. unfold env_or_empty. destruct (env name); reflexivity. Qed.

(** X22. [requireConfig] reports the first of the client id, the client
    secret, the user name and the password, in this order, whose
    environment variable is unset or empty, and nothing when all four are
    set. *)
Theorem requireConfig_reports_first_missing (env : Env) :
  requireConfig env =
  option_map (fun name => name ++ " is not set")
    (find (fun name => negb (truthy (env name)))
       ["SERVICENOW_CLIENT_ID"; "SERVICENOW_CLIENT_SECRET";
        "SERVICENOW_USERNAME"; "SERVICENOW_PASSWORD"]).
Proof.
  unfold requireConfig, getConfig.
  cbn [cfg_clientId cfg_clientSecret cfg_username cfg_password find].
  rewrite !truthy_env_or_empty.
  destruct (truthy (env "SERVICENOW_CLIENT_ID")); [|reflexivity].
  destruct (truthy (env "SERVICENOW_CLIENT_SECRET")); [|reflexivity].
  destruct (truthy (env "SERVICENOW_USERNAME")); [|reflexivity].
  destruct (truthy (env "SERVICENOW_PASSWORD")); reflexivity.
Qed.

Lemma truthy_nonempty (s : string) :
  s <> EmptyString -> truthy (Some s) = true.
Proof. destruct s; [congruence | reflexivity]. Qed.

Lemma fetchOAuthToken_fetched
    (now status expires_in : Z) (access_token : string) (cache : TokenCache) :
  (truthy (Some (oauthAccessToken cache)) && (now <? oauthTokenExpiry cache))%bool
    = false ->
  response_ok status = true ->
  fetchOAuthToken now (TokenResponse status (inr (access_token, expires_in)))
    cache =
  mkTokenRun (inr access_token)
    {| oauthAccessToken := access_token;
       oauthTokenExpiry := now + (expires_in - 60) * 1000 |} 1.
Proof.
  intros Hstale Hok. unfold fetchOAuthToken. rewrite Hstale, Hok. reflexivity.
Qed.

(** X23. A non-empty token fetched at [now] is served from the cache,
    without a request, by every call made less than [expires_in - 60]
    seconds after [now]. *)
Theorem token_is_reused_until_refresh_time
    (now now' status expires_in : Z) (access_token : string)
    (next : TokenFetch) (cache : TokenCache) :
  (truthy (Some (oauthAccessToken cache)) && (now <? oauthTokenExpiry cache))%bool
    = false ->
  response_ok status = true ->
  access_token <> EmptyString ->
  now' < now + (expires_in - 60) * 1000 ->
  let first :=
    fetchOAuthToken now (TokenResponse status (inr (access_token, expires_in)))
      cache in
  token_result first = inr access_token /\
  token_fetches first = 1%nat /\
  fetchOAuthToken now' next (token_cache first) =
  mkTokenRun (inr access_token) (token_cache first) 0.
Proof.
  intros Hstale Hok Hne Hlt. cbv zeta.
  rewrite (fetchOAuthToken_fetched _ _ _ _ _ Hstale Hok).
  cbn [token_result token_fetches token_cache].
  repeat split. unfold fetchOAuthToken.
  cbn [oauthAccessToken oauthTokenExpiry].
  rewrite truthy_nonempty by exact Hne.
  apply Z.ltb_lt in Hlt. rewrite Hlt. reflexivity.
Qed.

(** X24. A token that lives 60 seconds or less, or an empty one, is never
    served from the cache: the next call, at the same time or later, asks
    the token endpoint again. *)
Theorem short_lived_token_is_fetched_again
    (now now' status expires_in : Z) (access_token : string)
    (next : TokenFetch) (cache : TokenCache) :
  (truthy (Some (oauthAccessToken cache)) && (now <? oauthTokenExpiry cache))%bool
    = false ->
  response_ok status = true ->
  now <= now' ->
  expires_in <= 60 \/ access_token = EmptyString ->
  let first :=
    fetchOAuthToken now (TokenResponse status (inr (access_token, expires_in)))
      cache in
  token_fetches (fetchOAuthToken now' next (token_cache first)) = 1%nat.
Proof.
  intros Hstale Hok Hle H. cbv zeta.
  rewrite (fetchOAuthToken_fetched _ _ _ _ _ Hstale Hok).
  cbn [token_cache].
  unfold fetchOAuthToken. cbn [oauthAccessToken oauthTokenExpiry].
  assert (Hc : (truthy (Some access_token) &&
                (now' <? now + (expires_in - 60) * 1000))%bool = false).
  { destruct H as [H| ->]; [|reflexivity].
    apply andb_false_iff. right. apply Z.ltb_ge. lia. }
  rewrite Hc.
  destruct next as [e|st [e|[tok ex]]]; [reflexivity| |];
    destruct (response_ok st); reflexivity.
Qed.

(** X25. When no token can be had, the cached token and its expiry stay as
    they were, and [snowRequest] throws the same value without sending its
    request. *)
Theorem no_token_no_request {T : Type}
    (now : Z) (tokenFetch : TokenFetch) (fetched : SnowFetch T)
    (cache : TokenCache) (e : Thrown) :
  token_result (fetchOAuthToken now tokenFetch cache) = inl e ->
  token_cache (fetchOAuthToken now tokenFetch cache) = cache /\
  snowRequest now tokenFetch fetched cache = mkSnowRun (inl e) cache 0.
Proof.
  intros H.
  assert (Hc : token_cache (fetchOAuthToken now tokenFetch cache) = cache).
  { revert H. unfold fetchOAuthToken.
    destruct (truthy (Some (oauthAccessToken cache)) &&
              (now <? oauthTokenExpiry cache))%bool; [discriminate|].
    destruct tokenFetch as [e'|st [e'|[tok ex]]]; [reflexivity| |];
      destruct (response_ok st); cbn; try reflexivity; discriminate. }
  split; [exact Hc|].
  unfold snowRequest. rewrite H, Hc. reflexivity.
Qed.

Lemma append_assoc (a b c : string) : (a ++ b) ++ c = a ++ b ++ c.
Proof. induction a; cbn; [reflexivity | f_equal; assumption]. Qed.

Lemma append_nil (a : string) : a ++ EmptyString = a.
Proof. induction a; cbn; [reflexivity | f_equal; assumption]. Qed.

Lemma snow_error_text_starts {T : Type} (status : Z) (body : SnowBody T) :
  exists rest,
    snow_error_text status body = "HTTP " ++ decimal status ++ rest.
Proof.
  unfold snow_error_text. destruct body as [e|[m d] result].
  - exists EmptyString. rewrite append_nil. reflexivity.
  - cbn [error_message error_detail].
    destruct m as [m|]; [destruct (truthy (Some m))|];
      (destruct d as [d|]; [destruct (truthy (Some d))|]);
      rewrite ?append_assoc;
      first [ eexists; reflexivity
            | exists EmptyString; rewrite append_nil; reflexivity ].
Qed.

(** X26. What [snowRequest] resolves to carries the response's status; its
    [error] is a non-empty text starting with [HTTP <status>] exactly when
    the status is outside 200..299, and then there is no data; a 204 gives
    neither error nor data. *)
Theorem snow_result_shape {T : Type}
    (now status : Z) (tokenFetch : TokenFetch) (body : SnowBody T)
    (cache : TokenCache) (r : SnowResult T) :
  snow_outcome (snowRequest now tokenFetch (SnowResponse status body) cache)
    = inr r ->
  snow_status r = status /\
  truthy (snow_error r) = negb (response_ok status) /\
  (response_ok status = true -> snow_error r = None) /\
  (response_ok status = false ->
   snow_data r = None /\
   exists rest, snow_error r = Some ("HTTP " ++ decimal status ++ rest)) /\
  (status = 204 -> snow_data r = None).
Proof.
  unfold snowRequest.
  destruct (token_result (fetchOAuthToken now tokenFetch cache)) as [e|tok];
    [discriminate|].
  destruct (response_ok status) eqn:Hok; cbn [negb].
  - destruct (status =? 204) eqn:H204.
    + cbn. intros [= <-]. cbn. apply Z.eqb_eq in H204.
      repeat split; try discriminate; congruence.
    + destruct body as [e|err result]; [discriminate|].
      cbn. intros [= <-]. cbn. apply Z.eqb_neq in H204.
      repeat split; try discriminate; congruence.
  - cbn. intros [= <-]. cbn [snow_status snow_error snow_data].
    destruct (snow_error_text_starts status body) as [rest Hrest].
    split; [reflexivity|]. split; [rewrite Hrest; reflexivity|].
    split; [discriminate|]. split.
    + intros _. split; [reflexivity|]. exists rest. rewrite Hrest.
      reflexivity.
    + intros ->. discriminate.
Qed.

(** ** The execute_flow tool *)

Lemma poll_flow_bounds (contextId : string)
    (poll : nat -> Thrown + SnowResult FlowStatus) (remaining i : nat) :
  let r := poll_flow contextId poll i remaining in
  (i <= flow_polls r <= i + remaining)%nat /\
  flow_posts r = 1%nat /\
  flow_waited r = Z.of_nat (flow_polls r) * pollInterval.
Proof.
  cbv zeta. revert i. induction remaining as [|n IH]; intros i.
  - cbn. repeat split; lia.
  - cbn [poll_flow]. destruct (poll i) as [e|res].
    + cbn [flow_polls flow_posts flow_waited]. repeat split; lia.
    + destruct (truthy (snow_error res)).
      * cbn [flow_polls flow_posts flow_waited]. repeat split; lia.
      * destruct (flow_finished (state_of (snow_data res))).
        -- cbn [flow_polls flow_posts flow_waited]. repeat split; lia.
        -- destruct (IH (S i)) as (H1 & H2 & H3). repeat split; try lia;
             assumption.
Qed.

Lemma poll_flow_pending (contextId : string)
    (poll : nat -> Thrown + SnowResult FlowStatus) (k i remaining : nat) :
  (forall j, (i <= j < i + k)%nat -> pending (poll j) = true) ->
  poll_flow contextId poll i (k + remaining) =
  poll_flow contextId poll (i + k) remaining.
Proof.
  revert i. induction k as [|k IH]; intros i H.
  - rewrite Nat.add_0_r. reflexivity.
  - cbn [Nat.add poll_flow].
    assert (Hi : pending (poll i) = true) by (apply H; lia).
    unfold pending in Hi. destruct (poll i) as [e|res]; [discriminate|].
    apply andb_true_iff in Hi. destruct Hi as [He Hf].
    apply negb_true_iff in He, Hf. rewrite He, Hf.
    rewrite IH by (intros j Hj; apply H; lia).
    f_equal. lia.
Qed.

Lemma execute_flow_polls (env : Env) (wait_for_completion : bool)
    (started : Thrown + SnowResult FlowData)
    (poll : nat -> Thrown + SnowResult FlowStatus) (contextId : string) :
  polls_context env wait_for_completion started contextId ->
  execute_flow env wait_for_completion started poll =
  poll_flow contextId poll 0 maxAttempts.
Proof.
  intros (Hc & -> & res & data & -> & He & Hd & Hk).
  unfold execute_flow. rewrite Hc, He, Hd, Hk. reflexivity.
Qed.

(** X27. [execute_flow] starts the flow at most once and polls its status
    at most 30 times, having waited two seconds before each poll; it does
    not poll at all unless asked to wait for completion, and makes no
    request at all when a credential is missing. *)
Theorem execute_flow_polls_are_bounded (env : Env)
    (wait_for_completion : bool) (started : Thrown + SnowResult FlowData)
    (poll : nat -> Thrown + SnowResult FlowStatus) :
  let r := execute_flow env wait_for_completion started poll in
  (flow_posts r <= 1)%nat /\ (flow_polls r <= 30)%nat /\
  flow_waited r = Z.of_nat (flow_polls r) * 2000 /\
  (wait_for_completion = false -> flow_polls r = 0%nat) /\
  (requireConfig env <> None -> flow_posts r = 0%nat /\ flow_polls r = 0%nat).
Proof.
  cbv zeta. unfold execute_flow.
  destruct (requireConfig env) as [configErr|].
  { cbn. repeat split; try lia; congruence. }
  destruct started as [e|res].
  { cbn. repeat split; try lia; congruence. }
  destruct (truthy (snow_error res)).
  { cbn. repeat split; try lia; congruence. }
  cbv zeta.
  destruct wait_for_completion.
  2: { cbn. repeat split; try lia; congruence. }
  destruct (snow_data res) as [data|].
  2: { cbn. repeat split; try lia; congruence. }
  destruct (context_id data) as [contextId|].
  2: { cbn. repeat split; try lia; congruence. }
  destruct (poll_flow_bounds contextId poll maxAttempts 0) as (H1 & H2 & H3).
  unfold maxAttempts in *. unfold pollInterval in H3.
  repeat split; try lia; congruence.
Qed.

(** X28. While every poll finds the flow still running, [execute_flow]
    gives up after exactly 30 polls and one minute of waiting, and answers
    with the timeout text, which names the context and is not flagged as an
    error. *)
Theorem execute_flow_times_out (env : Env) (wait_for_completion : bool)
    (started : Thrown + SnowResult FlowData)
    (poll : nat -> Thrown + SnowResult FlowStatus) (contextId : string) :
  polls_context env wait_for_completion started contextId ->
  (forall j, (j < 30)%nat -> pending (poll j) = true) ->
  execute_flow env wait_for_completion started poll =
  mkFlowRun
    (inr {| tool_text :=
              Some ("Flow did not complete within timeout. Context ID: "
                    ++ contextId);
            tool_isError := false |})
    1 30 60000.
Proof.
  intros Hs Hp. rewrite (execute_flow_polls _ _ _ _ _ Hs).
  change maxAttempts with (30 + 0)%nat.
  rewrite poll_flow_pending by (intros j Hj; apply Hp; lia).
  reflexivity.
Qed.

(** X29. The first poll that is not pending decides the answer: when it
    finds the flow complete, failed or cancelled, the answer is that status
    record, not flagged as an error, and no further poll is made; when the
    poll's request failed, the answer is its error text, flagged as an
    error. *)
Theorem first_settled_poll_decides (env : Env) (wait_for_completion : bool)
    (started : Thrown + SnowResult FlowData)
    (poll : nat -> Thrown + SnowResult FlowStatus) (contextId : string)
    (k : nat) (res : SnowResult FlowStatus) :
  polls_context env wait_for_completion started contextId ->
  (k < 30)%nat ->
  (forall j, (j < k)%nat -> pending (poll j) = true) ->
  poll k = inr res ->
  pending (poll k) = false ->
  execute_flow env wait_for_completion started poll =
  mkFlowRun
    (inr (if truthy (snow_error res)
          then {| tool_text := snow_error res; tool_isError := true |}
          else {| tool_text := option_map status_json (snow_data res);
                  tool_isError := false |}))
    1 (S k) (Z.of_nat (S k) * 2000).
Proof.
  intros Hs Hk Hp Hr Hn. rewrite (execute_flow_polls _ _ _ _ _ Hs).
  replace maxAttempts with (k + S (29 - k))%nat by (unfold maxAttempts; lia).
  rewrite poll_flow_pending by (intros j Hj; apply Hp; lia).
  cbn [Nat.add poll_flow]. rewrite Hr in Hn |- *. unfold pending in Hn.
  destruct (truthy (snow_error res)); [reflexivity|].
  cbn [negb andb] in Hn. apply negb_false_iff in Hn. rewrite Hn.
  reflexivity.
Qed.

(** ** Tracing of tool handlers *)

Lemma substring_length_le (n : nat) (s : string) :
  (String.length (String.substring 0 n s) <= n)%nat.
Proof.
  revert s. induction n as [|n IH]; intros [|c s]; cbn; try lia.
  specialize (IH s). lia.
Qed.

(** X30. The traced handler opens its scope first and disposes of it last,
    exactly once, whatever the tool's handler does. It passes on what the
    handler threw or resolved to, except that a result without [content]
    becomes a thrown error; it records an error exactly when it throws an
    [Error], and a response, of at most 2048 characters unless it is the
    first item's own text, exactly when it resolves. *)
Theorem traced_handler_is_transparent
    (stringify : list (option string) -> string) (name : string)
    (args : option string) (handler : Thrown + option HandlerResult) :
  let r := wrappedHandler stringify name args handler in
  (exists middle,
      traced_events r = ScopeStart name args :: middle ++ [ScopeDispose] /\
      forallb (fun e => negb (is_dispose e)) middle = true) /\
  (traced_result r = handler \/
   exists result,
     handler = inr result /\ content_of result = None /\
     traced_result r = inl slice_of_undefined) /\
  ((exists e, In (RecordError e) (traced_events r)) <->
   (exists m, traced_result r = inl (ErrorObject m))) /\
  (forall text, In (RecordResponse text) (traced_events r) ->
     traced_result r = handler /\
     (exists result, handler = inr result /\
        (first_text result = Some text \/
         first_text result = None /\ (String.length text <= 2048)%nat))) /\
  ((exists result, traced_result r = inr result) ->
   exists text, In (RecordResponse text) (traced_events r)).
Proof.
  cbv zeta. unfold wrappedHandler.
  destruct handler as [[m|t]|result].
  - cbn [traced_events traced_result]. split; [|split; [|split; [|split]]].
    + exists [RecordError (ErrorObject m)]. split; reflexivity.
    + left. reflexivity.
    + split; intros _; [exists m; reflexivity|].
      exists (ErrorObject m). cbn. auto.
    + intros text [H|[H|[H|[]]]]; discriminate.
    + intros [result H]. discriminate.
  - cbn [traced_events traced_result]. split; [|split; [|split; [|split]]].
    + exists []. split; reflexivity.
    + left. reflexivity.
    + split.
      * intros [e [H|[H|[]]]]; discriminate.
      * intros [m H]. discriminate.
    + intros text [H|[H|[]]]; discriminate.
    + intros [result H]. discriminate.
  - destruct (first_text result) as [text|] eqn:Hf.
    + cbn [traced_events traced_result]. split; [|split; [|split; [|split]]].
      * exists [RecordResponse text]. split; reflexivity.
      * left. reflexivity.
      * split.
        -- intros [e [H|[H|[H|[]]]]]; discriminate.
        -- intros [m H]. discriminate.
      * intros text' [H|[H|[H|[]]]]; try discriminate.
        injection H as <-. split; [reflexivity|].
        exists result. split; [reflexivity|]. left. exact Hf.
      * intros _. exists text. cbn. auto.
    + destruct (content_of result) as [items|] eqn:Hc.
      * cbn [traced_events traced_result].
        split; [|split; [|split; [|split]]].
        -- eexists [_]. split; reflexivity.
        -- left. reflexivity.
        -- split.
           ++ intros [e [H|[H|[H|[]]]]]; discriminate.
           ++ intros [m H]. discriminate.
        -- intros text' [H|[H|[H|[]]]]; try discriminate.
           injection H as <-. split; [reflexivity|].
           exists result. split; [reflexivity|]. right.
           split; [exact Hf | apply substring_length_le].
        -- intros _. eexists. cbn. right. left. reflexivity.
      * cbn [traced_events traced_result].
        split; [|split; [|split; [|split]]].
        -- exists [RecordError slice_of_undefined]. split; reflexivity.
        -- right. exists result. repeat split. exact Hc.
        -- split; intros _.
           ++ eexists. reflexivity.
           ++ exists slice_of_undefined. cbn. auto.
        -- intros text' [H|[H|[H|[]]]]; discriminate.
        -- intros [r H]. discriminate.
Qed.

(** ** The theorems at sample inputs *)

Lemma maps_in_step_when_deletes_close_witness :
  let es :=
    (two_sessions ++
     [DeleteMcp (Some sample_auth) 1500000 delete_accepted
        (session_request "token-a" id_a false)])%list in
  let st := run is_initialize sample_url sample_newURL es initial in
  Forall delete_closes es /\
  JsMap.has id_a (transports st) = JsMap.has id_a (sessionLastAccess st) /\
  JsMap.has id_b (transports st) = JsMap.has id_b (sessionLastAccess st).
Proof.
  cbv zeta.
  assert (H : Forall delete_closes
                (two_sessions ++
                 [DeleteMcp (Some sample_auth) 1500000 delete_accepted
                    (session_request "token-a" id_a false)])%list).
  { repeat constructor. }
  split; [exact H|].
  split; apply (maps_in_step_when_deletes_close is_initialize sample_url
                  sample_newURL _ H).
Defined.

Lemma no_stale_session_after_sweep_witness :
  JsMap.get id_b
    (sessionLastAccess
       (final (evictStaleSessions 2000000
                 (run is_initialize sample_url sample_newURL two_sessions
                    initial)))) = Some 1000000 /\
  2000000 - 1000000 <= SESSION_TTL_MS.
Proof.
  assert (H : JsMap.get id_b
                (sessionLastAccess
                   (final (evictStaleSessions 2000000
                             (run is_initialize sample_url sample_newURL
                                two_sessions initial)))) = Some 1000000)
    by reflexivity.
  split; [exact H|].
  exact (no_stale_session_after_sweep is_initialize sample_url sample_newURL
           two_sessions 2000000 id_b 1000000 H).
Defined.

Lemma initialize_registers_session_witness :
  let r :=
    protected sample_url sample_newURL (Some sample_auth) 0
      (post_mcp is_initialize (post_env id_a 0))
      (initialize_request "token-a") initial in
  value r = Some (respond 200 (Opaque "initialize result")) /\
  JsMap.get id_a (transports (final r)) = Some {| sessionId := Some id_a |} /\
  JsMap.get id_a (sessionLastAccess (final r)) = Some 0.
Proof.
  cbv zeta.
  destruct (initialize_registers_session is_initialize sample_url
              sample_newURL (Some sample_auth) 0 (post_env id_a 0)
              (initialize_request "token-a") initial id_a
              eq_refl eq_refl eq_refl eq_refl eq_refl eq_refl eq_refl)
    as (Hv & Ht & Hl & _).
  split; [exact Hv|]. split; [exact Ht|exact Hl].
Defined.

Lemma post_to_known_session_witness :
  let st := run is_initialize sample_url sample_newURL two_sessions initial in
  let r :=
    protected sample_url sample_newURL (Some sample_auth) 1200000
      (post_mcp is_initialize (post_env id_a 1200000))
      (session_request "token-a" id_a false) st in
  JsMap.get id_a (transports st) = Some {| sessionId := Some id_a |} /\
  transports (final r) = transports st /\
  JsMap.get id_a (sessionLastAccess (final r)) = Some 1200000 /\
  value r = Some (respond 200 (Opaque "result")).
Proof.
  cbv zeta.
  destruct (post_to_known_session is_initialize sample_url sample_newURL
              (Some sample_auth) 1200000 (post_env id_a 1200000)
              (session_request "token-a" id_a false)
              (run is_initialize sample_url sample_newURL two_sessions
                 initial)
              id_a {| sessionId := Some id_a |}
              eq_refl eq_refl eq_refl eq_refl eq_refl)
    as (Ht & _ & Hl & Hv).
  split; [reflexivity|]. split; [exact Ht|]. split; [exact Hl|exact Hv].
Defined.

Lemma unknown_session_refused_witness :
  let req := session_request "token-a" id_b false in
  let st := final (step is_initialize sample_url sample_newURL
                     (PostMcp (Some sample_auth) 0 (post_env id_a 0)
                        (initialize_request "token-a")) initial) in
  let r :=
    protected sample_url sample_newURL (Some sample_auth) 5
      (delete_mcp delete_accepted) req st in
  JsMap.get id_b (transports st) = None /\
  value r = Some invalid_or_missing /\
  transports (final r) = transports st /\
  sessionLastAccess (final r) = sessionLastAccess st.
Proof.
  cbv zeta.
  destruct (unknown_session_refused sample_url sample_newURL
              (Some sample_auth) 5 delete_accepted
              (session_request "token-a" id_b false)
              (final (step is_initialize sample_url sample_newURL
                        (PostMcp (Some sample_auth) 0 (post_env id_a 0)
                           (initialize_request "token-a")) initial))
              eq_refl
              (or_intror (ex_intro _ id_b (conj eq_refl eq_refl)))
              (delete_mcp delete_accepted) (or_intror eq_refl))
    as (Hv & _ & Ht & Hl & _).
  split; [reflexivity|]. split; [exact Hv|]. split; [exact Ht|exact Hl].
Defined.

Lemma post_unknown_session_requires_initialize_witness :
  let req := session_request "token-a" id_b false in
  let r :=
    protected sample_url sample_newURL (Some sample_auth) 5
      (post_mcp is_initialize (post_env id_a 5)) req initial in
  isValidSessionId id_b = true /\
  JsMap.get id_b (transports initial) = None /\
  value r = Some no_session_error /\
  transports (final r) = [] /\ sessionLastAccess (final r) = [].
Proof.
  cbv zeta.
  destruct (post_unknown_session_requires_initialize is_initialize sample_url
              sample_newURL (Some sample_auth) 5 (post_env id_a 5)
              (session_request "token-a" id_b false) initial id_b
              eq_refl eq_refl eq_refl eq_refl eq_refl)
    as (Hv & _ & Ht & Hl).
  split; [reflexivity|]. split; [reflexivity|]. split; [exact Hv|].
  split; [exact Ht|exact Hl].
Defined.

Lemma delete_terminates_session_witness :
  let st := run is_initialize sample_url sample_newURL two_sessions initial in
  let r :=
    protected sample_url sample_newURL (Some sample_auth) 1500000
      (delete_mcp delete_accepted) (session_request "token-a" id_a false)
      st in
  JsMap.get id_a (transports st) = Some {| sessionId := Some id_a |} /\
  JsMap.get id_a (transports (final r)) = None /\
  JsMap.get id_a (sessionLastAccess (final r)) = None /\
  JsMap.get id_b (transports (final r))
    = Some {| sessionId := Some id_b |} /\
  JsMap.get id_b (sessionLastAccess (final r)) = Some 1000000.
Proof.
  cbv zeta.
  destruct (delete_terminates_session is_initialize sample_url sample_newURL
              two_sessions (Some sample_auth) 1500000 delete_accepted
              (session_request "token-a" id_a false) id_a
              {| sessionId := Some id_a |}
              eq_refl eq_refl eq_refl eq_refl eq_refl)
    as (Ht & Hl & Hother & _).
  assert (Hne : id_b <> id_a) by discriminate.
  destruct (Hother id_b Hne) as [Hbt Hbl].
  split; [reflexivity|]. split; [exact Ht|]. split; [exact Hl|].
  split; [rewrite Hbt; reflexivity | rewrite Hbl; reflexivity].
Defined.

Lemma touched_session_survives_sweep_witness :
  let st := run is_initialize sample_url sample_newURL two_sessions initial in
  let touched :=
    final (protected sample_url sample_newURL (Some sample_auth) 1700000
             (get_mcp (stream_opened 1700000))
             (session_request "token-a" id_a false) st) in
  let swept := final (evictStaleSessions 2000000 touched) in
  JsMap.get id_a (sessionLastAccess st) = Some 0 /\
  2000000 - 1700000 <= SESSION_TTL_MS /\
  JsMap.get id_a (transports swept) = Some {| sessionId := Some id_a |} /\
  JsMap.get id_a (sessionLastAccess swept) = Some 1700000.
Proof.
  cbv zeta.
  assert (Hage : 2000000 - now_touch (stream_opened 1700000)
                 <= SESSION_TTL_MS) by (vm_compute; discriminate).
  destruct (touched_session_survives_sweep is_initialize sample_url
              sample_newURL two_sessions (Some sample_auth) 1700000
              (stream_opened 1700000) (session_request "token-a" id_a false)
              id_a {| sessionId := Some id_a |} 2000000
              eq_refl eq_refl eq_refl eq_refl eq_refl Hage)
    as (Ht & Hl).
  split; [reflexivity|]. split; [exact Hage|]. split; [exact Ht|exact Hl].
Defined.



Lemma sign_in_needs_oauth_parameters_witness :
  1 <= 10 /\
  truthy (params_get "redirect_uri" [("client_id", "copilot")]) = false /\
  get_sign_in 1 (fun _ => "https://mcp.example.com/api/auth/mcp/authorize")
    sample_auth None (inr ["session=abc"]) [("client_id", "copilot")] false =
  mkSignInRun
    (SignInRefused 400
       "Missing required OAuth parameters (redirect_uri, client_id)")
    false 0 0.
Proof.
  assert (Hl : 1 <= 10) by lia.
  split; [exact Hl|]. split; [reflexivity|].
  apply (sign_in_needs_oauth_parameters 1
           (fun _ => "https://mcp.example.com/api/auth/mcp/authorize")
           sample_auth None (inr ["session=abc"])
           [("client_id", "copilot")] false Hl).
  left. reflexivity.
Defined.

Lemma token_is_reused_until_refresh_time_witness :
  let first :=
    fetchOAuthToken 0 (TokenResponse 200 (inr ("token-1", 1800))) no_token in
  1000000 < 0 + (1800 - 60) * 1000 /\
  token_result first = inr "token-1" /\
  fetchOAuthToken 1000000 (TokenFetchThrows (OtherValue "offline"))
    (token_cache first) =
  mkTokenRun (inr "token-1") (token_cache first) 0.
Proof.
  cbv zeta.
  assert (Hlt : 1000000 < 0 + (1800 - 60) * 1000) by reflexivity.
  assert (Hne : "token-1" <> EmptyString) by discriminate.
  destruct (token_is_reused_until_refresh_time 0 1000000 200 1800 "token-1"
              (TokenFetchThrows (OtherValue "offline")) no_token
              eq_refl eq_refl Hne Hlt) as (H1 & _ & H2).
  split; [exact Hlt|]. split; [exact H1|exact H2].
Defined.

Lemma short_lived_token_is_fetched_again_witness :
  let first :=
    fetchOAuthToken 0 (TokenResponse 200 (inr ("token-1", 60))) no_token in
  token_result first = inr "token-1" /\
  token_fetches
    (fetchOAuthToken 0 (TokenResponse 200 (inr ("token-2", 1800)))
       (token_cache first)) = 1%nat.
Proof.
  cbv zeta. split; [reflexivity|].
  apply (short_lived_token_is_fetched_again 0 0 200 60 "token-1"
           (TokenResponse 200 (inr ("token-2", 1800))) no_token
           eq_refl eq_refl).
  - discriminate.
  - left. discriminate.
Defined.

Lemma no_token_no_request_witness :
  let denied := TokenResponse 401 (inr ("unused", 0)) in
  token_result (fetchOAuthToken 0 denied no_token) =
    inl (ErrorObject "OAuth token request failed: HTTP 401") /\
  snowRequest 0 denied (SnowResponse 200 (Json (mkServiceNowError None None)
                                            (Some "record")))
    no_token =
  mkSnowRun (inl (ErrorObject "OAuth token request failed: HTTP 401"))
    no_token 0.
Proof.
  cbv zeta. split; [reflexivity|].
  exact (proj2 (no_token_no_request 0 (TokenResponse 401 (inr ("unused", 0)))
                  (SnowResponse 200 (Json (mkServiceNowError None None)
                                       (Some "record")))
                  no_token
                  (ErrorObject "OAuth token request failed: HTTP 401")
                  eq_refl)).
Defined.

Lemma snow_result_shape_witness :
  let cached := {| oauthAccessToken := "token-1"; oauthTokenExpiry := 10 |} in
  let body : SnowBody string :=
    Json (mkServiceNowError (Some "No Record found")
            (Some "Record doesn't exist"))
      None in
  let r :=
    mkSnowResult None
      (Some ("HTTP 404: No Record found" ++ detail_separator ++
             "Record doesn't exist")) 404 in
  snow_outcome
    (snowRequest 0 (TokenFetchThrows (OtherValue "offline"))
       (SnowResponse 404 body) cached) = inr r /\
  truthy (snow_error r) = true /\ snow_data r = None.
Proof.
  cbv zeta.
  destruct (snow_result_shape 0 404 (TokenFetchThrows (OtherValue "offline"))
              (Json (mkServiceNowError (Some "No Record found")
                       (Some "Record doesn't exist")) (@None string))
              {| oauthAccessToken := "token-1"; oauthTokenExpiry := 10 |}
              (mkSnowResult None
                 (Some ("HTTP 404: No Record found" ++ detail_separator ++
                        "Record doesn't exist")) 404)
              eq_refl) as (_ & Hth & _ & Hfail & _).
  split; [reflexivity|]. split; [exact Hth|].
  exact (proj1 (Hfail eq_refl)).
Defined.

Lemma execute_flow_times_out_witness :
  polls_context sample_env true (flow_started "ctx-1") "ctx-1" /\
  execute_flow sample_env true (flow_started "ctx-1")
    (fun _ => flow_in_state "in_progress") =
  mkFlowRun
    (inr {| tool_text :=
              Some "Flow did not complete within timeout. Context ID: ctx-1";
            tool_isError := false |})
    1 30 60000.
Proof.
  assert (H : polls_context sample_env true (flow_started "ctx-1") "ctx-1").
  { split; [reflexivity|]. split; [reflexivity|].
    eexists _, _. repeat split; reflexivity. }
  split; [exact H|].
  apply (execute_flow_times_out sample_env true (flow_started "ctx-1")
           (fun _ => flow_in_state "in_progress") "ctx-1" H).
  intros j _. reflexivity.
Defined.

Lemma first_settled_poll_decides_witness :
  polls_context sample_env true (flow_started "ctx-1") "ctx-1" /\
  pending (completes_at 2 2) = false /\
  execute_flow sample_env true (flow_started "ctx-1") (completes_at 2) =
  mkFlowRun
    (inr {| tool_text := Some (json_record "state" "complete");
            tool_isError := false |})
    1 3 6000.
Proof.
  assert (H : polls_context sample_env true (flow_started "ctx-1") "ctx-1").
  { split; [reflexivity|]. split; [reflexivity|].
    eexists _, _. repeat split; reflexivity. }
  split; [exact H|]. split; [reflexivity|].
  refine (first_settled_poll_decides sample_env true (flow_started "ctx-1")
            (completes_at 2) "ctx-1" 2 _ H _ _ eq_refl eq_refl).
  - lia.
  - intros j Hj. destruct j as [|[|j]]; [reflexivity|reflexivity|lia].
Defined.
